(** * SpatialGrid: a uniform-grid spatial index

    A shallow embedding of [src/SpatialGrid.ts] and the properties of its
    tile assignment ([update]) and of its four queries.

    Modelling choices.
    - A JavaScript [number] is modelled as an exact rational ([Q]);
      [Math.floor] and [Math.ceil] are [Qfloor] and [Qceiling].  Rounding of
      IEEE doubles, infinities and NaN are outside the model, except where a
      NaN decides the control flow of the source (the zero-length segment of
      the line query), which is written out.  A division by [tileSize] is
      the exact quotient, so the model speaks for stores with a non-zero
      [tileSize]; the properties assume [0 < tileSize] where they divide.
    - Object identity is reference identity: a reference is a [Ref], and the
      caller-owned objects live in a heap [Ref -> SpatialGridObject].  The
      store keeps references only.
    - A method that can throw returns an [outcome]; the only exception the
      class can raise is the [TypeError] of iterating or pushing to
      [this.#grid[i]] when that slot is [undefined].
    - The [while (true)] loop of the line query is run with fuel.
    - The debug trace ([debug], [lastCheckedTiles]) is a write-only side
      channel of the queries: the queries are modelled without it first,
      then with it ([getNeighborsT] and the like, in a state monad), and
      the two are proved to agree. *)

From Stdlib Require Import QArith Qround Qminmax ZArith List Bool Lia Lqa.
Import ListNotations.

Local Open Scope Q_scope.

(** ** Outcomes of a method call *)

Inductive outcome (A : Type) : Type :=
| Returns (a : A)
| Throws
| OutOfFuel.

Arguments Returns {A} a.
Arguments Throws {A}.
Arguments OutOfFuel {A}.

Definition bind {A B : Type} (m : outcome A) (k : A -> outcome B) : outcome B :=
  match m with
  | Returns a => k a
  | Throws => Throws
  | OutOfFuel => OutOfFuel
  end.

Notation "v <- m ;; k" := (bind m (fun v => k))
  (at level 61, m at next level, right associativity).

(** A [for (const a of l)] loop whose body may throw. *)
Fixpoint foldM {A S : Type} (body : S -> A -> outcome S) (l : list A) (s : S)
  : outcome S :=
  match l with
  | [] => Returns s
  | a :: l' => s' <- body s a ;; foldM body l' s'
  end.

(** ** Data model *)

Definition Ref := nat.

Module Obj.
Record t : Type := make {
  x : Q;
  y : Q;
  radius : option Q;
  left : option Q;
  right : option Q;
  top : option Q;
  bottom : option Q
}.
End Obj.

Definition SpatialGridObject := Obj.t.

(** [a ?? b] on an optional field. *)
Definition nullish (a : option Q) (b : Q) : Q :=
  match a with
  | Some v => v
  | None => b
  end.

(** [a || 0] on an optional number: a missing field and the number 0 are
    both falsy. *)
Definition or_zero (a : option Q) : Q :=
  match a with
  | Some v => if Qeq_bool v 0 then 0 else v
  | None => 0
  end.

Definition Qltb (a b : Q) : bool := negb (Qle_bool b a).

Record SpatialGrid : Type := mkGrid {
  width : Q;
  height : Q;
  tileSize : Q;
  objects : list Ref;
  grid : list (list Ref)
}.

Definition constructor (w h ts : Q) : SpatialGrid :=
  mkGrid w h ts [] [].

Definition with_grid (this : SpatialGrid) (g : list (list Ref)) : SpatialGrid :=
  mkGrid (width this) (height this) (tileSize this) (objects this) g.

Definition add (this : SpatialGrid) (objs : list Ref) : SpatialGrid :=
  mkGrid (width this) (height this) (tileSize this)
         (objects this ++ objs) (grid this).

Definition includes (objs : list Ref) (o : Ref) : bool :=
  existsb (Nat.eqb o) objs.

Definition remove (this : SpatialGrid) (objs : list Ref) : SpatialGrid :=
  mkGrid (width this) (height this) (tileSize this)
         (filter (fun obj => negb (includes objs obj)) (objects this))
         (grid this).

Definition xTiles (this : SpatialGrid) : Z :=
  Qfloor (width this / tileSize this).

Definition yTiles (this : SpatialGrid) : Z :=
  Qfloor (height this / tileSize this).

(** [Math.floor(c / this.tileSize)] *)
Definition worldToTile (this : SpatialGrid) (c : Q) : Z :=
  Qfloor (c / tileSize this).

(** The guard [x >= 0 && x < this.xTiles && y >= 0 && y < this.yTiles]. *)
Definition inBounds (this : SpatialGrid) (tx ty : Z) : bool :=
  (0 <=? tx)%Z && (tx <? xTiles this)%Z
  && (0 <=? ty)%Z && (ty <? yTiles this)%Z.

Definition tileIndex (this : SpatialGrid) (tx ty : Z) : Z :=
  (ty * xTiles this + tx)%Z.

(** [g[i]] for an integer [i]; [None] is [undefined]. *)
Definition grid_at (g : list (list Ref)) (i : Z) : option (list Ref) :=
  if (i <? 0)%Z then None else nth_error g (Z.to_nat i).

(** [g[i]] for any number [i]: only an integer index names a slot. *)
Definition grid_atQ (g : list (list Ref)) (i : Q) : option (list Ref) :=
  if Qeq_bool (inject_Z (Qfloor i)) i then grid_at g (Qfloor i) else None.

(** [g[n].push(o)] *)
Fixpoint push_at (g : list (list Ref)) (n : nat) (o : Ref)
  : outcome (list (list Ref)) :=
  match g, n with
  | [], _ => Throws
  | b :: g', O => Returns ((b ++ [o]) :: g')
  | b :: g', S n' => g'' <- push_at g' n' o ;; Returns (b :: g'')
  end.

Definition grid_push (g : list (list Ref)) (i : Z) (o : Ref)
  : outcome (list (list Ref)) :=
  if (i <? 0)%Z then Throws else push_at g (Z.to_nat i) o.

(** The values of [v] in [for (let v = lo; v <= hi; v++)], integer bounds. *)
Definition zrange (lo hi : Z) : list Z :=
  map (fun i => (lo + Z.of_nat i)%Z) (seq 0 (Z.to_nat (hi - lo + 1))).

(** The same loop over numbers: [lo], [lo + 1], ... while [<= hi]. *)
Definition qrange (lo hi : Q) : list Q :=
  map (fun i => lo + inject_Z (Z.of_nat i))
      (seq 0 (Z.to_nat (Qfloor (hi - lo) + 1))).

(** [Set.prototype.add] on an insertion-ordered set of references. *)
Definition set_add (s : list Ref) (o : Ref) : list Ref :=
  if includes s o then s else s ++ [o].

Section Methods.

Variable heap : Ref -> SpatialGridObject.

(** *** update *)

Definition startX (this : SpatialGrid) (obj : Ref) : Z :=
  let o := heap obj in
  Qfloor (nullish (Obj.left o) (Obj.x o - nullish (Obj.radius o) 0)
          / tileSize this).

Definition startY (this : SpatialGrid) (obj : Ref) : Z :=
  let o := heap obj in
  Qfloor (nullish (Obj.top o) (Obj.y o - nullish (Obj.radius o) 0)
          / tileSize this).

Definition endX (this : SpatialGrid) (obj : Ref) : Z :=
  let o := heap obj in
  Qfloor (nullish (Obj.right o) (Obj.x o + nullish (Obj.radius o) 0)
          / tileSize this).

Definition endY (this : SpatialGrid) (obj : Ref) : Z :=
  let o := heap obj in
  Qfloor (nullish (Obj.bottom o) (Obj.y o + nullish (Obj.radius o) 0)
          / tileSize this).

(** The body of the loop over [this.objects]. *)
Definition register (this : SpatialGrid) (g : list (list Ref)) (obj : Ref)
  : outcome (list (list Ref)) :=
  foldM (fun g x =>
    foldM (fun g y =>
      if inBounds this x y
      then grid_push g (tileIndex this x y) obj
      else Returns g)
      (zrange (startY this obj) (endY this obj)) g)
    (zrange (startX this obj) (endX this obj)) g.

(** [Array.from({ length: n }, () => [])]; a negative length counts as 0. *)
Definition emptyGrid (this : SpatialGrid) : list (list Ref) :=
  repeat [] (Z.to_nat (xTiles this * yTiles this)).

Definition update (this : SpatialGrid) : outcome SpatialGrid :=
  g <- foldM (register this) (objects this) (emptyGrid this) ;;
  Returns (with_grid this g).

(** *** getNeighbors *)

Definition inBoundsQ (this : SpatialGrid) (nx ny : Q) : bool :=
  Qle_bool 0 nx && Qltb nx (inject_Z (xTiles this))
  && Qle_bool 0 ny && Qltb ny (inject_Z (yTiles this)).

Definition getNeighbors (this : SpatialGrid) (x y neighborTiles : Q)
  : outcome (list Ref) :=
  let tileX := inject_Z (Qfloor (x / tileSize this)) in
  let tileY := inject_Z (Qfloor (y / tileSize this)) in
  foldM (fun uniqueNeighbors offsetX =>
    foldM (fun uniqueNeighbors offsetY =>
      let neighborX := tileX + offsetX in
      let neighborY := tileY + offsetY in
      if inBoundsQ this neighborX neighborY then
        match grid_atQ (grid this)
                (neighborY * inject_Z (xTiles this) + neighborX) with
        | Some bucket => Returns (fold_left set_add bucket uniqueNeighbors)
        | None => Throws
        end
      else Returns uniqueNeighbors)
      (qrange (- neighborTiles) neighborTiles) uniqueNeighbors)
    (qrange (- neighborTiles) neighborTiles) [].

(** *** getObjectsIntersectingCircle *)

Definition circleTest (x y radius : Q) (obj : Ref) : bool :=
  let o := heap obj in
  let objRadius := or_zero (Obj.radius o) in
  let dx := Obj.x o - x in
  let dy := Obj.y o - y in
  let distanceSquared := dx * dx + dy * dy in
  let radiiSum := objRadius + radius in
  Qle_bool distanceSquared (radiiSum * radiiSum).

Definition getObjectsIntersectingCircle (this : SpatialGrid) (x y radius : Q)
  : outcome (list Ref) :=
  candidates <- getNeighbors this x y
                  (inject_Z (Qceiling (radius / tileSize this))) ;;
  Returns (filter (circleTest x y radius) candidates).

(** *** getObjectsIntersectingRect *)

Definition rectTest (x y w h : Q) (obj : Ref) : bool :=
  let o := heap obj in
  let objLeft := nullish (Obj.left o) (Obj.x o) in
  let objRight := nullish (Obj.right o) (Obj.x o) in
  let objTop := nullish (Obj.top o) (Obj.y o) in
  let objBottom := nullish (Obj.bottom o) (Obj.y o) in
  Qle_bool x objRight && Qle_bool objLeft (x + w)
  && Qle_bool y objBottom && Qle_bool objTop (y + h).

Definition getObjectsIntersectingRect (this : SpatialGrid) (x y w h : Q)
  : outcome (list Ref) :=
  let startX := Qfloor (x / tileSize this) in
  let startY := Qfloor (y / tileSize this) in
  let endX := Qfloor ((x + w) / tileSize this) in
  let endY := Qfloor ((y + h) / tileSize this) in
  foldM (fun intersectingObjects tileX =>
    foldM (fun intersectingObjects tileY =>
      if inBounds this tileX tileY then
        match grid_at (grid this) (tileIndex this tileX tileY) with
        | Some bucket =>
            Returns (fold_left
                       (fun acc obj =>
                          if rectTest x y w h obj then acc ++ [obj] else acc)
                       bucket intersectingObjects)
        | None => Throws
        end
      else Returns intersectingObjects)
      (zrange startY endY) intersectingObjects)
    (zrange startX endX) [].

(** *** getObjectsIntersectingLine *)

(** The [while (true)] loop.  [neighborTiles] is a [Set] of freshly
    allocated [{x, y}] literals, so it never merges two entries: a list. *)
Fixpoint bresenham (fuel : nat) (this : SpatialGrid)
         (x1 y1 dx dy sx sy : Z) (x0 y0 err : Z)
         (neighborTiles : list (Z * Z)) : outcome (list (Z * Z)) :=
  match fuel with
  | O => OutOfFuel
  | S fuel' =>
      let neighborTiles' :=
        if inBounds this x0 y0 then neighborTiles ++ [(x0, y0)]
        else neighborTiles in
      if ((x0 =? x1) && (y0 =? y1))%Z then Returns neighborTiles'
      else
        let e2 := (2 * err)%Z in
        let '(err', x0') :=
          if (e2 >? - dy)%Z then ((err - dy)%Z, (x0 + sx)%Z) else (err, x0) in
        let '(err'', y0') :=
          if (e2 <? dx)%Z then ((err' + dx)%Z, (y0 + sy)%Z) else (err', y0) in
        bresenham fuel' this x1 y1 dx dy sx sy x0' y0' err'' neighborTiles'
  end.

Definition rasterize (fuel : nat) (this : SpatialGrid)
           (fromX fromY toX toY : Q) : outcome (list (Z * Z)) :=
  let x0 := Qfloor (fromX / tileSize this) in
  let y0 := Qfloor (fromY / tileSize this) in
  let x1 := Qfloor (toX / tileSize this) in
  let y1 := Qfloor (toY / tileSize this) in
  let dx := Z.abs (x1 - x0) in
  let dy := Z.abs (y1 - y0) in
  let sx := if (x0 <? x1)%Z then 1%Z else (-1)%Z in
  let sy := if (y0 <? y1)%Z then 1%Z else (-1)%Z in
  let err := (dx - dy)%Z in
  bresenham fuel this x1 y1 dx dy sx sy x0 y0 err [].

Definition expand (this : SpatialGrid) (tileExpansion : Z)
           (neighborTiles : list (Z * Z)) : list (Z * Z) :=
  fold_left (fun expandedTiles tile =>
    fold_left (fun expandedTiles offsetX =>
      fold_left (fun expandedTiles offsetY =>
        let neighborX := (fst tile + offsetX)%Z in
        let neighborY := (snd tile + offsetY)%Z in
        if inBounds this neighborX neighborY
        then expandedTiles ++ [(neighborX, neighborY)]
        else expandedTiles)
        (zrange (- tileExpansion) tileExpansion) expandedTiles)
      (zrange (- tileExpansion) tileExpansion) expandedTiles)
    neighborTiles [].

Definition collect (this : SpatialGrid) (expandedTiles : list (Z * Z))
  : outcome (list Ref) :=
  foldM (fun candidatesSet tile =>
    match grid_at (grid this) (tileIndex this (fst tile) (snd tile)) with
    | Some bucket => Returns (fold_left set_add bucket candidatesSet)
    | None => Throws
    end) expandedTiles [].

(** The clamped projection parameter [t]. *)
Definition projection (fromX fromY toX toY : Q) (obj : Ref) : Q :=
  let o := heap obj in
  let lineLengthSquared :=
    (toX - fromX) * (toX - fromX) + (toY - fromY) * (toY - fromY) in
  Qmax 0 (Qmin 1
    (((Obj.x o - fromX) * (toX - fromX) + (Obj.y o - fromY) * (toY - fromY))
     / lineLengthSquared)).

(** The filter of the line query.  For a zero-length segment the source
    divides 0 by 0: [t], the closest point and the squared distance are
    all NaN, and [NaN <= e] is false. *)
Definition lineTest (fromX fromY toX toY w : Q) (obj : Ref) : bool :=
  let o := heap obj in
  let lineLengthSquared :=
    (toX - fromX) * (toX - fromX) + (toY - fromY) * (toY - fromY) in
  if Qeq_bool lineLengthSquared 0 then false
  else
    let objRadius := or_zero (Obj.radius o) in
    let t := projection fromX fromY toX toY obj in
    let closestX := fromX + t * (toX - fromX) in
    let closestY := fromY + t * (toY - fromY) in
    let dx := Obj.x o - closestX in
    let dy := Obj.y o - closestY in
    let distanceSquared := dx * dx + dy * dy in
    let effectiveRadius := objRadius + w / 2 in
    Qle_bool distanceSquared (effectiveRadius * effectiveRadius).

Definition getObjectsIntersectingLine (fuel : nat) (this : SpatialGrid)
           (fromX fromY toX toY w : Q) : outcome (list Ref) :=
  neighborTiles <- rasterize fuel this fromX fromY toX toY ;;
  let tileExpansion := Qceiling (w / (2 * tileSize this)) in
  let expandedTiles := expand this tileExpansion neighborTiles in
  candidates <- collect this expandedTiles ;;
  Returns (filter (lineTest fromX fromY toX toY w) candidates).

End Methods.

(** ** Concrete objects and stores *)

Definition pt (x y : Q) : SpatialGridObject :=
  Obj.make x y None None None None None.

Definition circle (x y r : Q) : SpatialGridObject :=
  Obj.make x y (Some r) None None None None.

Definition box (x y l r t b : Q) : SpatialGridObject :=
  Obj.make x y None (Some l) (Some r) (Some t) (Some b).

Definition heap1 (r : Ref) : SpatialGridObject :=
  match r with
  | 0%nat => circle 25 25 5
  | 1%nat => box 10 10 5 15 5 15
  | 2%nat => pt 45 45
  | 3%nat => pt 0 90
  | 4%nat => pt 95 95
  | 5%nat => pt (-5) (-5)
  | _ => pt 45 48
  end.

(** A point on the segment (5, 5)-(25, 15), a disc whose explicit edges
    leave it out, and a point off the grid. *)
Definition heap2 (r : Ref) : SpatialGridObject :=
  match r with
  | 0%nat => pt 17 11
  | 1%nat => Obj.make 50 50 (Some 5) (Some 0) (Some 1) (Some 0) (Some 1)
  | _ => pt (-5) (-5)
  end.

Definition grid100 (ts : Q) (objs : list Ref) : SpatialGrid :=
  add (constructor 100 100 ts) objs.

(** ** Notions used to state the properties *)

(** The bucket table has one slot per tile. *)
Definition grid_wf (this : SpatialGrid) : Prop :=
  length (grid this) = Z.to_nat (xTiles this * yTiles this).

(** [o] occurs in slot [i] of [g]. *)
Definition registered (g : list (list Ref)) (i : nat) (o : Ref) : Prop :=
  exists b, nth_error g i = Some b /\ In o b.

(** The tile [(tx, ty)] lies in the tile rectangle [update] computes for
    [obj]. *)
Definition spans (heap : Ref -> SpatialGridObject) (this : SpatialGrid)
           (obj : Ref) (tx ty : Z) : Prop :=
  (startX heap this obj <= tx <= endX heap this obj)%Z
  /\ (startY heap this obj <= ty <= endY heap this obj)%Z.

(** A number of rounds after which the rasterization loop has returned. *)
Definition lineFuel (this : SpatialGrid) (fromX fromY toX toY : Q) : nat :=
  S (Z.to_nat (Z.abs (worldToTile this toX - worldToTile this fromX)
               + Z.abs (worldToTile this toY - worldToTile this fromY))).

(** The extent [update] resolves for an object: an explicit edge where
    present, otherwise centre minus or plus the radius, 0 when absent. *)
Definition objRadius (o : SpatialGridObject) : Q := nullish (Obj.radius o) 0.

Definition extentLeft (o : SpatialGridObject) : Q :=
  nullish (Obj.left o) (Obj.x o - objRadius o).

Definition extentRight (o : SpatialGridObject) : Q :=
  nullish (Obj.right o) (Obj.x o + objRadius o).

Definition extentTop (o : SpatialGridObject) : Q :=
  nullish (Obj.top o) (Obj.y o - objRadius o).

Definition extentBottom (o : SpatialGridObject) : Q :=
  nullish (Obj.bottom o) (Obj.y o + objRadius o).

(** The extent misses the rectangle [0, width) x [0, height). *)
Definition outsideGrid (this : SpatialGrid) (o : SpatialGridObject) : Prop :=
  extentRight o < 0 \/ width this <= extentLeft o
  \/ extentBottom o < 0 \/ height this <= extentTop o.

(** The extent lies in the area the tiles cover. *)
Definition insideTiles (this : SpatialGrid) (o : SpatialGridObject) : Prop :=
  0 <= extentLeft o
  /\ extentRight o < inject_Z (xTiles this) * tileSize this
  /\ 0 <= extentTop o
  /\ extentBottom o < inject_Z (yTiles this) * tileSize this.

(** The extent contains the disc of the object. *)
Definition extentCoversDisc (o : SpatialGridObject) : Prop :=
  0 <= objRadius o
  /\ extentLeft o <= Obj.x o - objRadius o
  /\ Obj.x o + objRadius o <= extentRight o
  /\ extentTop o <= Obj.y o - objRadius o
  /\ Obj.y o + objRadius o <= extentBottom o.

(** The circle-circle test as the specification states it. *)
Definition circlePred (x y r : Q) (o : SpatialGridObject) : Prop :=
  (Obj.x o - x) * (Obj.x o - x) + (Obj.y o - y) * (Obj.y o - y)
  <= (objRadius o + r) * (objRadius o + r).

(** The point of the segment at parameter [t], and the squared distance of
    an object's centre to a point. *)
Definition segmentPoint (fromX fromY toX toY t : Q) : Q * Q :=
  (fromX + t * (toX - fromX), fromY + t * (toY - fromY)).

Definition distanceSquaredTo (o : SpatialGridObject) (p : Q * Q) : Q :=
  (Obj.x o - fst p) * (Obj.x o - fst p) + (Obj.y o - snd p) * (Obj.y o - snd p).

Definition with_tileSize (this : SpatialGrid) (ts : Q) : SpatialGrid :=
  mkGrid (width this) (height this) ts (objects this) (grid this).

(** [r] is what some query on [this] returns. *)
Definition answers (heap : Ref -> SpatialGridObject) (this : SpatialGrid)
           (r : list Ref) : Prop :=
  (exists x y n, getNeighbors this x y n = Returns r)
  \/ (exists x y radius,
        getObjectsIntersectingCircle heap this x y radius = Returns r)
  \/ (exists x y w h, getObjectsIntersectingRect heap this x y w h = Returns r)
  \/ (exists fuel fromX fromY toX toY w,
        getObjectsIntersectingLine heap fuel this fromX fromY toX toY w
        = Returns r).

(** Every query gives the same outcome on [s] and on [t]. *)
Definition same_answers (heap : Ref -> SpatialGridObject) (s t : SpatialGrid)
  : Prop :=
  (forall x y n, getNeighbors s x y n = getNeighbors t x y n)
  /\ (forall x y radius,
        getObjectsIntersectingCircle heap s x y radius
        = getObjectsIntersectingCircle heap t x y radius)
  /\ (forall x y w h,
        getObjectsIntersectingRect heap s x y w h
        = getObjectsIntersectingRect heap t x y w h)
  /\ (forall fuel fromX fromY toX toY w,
        getObjectsIntersectingLine heap fuel s fromX fromY toX toY w
        = getObjectsIntersectingLine heap fuel t fromX fromY toX toY w).

(** A query anchored in tile [(tx, ty)] returns [o] as soon as its exact
    test passes. *)
Definition visibleAt (heap : Ref -> SpatialGridObject) (this : SpatialGrid)
           (o : Ref) (tx ty : Z) : Prop :=
  (forall x y,
     worldToTile this x = tx -> worldToTile this y = ty ->
     exists r, getNeighbors this x y 0 = Returns r /\ In o r)
  /\ (forall x y radius,
        worldToTile this x = tx -> worldToTile this y = ty -> 0 <= radius ->
        circleTest heap x y radius o = true ->
        exists r, getObjectsIntersectingCircle heap this x y radius = Returns r
                  /\ In o r)
  /\ (forall x y w h,
        worldToTile this x = tx -> worldToTile this y = ty ->
        0 <= w -> 0 <= h -> rectTest heap x y w h o = true ->
        exists r, getObjectsIntersectingRect heap this x y w h = Returns r
                  /\ In o r)
  /\ (forall fuel fromX fromY toX toY w,
        worldToTile this fromX = tx -> worldToTile this fromY = ty ->
        0 <= w -> (lineFuel this fromX fromY toX toY <= fuel)%nat ->
        lineTest heap fromX fromY toX toY w o = true ->
        exists r,
          getObjectsIntersectingLine heap fuel this fromX fromY toX toY w
          = Returns r /\ In o r).

(** What the queries on [this] make of [o]: each returns [o] exactly when
    one of the tiles it looks at is an in-bounds tile of the tile rectangle
    of [o] and its exact test, if it has one, passes. *)
Definition reflects (heap : Ref -> SpatialGridObject) (this : SpatialGrid)
           (o : Ref) : Prop :=
  (forall x y k,
     exists r, getNeighbors this x y (inject_Z k) = Returns r
       /\ (In o r <->
           exists tx ty,
             (worldToTile this x - k <= tx <= worldToTile this x + k)%Z
             /\ (worldToTile this y - k <= ty <= worldToTile this y + k)%Z
             /\ inBounds this tx ty = true /\ spans heap this o tx ty))
  /\ (forall x y radius,
        exists r, getObjectsIntersectingCircle heap this x y radius = Returns r
          /\ (In o r <->
              (exists tx ty,
                 (worldToTile this x - Qceiling (radius / tileSize this) <= tx
                  <= worldToTile this x + Qceiling (radius / tileSize this))%Z
                 /\ (worldToTile this y - Qceiling (radius / tileSize this)
                     <= ty
                     <= worldToTile this y
                        + Qceiling (radius / tileSize this))%Z
                 /\ inBounds this tx ty = true /\ spans heap this o tx ty)
              /\ circleTest heap x y radius o = true))
  /\ (forall x y w h,
        exists r, getObjectsIntersectingRect heap this x y w h = Returns r
          /\ (In o r <->
              (exists tx ty,
                 (worldToTile this x <= tx <= worldToTile this (x + w))%Z
                 /\ (worldToTile this y <= ty <= worldToTile this (y + h))%Z
                 /\ inBounds this tx ty = true /\ spans heap this o tx ty)
              /\ rectTest heap x y w h o = true))
  /\ (forall fuel fromX fromY toX toY w,
        (lineFuel this fromX fromY toX toY <= fuel)%nat ->
        exists tiles r,
          rasterize fuel this fromX fromY toX toY = Returns tiles
          /\ getObjectsIntersectingLine heap fuel this fromX fromY toX toY w
             = Returns r
          /\ (In o r <->
              (exists tile tx ty, In tile tiles
                 /\ (fst tile - Qceiling (w / (2 * tileSize this)) <= tx
                     <= fst tile + Qceiling (w / (2 * tileSize this)))%Z
                 /\ (snd tile - Qceiling (w / (2 * tileSize this)) <= ty
                     <= snd tile + Qceiling (w / (2 * tileSize this)))%Z
                 /\ inBounds this tx ty = true /\ spans heap this o tx ty)
              /\ lineTest heap fromX fromY toX toY w o = true)).

(** What a set of candidates may hold: no duplicates, and only references
    found in the bucket table. *)
Definition candidates_ok (g : list (list Ref)) (u : list Ref) : Prop :=
  NoDup u /\ forall o, In o u -> exists j, registered g j o.

(** ** Further notions *)

(** [spans] as a test. *)
Definition spansb (heap : Ref -> SpatialGridObject) (this : SpatialGrid)
           (obj : Ref) (tx ty : Z) : bool :=
  (startX heap this obj <=? tx)%Z && (tx <=? endX heap this obj)%Z
  && (startY heap this obj <=? ty)%Z && (ty <=? endY heap this obj)%Z.

(** The box the rectangle query tests: explicit edges, else the centre. *)
Definition rectLeft (o : SpatialGridObject) : Q :=
  nullish (Obj.left o) (Obj.x o).
Definition rectRight (o : SpatialGridObject) : Q :=
  nullish (Obj.right o) (Obj.x o).
Definition rectTop (o : SpatialGridObject) : Q :=
  nullish (Obj.top o) (Obj.y o).
Definition rectBottom (o : SpatialGridObject) : Q :=
  nullish (Obj.bottom o) (Obj.y o).

(** Overlap of that box with [x, x + w] x [y, y + h], bounds included. *)
Definition rectPred (x y w h : Q) (o : SpatialGridObject) : Prop :=
  x <= rectRight o /\ rectLeft o <= x + w
  /\ y <= rectBottom o /\ rectTop o <= y + h.

(** The extent [update] registers contains the box the rectangle query
    tests, and that box is not inverted. *)
Definition extentCoversBox (o : SpatialGridObject) : Prop :=
  extentLeft o <= rectLeft o /\ rectLeft o <= rectRight o
  /\ rectRight o <= extentRight o
  /\ extentTop o <= rectTop o /\ rectTop o <= rectBottom o
  /\ rectBottom o <= extentBottom o.

(** Two tiles that touch by a side or a corner. *)
Definition kingStep (a b : Z * Z) : Prop :=
  (Z.abs (fst b - fst a) <= 1)%Z /\ (Z.abs (snd b - snd a) <= 1)%Z /\ a <> b.

(** Every tile of the list touches the next one. *)
Fixpoint chain (l : list (Z * Z)) : Prop :=
  match l with
  | a :: (b :: _) as l' => kingStep a b /\ chain l'
  | _ => True
  end.

(** [t] lies in the rectangle of tiles spanned by [p] and [q]. *)
Definition inBox (p q t : Z * Z) : Prop :=
  (Z.min (fst p) (fst q) <= fst t <= Z.max (fst p) (fst q))%Z
  /\ (Z.min (snd p) (snd q) <= snd t <= Z.max (snd p) (snd q))%Z.

(** ** The debug trace

    [debug] is fixed by the constructor; [lastCheckedTiles] is threaded
    through the queries as state.  A query that throws leaves the trace as
    it was when the exception was raised. *)

Definition Trace := list (Q * Q).

Definition traced (A : Type) : Type := Trace -> Trace * outcome A.

Definition retT {A : Type} (a : A) : traced A := fun tr => (tr, Returns a).

Definition liftT {A : Type} (o : outcome A) : traced A := fun tr => (tr, o).

Definition bindT {A B : Type} (m : traced A) (k : A -> traced B) : traced B :=
  fun tr =>
    match m tr with
    | (tr', Returns a) => k a tr'
    | (tr', Throws) => (tr', Throws)
    | (tr', OutOfFuel) => (tr', OutOfFuel)
    end.

Notation "v <~ m ;; k" := (bindT m (fun v => k))
  (at level 61, m at next level, right associativity).

Fixpoint foldT {A S : Type} (body : S -> A -> traced S) (l : list A) (s : S)
  : traced S :=
  match l with
  | [] => retT s
  | a :: l' => s' <~ body s a ;; foldT body l' s'
  end.

(** [if (this.debug) this.lastCheckedTiles = []] *)
Definition resetT (debug : bool) : traced unit :=
  fun tr => (if debug then [] else tr, Returns tt).

(** [if (this.debug) this.lastCheckedTiles.push({ x, y })] *)
Definition pushT (debug : bool) (tile : Q * Q) : traced unit :=
  fun tr => (if debug then tr ++ [tile] else tr, Returns tt).

Definition tileQ (tile : Z * Z) : Q * Q :=
  (inject_Z (fst tile), inject_Z (snd tile)).

Section TracedMethods.

Variable heap : Ref -> SpatialGridObject.
Variable debug : bool.

Definition getNeighborsT (this : SpatialGrid) (x y neighborTiles : Q)
  : traced (list Ref) :=
  _ <~ resetT debug ;;
  let tileX := inject_Z (Qfloor (x / tileSize this)) in
  let tileY := inject_Z (Qfloor (y / tileSize this)) in
  foldT (fun uniqueNeighbors offsetX =>
    foldT (fun uniqueNeighbors offsetY =>
      let neighborX := tileX + offsetX in
      let neighborY := tileY + offsetY in
      if inBoundsQ this neighborX neighborY then
        _ <~ pushT debug (neighborX, neighborY) ;;
        liftT
          match grid_atQ (grid this)
                  (neighborY * inject_Z (xTiles this) + neighborX) with
          | Some bucket => Returns (fold_left set_add bucket uniqueNeighbors)
          | None => Throws
          end
      else retT uniqueNeighbors)
      (qrange (- neighborTiles) neighborTiles) uniqueNeighbors)
    (qrange (- neighborTiles) neighborTiles) [].

Definition getObjectsIntersectingCircleT (this : SpatialGrid) (x y radius : Q)
  : traced (list Ref) :=
  _ <~ resetT debug ;;
  candidates <~ getNeighborsT this x y
                  (inject_Z (Qceiling (radius / tileSize this))) ;;
  retT (filter (circleTest heap x y radius) candidates).

Definition getObjectsIntersectingRectT (this : SpatialGrid) (x y w h : Q)
  : traced (list Ref) :=
  _ <~ resetT debug ;;
  let startX := Qfloor (x / tileSize this) in
  let startY := Qfloor (y / tileSize this) in
  let endX := Qfloor ((x + w) / tileSize this) in
  let endY := Qfloor ((y + h) / tileSize this) in
  foldT (fun intersectingObjects tileX =>
    foldT (fun intersectingObjects tileY =>
      if inBounds this tileX tileY then
        _ <~ pushT debug (tileQ (tileX, tileY)) ;;
        liftT
          match grid_at (grid this) (tileIndex this tileX tileY) with
          | Some bucket =>
              Returns (fold_left
                         (fun acc obj =>
                            if rectTest heap x y w h obj then acc ++ [obj]
                            else acc)
                         bucket intersectingObjects)
          | None => Throws
          end
      else retT intersectingObjects)
      (zrange startY endY) intersectingObjects)
    (zrange startX endX) [].

Fixpoint bresenhamT (fuel : nat) (this : SpatialGrid)
         (x1 y1 dx dy sx sy : Z) (x0 y0 err : Z)
         (neighborTiles : list (Z * Z)) : traced (list (Z * Z)) :=
  match fuel with
  | O => liftT OutOfFuel
  | S fuel' =>
      neighborTiles' <~
        (if inBounds this x0 y0
         then _ <~ pushT debug (tileQ (x0, y0)) ;;
              retT (neighborTiles ++ [(x0, y0)])
         else retT neighborTiles) ;;
      if ((x0 =? x1) && (y0 =? y1))%Z then retT neighborTiles'
      else
        let e2 := (2 * err)%Z in
        let '(err', x0') :=
          if (e2 >? - dy)%Z then ((err - dy)%Z, (x0 + sx)%Z) else (err, x0) in
        let '(err'', y0') :=
          if (e2 <? dx)%Z then ((err' + dx)%Z, (y0 + sy)%Z) else (err', y0) in
        bresenhamT fuel' this x1 y1 dx dy sx sy x0' y0' err'' neighborTiles'
  end.

Definition rasterizeT (fuel : nat) (this : SpatialGrid)
           (fromX fromY toX toY : Q) : traced (list (Z * Z)) :=
  let x0 := Qfloor (fromX / tileSize this) in
  let y0 := Qfloor (fromY / tileSize this) in
  let x1 := Qfloor (toX / tileSize this) in
  let y1 := Qfloor (toY / tileSize this) in
  let dx := Z.abs (x1 - x0) in
  let dy := Z.abs (y1 - y0) in
  let sx := if (x0 <? x1)%Z then 1%Z else (-1)%Z in
  let sy := if (y0 <? y1)%Z then 1%Z else (-1)%Z in
  let err := (dx - dy)%Z in
  bresenhamT fuel this x1 y1 dx dy sx sy x0 y0 err [].

Definition expandT (this : SpatialGrid) (tileExpansion : Z)
           (neighborTiles : list (Z * Z)) : traced (list (Z * Z)) :=
  foldT (fun expandedTiles tile =>
    foldT (fun expandedTiles offsetX =>
      foldT (fun expandedTiles offsetY =>
        let neighborX := (fst tile + offsetX)%Z in
        let neighborY := (snd tile + offsetY)%Z in
        if inBounds this neighborX neighborY
        then _ <~ pushT debug (tileQ (neighborX, neighborY)) ;;
             retT (expandedTiles ++ [(neighborX, neighborY)])
        else retT expandedTiles)
        (zrange (- tileExpansion) tileExpansion) expandedTiles)
      (zrange (- tileExpansion) tileExpansion) expandedTiles)
    neighborTiles [].

Definition getObjectsIntersectingLineT (fuel : nat) (this : SpatialGrid)
           (fromX fromY toX toY w : Q) : traced (list Ref) :=
  _ <~ resetT debug ;;
  neighborTiles <~ rasterizeT fuel this fromX fromY toX toY ;;
  let tileExpansion := Qceiling (w / (2 * tileSize this)) in
  expandedTiles <~ expandT this tileExpansion neighborTiles ;;
  candidates <~ liftT (collect this expandedTiles) ;;
  retT (filter (lineTest heap fromX fromY toX toY w) candidates).

End TracedMethods.

(** The trace lists the integer tile [(tx, ty)]. *)
Definition traceHas (tr : Trace) (tx ty : Z) : Prop :=
  exists q, In q tr /\ fst q == inject_Z tx /\ snd q == inject_Z ty.

(** * Properties *)

(** ** Scenarios of the specification, run on the model *)

Example scenario_neighbors :
  (s <- update heap1 (grid100 10 [0%nat]) ;; getNeighbors s 25 25 0)
  = Returns [0%nat].
Proof. vm_compute. reflexivity. Qed.

Example scenario_circle_hit :
  (s <- update heap1 (grid100 10 [0%nat]) ;;
   getObjectsIntersectingCircle heap1 s 25 25 0) = Returns [0%nat].
Proof. vm_compute. reflexivity. Qed.

Example scenario_circle_miss :
  (s <- update heap1 (grid100 10 [0%nat]) ;;
   getObjectsIntersectingCircle heap1 s 50 50 5) = Returns [].
Proof. vm_compute. reflexivity. Qed.

Example scenario_rect_miss :
  (s <- update heap1 (grid100 10 [1%nat]) ;;
   getObjectsIntersectingRect heap1 s 16 16 5 5) = Returns [].
Proof. vm_compute. reflexivity. Qed.

Example scenario_line :
  (s <- update heap1 (grid100 10 [2%nat; 3%nat]) ;;
   getObjectsIntersectingLine heap1 100 s 0 0 90 90 0) = Returns [2%nat].
Proof. vm_compute. reflexivity. Qed.

(** ** Loops and ranges *)

Lemma zrange_In (lo hi z : Z) : In z (zrange lo hi) <-> (lo <= z <= hi)%Z.
Proof.
  unfold zrange. rewrite in_map_iff. split.
  - intros (i & <- & Hi). apply in_seq in Hi. lia.
  - intros H. exists (Z.to_nat (z - lo)). split; [lia|].
    apply in_seq. lia.
Qed.

Lemma qrange_empty (lo hi : Q) : hi < lo -> qrange lo hi = [].
Proof.
  intros H. unfold qrange.
  assert (Hf : (Qfloor (hi - lo) < 0)%Z).
  { rewrite Zlt_Qlt. apply Qle_lt_trans with (hi - lo).
    - apply Qfloor_le.
    - change (inject_Z 0) with 0. lra. }
  replace (Z.to_nat (Qfloor (hi - lo) + 1)) with 0%nat by lia. reflexivity.
Qed.

Lemma qrange_hit (lo hi : Q) (i : nat) :
  lo + inject_Z (Z.of_nat i) <= hi ->
  In (lo + inject_Z (Z.of_nat i)) (qrange lo hi).
Proof.
  intros H. unfold qrange. apply in_map_iff. exists i. split; [reflexivity|].
  assert (Hi : (Z.of_nat i <= Qfloor (hi - lo))%Z).
  { rewrite <- (Qfloor_Z (Z.of_nat i)) at 1. apply Qfloor_resp_le. lra. }
  apply in_seq. lia.
Qed.

Lemma bind_Returns {A B} (m : outcome A) (k : A -> outcome B) (b : B) :
  bind m k = Returns b -> exists a, m = Returns a /\ k a = Returns b.
Proof. destruct m; simpl; intros H; try discriminate. now exists a. Qed.

Lemma foldM_idle {A S} (body : S -> A -> outcome S) (l : list A) :
  (forall s a, In a l -> body s a = Returns s) ->
  forall s, foldM body l s = Returns s.
Proof.
  induction l as [|a l IH]; intros H s; simpl; [reflexivity|].
  rewrite H by now left. simpl. apply IH. intros; apply H; now right.
Qed.

(** *** Sets of references *)

Lemma includes_In (l : list Ref) (o : Ref) : includes l o = true <-> In o l.
Proof.
  unfold includes. rewrite existsb_exists. split.
  - intros (x & Hx & E). apply Nat.eqb_eq in E. now subst.
  - intros H. exists o. split; [assumption|apply Nat.eqb_refl].
Qed.

Lemma set_add_In (s : list Ref) (o p : Ref) :
  In p (set_add s o) <-> In p s \/ p = o.
Proof.
  unfold set_add. destruct (includes s o) eqn:E.
  - apply includes_In in E. split; [tauto|]. intros [H| ->]; assumption.
  - rewrite in_app_iff. simpl. intuition congruence.
Qed.

Lemma set_add_NoDup (s : list Ref) (o : Ref) : NoDup s -> NoDup (set_add s o).
Proof.
  intros H. unfold set_add. destruct (includes s o) eqn:E; [assumption|].
  assert (~ In o s) by (rewrite <- includes_In; congruence).
  apply NoDup_app; [assumption|repeat constructor; simpl; tauto|].
  intros a Ha [<-|[]]. contradiction.
Qed.

Lemma fold_set_add_In (l s : list Ref) (p : Ref) :
  In p (fold_left set_add l s) <-> In p s \/ In p l.
Proof.
  revert s. induction l as [|a l IH]; intros s; simpl; [tauto|].
  rewrite IH, set_add_In. intuition congruence.
Qed.

Lemma fold_set_add_NoDup (l s : list Ref) :
  NoDup s -> NoDup (fold_left set_add l s).
Proof.
  revert s. induction l as [|a l IH]; intros s H; simpl; [assumption|].
  apply IH, set_add_NoDup, H.
Qed.

Lemma fold_set_add_app (l1 l2 s : list Ref) :
  fold_left set_add (l1 ++ l2) s
  = fold_left set_add l2 (fold_left set_add l1 s).
Proof. apply fold_left_app. Qed.

(** A loop whose every round adds one list of references to a set adds
    their concatenation. *)
Lemma foldM_collect {A} (body : list Ref -> A -> outcome (list Ref))
      (sel : A -> list Ref) (l : list A) :
  (forall u a, In a l -> body u a = Returns (fold_left set_add (sel a) u)) ->
  forall u, foldM body l u = Returns (fold_left set_add (flat_map sel l) u).
Proof.
  induction l as [|a l IH]; intros H u; simpl; [reflexivity|].
  rewrite H by now left. simpl. rewrite fold_set_add_app.
  apply IH. intros; apply H; now right.
Qed.

Lemma foldM_append {A} (body : list Ref -> A -> outcome (list Ref))
      (sel : A -> list Ref) (l : list A) :
  (forall u a, In a l -> body u a = Returns (u ++ sel a)) ->
  forall u, foldM body l u = Returns (u ++ flat_map sel l).
Proof.
  induction l as [|a l IH]; intros H u; simpl.
  - now rewrite app_nil_r.
  - rewrite H by now left. simpl. rewrite IH by (intros; apply H; now right).
    now rewrite app_assoc.
Qed.

Lemma fold_push_filter (test : Ref -> bool) (b acc : list Ref) :
  fold_left (fun acc obj => if test obj then acc ++ [obj] else acc) b acc
  = acc ++ filter test b.
Proof.
  revert acc. induction b as [|o b IH]; intros acc; simpl.
  - now rewrite app_nil_r.
  - rewrite IH. destruct (test o); [|reflexivity].
    now rewrite <- app_assoc.
Qed.

(** ** The bucket table *)

Lemma inBounds_iff (this : SpatialGrid) (tx ty : Z) :
  inBounds this tx ty = true
  <-> (0 <= tx < xTiles this)%Z /\ (0 <= ty < yTiles this)%Z.
Proof. unfold inBounds. rewrite !andb_true_iff. lia. Qed.

Lemma tileIndex_range (this : SpatialGrid) (tx ty : Z) :
  inBounds this tx ty = true ->
  (0 <= tileIndex this tx ty < xTiles this * yTiles this)%Z.
Proof. rewrite inBounds_iff. unfold tileIndex. nia. Qed.

Lemma tileIndex_inj (this : SpatialGrid) (tx ty tx' ty' : Z) :
  inBounds this tx ty = true -> inBounds this tx' ty' = true ->
  tileIndex this tx ty = tileIndex this tx' ty' -> tx = tx' /\ ty = ty'.
Proof.
  rewrite !inBounds_iff. unfold tileIndex. intros (Hx & Hy) (Hx' & Hy') E.
  assert (ty = ty').
  { destruct (Z.lt_trichotomy ty ty') as [H|[H|H]];
      [exfalso|assumption|exfalso].
    - assert (0 <= (ty' - ty - 1) * xTiles this)%Z
        by (apply Z.mul_nonneg_nonneg; lia).
      lia.
    - assert (0 <= (ty - ty' - 1) * xTiles this)%Z
        by (apply Z.mul_nonneg_nonneg; lia).
      lia. }
  subst. lia.
Qed.

Lemma grid_at_wf (this : SpatialGrid) (tx ty : Z) :
  grid_wf this -> inBounds this tx ty = true ->
  exists b, grid_at (grid this) (tileIndex this tx ty) = Some b.
Proof.
  intros Hwf Hin. apply tileIndex_range in Hin. unfold grid_at.
  destruct (Z.ltb_spec (tileIndex this tx ty) 0); [lia|].
  destruct (nth_error (grid this) (Z.to_nat (tileIndex this tx ty))) eqn:E.
  - now exists l.
  - apply nth_error_None in E. unfold grid_wf in Hwf. lia.
Qed.

Lemma push_at_spec (g : list (list Ref)) (n : nat) (o : Ref) :
  (n < length g)%nat ->
  exists g', push_at g n o = Returns g' /\ length g' = length g
    /\ forall j p, registered g' j p <-> registered g j p \/ (j = n /\ p = o).
Proof.
  revert n. induction g as [|b g IH]; intros n Hn; simpl in Hn; [lia|].
  destruct n as [|n]; simpl.
  - eexists. split; [reflexivity|]. split; [reflexivity|].
    intros j p. unfold registered. destruct j as [|j]; simpl.
    + split.
      * intros (b' & [= <-] & Hp). apply in_app_iff in Hp. simpl in Hp.
        destruct Hp as [Hp|[<-|[]]]; [left; eauto|right; auto].
      * intros [(b' & [= <-] & Hp)|[_ ->]]; eexists; split; try reflexivity;
          apply in_app_iff; simpl; auto.
    + split; [auto|]. intros [H|[H _]]; [assumption|discriminate].
  - destruct (IH n) as (g' & E & Hl & Hreg); [lia|].
    rewrite E. simpl. eexists. split; [reflexivity|]. split; [simpl; lia|].
    intros j p. unfold registered in *. destruct j as [|j]; simpl.
    + split; [auto|]. intros [H|[H _]]; [assumption|discriminate].
    + rewrite Hreg. split; intros [H|[H1 H2]]; auto; right; split; congruence.
Qed.

(** A loop over the bucket table whose rounds only push: the table keeps
    its length and gains exactly what the rounds push. *)
Lemma foldM_pushes {A}
      (body : list (list Ref) -> A -> outcome (list (list Ref)))
      (N : nat) (E : A -> nat -> Ref -> Prop) (l : list A) :
  (forall g a, In a l -> length g = N ->
     exists g', body g a = Returns g' /\ length g' = N
       /\ forall j p, registered g' j p <-> registered g j p \/ E a j p) ->
  forall g, length g = N ->
    exists g', foldM body l g = Returns g' /\ length g' = N
      /\ forall j p, registered g' j p
                     <-> registered g j p \/ exists a, In a l /\ E a j p.
Proof.
  induction l as [|a l IH]; intros H g Hg; simpl.
  - exists g. split; [reflexivity|]. split; [assumption|].
    intros j p. split; [auto|]. intros [?|(a & [] & _)]; assumption.
  - destruct (H g a) as (g1 & E1 & L1 & R1); [now left|assumption|].
    rewrite E1. simpl.
    destruct (IH (fun g a Ha => H g a (or_intror Ha)) g1 L1)
      as (g2 & E2 & L2 & R2).
    exists g2. split; [assumption|]. split; [assumption|].
    intros j p. rewrite R2, R1. split.
    + intros [[?|?]|(a' & ? & ?)]; eauto 6.
    + intros [?|(a' & [<-|?] & ?)]; eauto 6.
Qed.

Lemma registered_emptyGrid (this : SpatialGrid) (j : nat) (p : Ref) :
  ~ registered (emptyGrid this) j p.
Proof.
  intros (b & Hb & Hp). unfold emptyGrid in Hb.
  apply nth_error_In, repeat_spec in Hb. subst. contradiction.
Qed.

Section Update.

Variable heap : Ref -> SpatialGridObject.
Variable this : SpatialGrid.

Lemma register_spec (g : list (list Ref)) (obj : Ref) :
  length g = Z.to_nat (xTiles this * yTiles this) ->
  exists g', register heap this g obj = Returns g'
    /\ length g' = Z.to_nat (xTiles this * yTiles this)
    /\ forall j p, registered g' j p
         <-> registered g j p
             \/ (p = obj /\ exists tx ty, spans heap this obj tx ty
                   /\ inBounds this tx ty = true
                   /\ Z.to_nat (tileIndex this tx ty) = j).
Proof.
  intros Hg. unfold register.
  destruct (foldM_pushes
    (fun g x => foldM (fun g y =>
        if inBounds this x y then grid_push g (tileIndex this x y) obj
        else Returns g) (zrange (startY heap this obj) (endY heap this obj)) g)
    (Z.to_nat (xTiles this * yTiles this))
    (fun x j p => p = obj /\ exists y,
         (startY heap this obj <= y <= endY heap this obj)%Z
         /\ inBounds this x y = true /\ Z.to_nat (tileIndex this x y) = j)
    (zrange (startX heap this obj) (endX heap this obj)))
    with (g := g) as (g' & E & L & R); [|assumption|].
  - intros g0 x Hx Hg0.
    destruct (foldM_pushes
      (fun g y => if inBounds this x y
                  then grid_push g (tileIndex this x y) obj else Returns g)
      (Z.to_nat (xTiles this * yTiles this))
      (fun y j p => p = obj /\ inBounds this x y = true
                    /\ Z.to_nat (tileIndex this x y) = j)
      (zrange (startY heap this obj) (endY heap this obj)))
      with (g := g0) as (g1 & E1 & L1 & R1); [|assumption|].
    + intros g2 y Hy Hg2. destruct (inBounds this x y) eqn:Hin.
      * pose proof (tileIndex_range _ _ _ Hin) as Hr. unfold grid_push.
        destruct (Z.ltb_spec (tileIndex this x y) 0); [lia|].
        destruct (push_at_spec g2 (Z.to_nat (tileIndex this x y)) obj)
          as (g3 & E3 & L3 & R3); [lia|].
        exists g3. split; [assumption|]. split; [congruence|].
        intros j p. rewrite R3. intuition congruence.
      * exists g2. split; [reflexivity|]. split; [assumption|].
        intros j p. intuition congruence.
    + exists g1. split; [assumption|]. split; [assumption|].
      intros j p. rewrite R1. apply or_iff_compat_l. split.
      * intros (y & Hy & -> & Hin & Hj). apply zrange_In in Hy. eauto.
      * intros (-> & y & Hy & Hin & Hj). exists y.
        rewrite zrange_In. auto.
  - exists g'. split; [assumption|]. split; [assumption|].
    intros j p. rewrite R. apply or_iff_compat_l. unfold spans. split.
    + intros (x & Hx & -> & y & Hy & Hin & Hj). apply zrange_In in Hx.
      split; [reflexivity|]. exists x, y. auto.
    + intros (-> & x & y & (Hx & Hy) & Hin & Hj). exists x.
      rewrite zrange_In. eauto 6.
Qed.

(** [update] always returns; the new table has one slot per tile and an
    object is in a slot exactly when it is live and the slot is an
    in-bounds tile of its tile rectangle. *)
Lemma update_spec :
  exists g, update heap this = Returns (with_grid this g)
    /\ length g = Z.to_nat (xTiles this * yTiles this)
    /\ forall j p, registered g j p
         <-> In p (objects this)
             /\ exists tx ty, spans heap this p tx ty
                  /\ inBounds this tx ty = true
                  /\ Z.to_nat (tileIndex this tx ty) = j.
Proof.
  unfold update.
  destruct (foldM_pushes (register heap this)
    (Z.to_nat (xTiles this * yTiles this))
    (fun obj j p => p = obj /\ exists tx ty, spans heap this obj tx ty
                   /\ inBounds this tx ty = true
                   /\ Z.to_nat (tileIndex this tx ty) = j)
    (objects this)) with (g := emptyGrid this) as (g & E & L & R).
  - intros g0 obj _ Hg0. apply register_spec, Hg0.
  - unfold emptyGrid. apply repeat_length.
  - rewrite E. simpl. exists g. split; [reflexivity|]. split; [assumption|].
    intros j p. rewrite R. split.
    + intros [H|(obj & Hobj & -> & H)]; [now apply registered_emptyGrid in H|].
      auto.
    + intros (Hp & H). right. exists p. auto.
Qed.

End Update.

(** ** Floors of quotients *)

Lemma Qfloor_ge_iff (z : Z) (q : Q) : (z <= Qfloor q)%Z <-> inject_Z z <= q.
Proof.
  split; intros H.
  - apply Qle_trans with (inject_Z (Qfloor q)); [|apply Qfloor_le].
    now rewrite <- Zle_Qle.
  - destruct (Z_le_gt_dec z (Qfloor q)) as [|Hgt]; [assumption|exfalso].
    assert (Hz : (Qfloor q + 1 <= z)%Z) by lia.
    rewrite Zle_Qle in Hz. pose proof (Qlt_floor q). lra.
Qed.

Lemma Qltb_iff (a b : Q) : Qltb a b = true <-> a < b.
Proof.
  unfold Qltb. rewrite negb_true_iff. split; intros H.
  - apply Qnot_le_lt. intros Hle. apply Qle_bool_iff in Hle. congruence.
  - destruct (Qle_bool b a) eqn:E; [|reflexivity].
    apply Qle_bool_iff in E. lra.
Qed.

Section Tiles.

Variable ts : Q.
Hypothesis ts_pos : 0 < ts.

Lemma tile_ge_iff (z : Z) (a : Q) :
  (z <= Qfloor (a / ts))%Z <-> inject_Z z * ts <= a.
Proof.
  rewrite Qfloor_ge_iff. split; intros H.
  - assert (E : a == a / ts * ts) by (field; lra).
    rewrite E. apply Qmult_le_compat_r; lra.
  - apply Qle_shift_div_l; assumption.
Qed.

Lemma tile_lt_iff (z : Z) (a : Q) :
  (Qfloor (a / ts) < z)%Z <-> a < inject_Z z * ts.
Proof.
  split; intros H.
  - apply Qnot_le_lt. intros Hle. apply tile_ge_iff in Hle. lia.
  - destruct (Z_lt_ge_dec (Qfloor (a / ts)) z) as [|Hge]; [assumption|exfalso].
    apply Z.ge_le, tile_ge_iff in Hge. lra.
Qed.

Lemma tile_mono (a b : Q) : a <= b -> (Qfloor (a / ts) <= Qfloor (b / ts))%Z.
Proof.
  intros H. apply tile_ge_iff. apply Qle_trans with a; [|assumption].
  apply tile_ge_iff. lia.
Qed.

Lemma tile_nonneg (a : Q) : 0 <= a -> (0 <= Qfloor (a / ts))%Z.
Proof. intros H. apply tile_ge_iff. change (inject_Z 0) with 0. lra. Qed.

Lemma tile_neg (a : Q) : a < 0 -> (Qfloor (a / ts) < 0)%Z.
Proof. intros H. apply tile_lt_iff. change (inject_Z 0) with 0. lra. Qed.

Lemma ceil_bound (r : Q) : r <= inject_Z (Qceiling (r / ts)) * ts.
Proof.
  pose proof (Qle_ceiling (r / ts)) as H.
  assert (E : r == r / ts * ts) by (field; lra).
  rewrite E at 1. apply Qmult_le_compat_r; lra.
Qed.

Lemma ceil_nonneg (r : Q) : 0 <= r -> (0 <= Qceiling (r / ts))%Z.
Proof.
  intros H. rewrite <- (Qceiling_Z 0). apply Qceiling_resp_le.
  change (inject_Z 0) with 0. apply Qle_shift_div_l; lra.
Qed.

(** A point at most [r] to the right of [b] is at most [ceil (r / ts)]
    tiles to the right of the tile of [b]; and symmetrically. *)
Lemma tile_reach_r (a b r : Q) :
  a <= b + r -> (Qfloor (a / ts) <= Qfloor (b / ts) + Qceiling (r / ts))%Z.
Proof.
  intros H.
  destruct (Z_le_gt_dec (Qfloor (a / ts)) (Qfloor (b / ts) + Qceiling (r / ts)))
    as [|Hgt]; [assumption|exfalso].
  assert (Ha : (Qfloor (b / ts) + Qceiling (r / ts) + 1 <= Qfloor (a / ts))%Z)
    by lia.
  apply tile_ge_iff in Ha. rewrite !inject_Z_plus in Ha.
  assert (Hb : (Qfloor (b / ts) < Qfloor (b / ts) + 1)%Z) by lia.
  apply tile_lt_iff in Hb. rewrite inject_Z_plus in Hb.
  pose proof (ceil_bound r). lra.
Qed.

Lemma tile_reach_l (a b r : Q) :
  b - r <= a -> (Qfloor (b / ts) - Qceiling (r / ts) <= Qfloor (a / ts))%Z.
Proof.
  intros H. apply tile_ge_iff.
  unfold Z.sub. rewrite inject_Z_plus, inject_Z_opp.
  assert (Hb : (Qfloor (b / ts) <= Qfloor (b / ts))%Z) by lia.
  apply tile_ge_iff in Hb. pose proof (ceil_bound r). lra.
Qed.

End Tiles.

(** ** Numbers that are integers *)

Lemma inBoundsQ_Z (this : SpatialGrid) (qx qy : Q) (zx zy : Z) :
  qx == inject_Z zx -> qy == inject_Z zy ->
  inBoundsQ this qx qy = inBounds this zx zy.
Proof.
  intros Ex Ey. unfold inBoundsQ, inBounds, Qltb.
  rewrite (Qleb_comp _ _ (Qeq_refl 0) _ _ Ex).
  rewrite (Qleb_comp _ _ (Qeq_refl 0) _ _ Ey).
  rewrite (Qleb_comp _ _ (Qeq_refl (inject_Z (xTiles this))) _ _ Ex).
  rewrite (Qleb_comp _ _ (Qeq_refl (inject_Z (yTiles this))) _ _ Ey).
  fold (Qltb (inject_Z zx) (inject_Z (xTiles this))).
  fold (Qltb (inject_Z zy) (inject_Z (yTiles this))).
  assert (L : forall a b : Z, Qle_bool (inject_Z a) (inject_Z b) = (a <=? b)%Z).
  { intros a b. destruct (Z.leb_spec a b) as [H|H].
    - apply Qle_bool_iff. now rewrite <- Zle_Qle.
    - destruct (Qle_bool (inject_Z a) (inject_Z b)) eqn:E; [|reflexivity].
      apply Qle_bool_iff in E. rewrite <- Zle_Qle in E. lia. }
  assert (T : forall a b : Z, Qltb (inject_Z a) (inject_Z b) = (a <? b)%Z).
  { intros a b. unfold Qltb. rewrite L, Z.ltb_antisym. reflexivity. }
  change 0 with (inject_Z 0). now rewrite !L, !T.
Qed.

Lemma grid_atQ_Z (g : list (list Ref)) (q : Q) (z : Z) :
  q == inject_Z z -> grid_atQ g q = grid_at g z.
Proof.
  intros E. unfold grid_atQ. rewrite (Qfloor_comp _ _ E), Qfloor_Z.
  replace (Qeq_bool (inject_Z z) q) with true; [reflexivity|].
  symmetry. apply Qeq_bool_iff. now symmetry.
Qed.

Lemma qrange_In_le (lo hi q : Q) :
  In q (qrange lo hi) ->
  exists i : nat, q = lo + inject_Z (Z.of_nat i) /\ q <= hi.
Proof.
  unfold qrange. rewrite in_map_iff. intros (i & <- & Hi). exists i.
  split; [reflexivity|]. apply in_seq in Hi.
  assert (H : (Z.of_nat i <= Qfloor (hi - lo))%Z) by lia.
  apply Qfloor_ge_iff in H. lra.
Qed.

(** The offsets [-k .. k] of an integer [k]. *)
Lemma qrange_int_In (n : Q) (k : Z) (q : Q) :
  n == inject_Z k -> In q (qrange (- n) n) ->
  exists z, (- k <= z <= k)%Z /\ q == inject_Z z.
Proof.
  intros En Hq. apply qrange_In_le in Hq. destruct Hq as (i & -> & Hle).
  exists (- k + Z.of_nat i)%Z. rewrite inject_Z_plus, inject_Z_opp. split.
  - split; [lia|]. rewrite Zle_Qle, inject_Z_plus, inject_Z_opp.
    rewrite En in Hle. assumption.
  - now rewrite En.
Qed.

Lemma qrange_int_hit (n : Q) (k z : Z) :
  n == inject_Z k -> (- k <= z <= k)%Z ->
  exists q, In q (qrange (- n) n) /\ q == inject_Z z.
Proof.
  intros En Hz. exists (- n + inject_Z (Z.of_nat (Z.to_nat (z + k)))).
  rewrite Z2Nat.id by lia. split.
  - rewrite <- (Z2Nat.id (z + k)) by lia. apply qrange_hit.
    rewrite Z2Nat.id by lia. rewrite En, inject_Z_plus.
    assert (inject_Z z <= inject_Z k) by (rewrite <- Zle_Qle; lia). lra.
  - rewrite En, inject_Z_plus. ring.
Qed.

(** ** getNeighbors *)

Section Neighbors.

Variable this : SpatialGrid.
Hypothesis wf : grid_wf this.

Lemma registered_at (tx ty : Z) (o : Ref) :
  registered (grid this) (Z.to_nat (tileIndex this tx ty)) o ->
  inBounds this tx ty = true ->
  exists b, grid_at (grid this) (tileIndex this tx ty) = Some b /\ In o b.
Proof.
  intros (b & Hb & Ho) Hin. exists b. split; [|assumption].
  apply tileIndex_range in Hin. unfold grid_at.
  destruct (Z.ltb_spec (tileIndex this tx ty) 0); [lia|assumption].
Qed.

Lemma at_registered (tx ty : Z) (b : list Ref) (o : Ref) :
  grid_at (grid this) (tileIndex this tx ty) = Some b -> In o b ->
  registered (grid this) (Z.to_nat (tileIndex this tx ty)) o.
Proof.
  unfold grid_at. destruct (Z.ltb_spec (tileIndex this tx ty) 0);
    [discriminate|]. intros Hb Ho. now exists b.
Qed.

(** With an integer [neighborTiles] and one slot per tile, [getNeighbors]
    returns; the result has no duplicates and holds exactly what is
    registered in the in-bounds tiles of the square neighbourhood. *)
Lemma getNeighbors_spec (x y n : Q) (k : Z) :
  n == inject_Z k ->
  exists r, getNeighbors this x y n = Returns r /\ NoDup r
    /\ forall o, In o r <->
         exists tx ty,
           (worldToTile this x - k <= tx <= worldToTile this x + k)%Z
           /\ (worldToTile this y - k <= ty <= worldToTile this y + k)%Z
           /\ inBounds this tx ty = true
           /\ registered (grid this) (Z.to_nat (tileIndex this tx ty)) o.
Proof.
  intros En. unfold getNeighbors, worldToTile.
  set (tX := Qfloor (x / tileSize this)).
  set (tY := Qfloor (y / tileSize this)).
  set (sel := fun offX offY : Q =>
    if inBoundsQ this (inject_Z tX + offX) (inject_Z tY + offY)
    then match grid_atQ (grid this)
                 ((inject_Z tY + offY) * inject_Z (xTiles this)
                  + (inject_Z tX + offX)) with
         | Some b => b
         | None => []
         end
    else []).
  assert (Hint : forall offX offY zx zy,
    offX == inject_Z zx -> offY == inject_Z zy ->
    inBoundsQ this (inject_Z tX + offX) (inject_Z tY + offY)
    = inBounds this (tX + zx) (tY + zy)
    /\ grid_atQ (grid this)
         ((inject_Z tY + offY) * inject_Z (xTiles this) + (inject_Z tX + offX))
       = grid_at (grid this) (tileIndex this (tX + zx) (tY + zy))).
  { intros offX offY zx zy Ex Ey. split.
    - apply inBoundsQ_Z; rewrite inject_Z_plus; [now rewrite Ex|now rewrite Ey].
    - apply grid_atQ_Z. unfold tileIndex.
      rewrite !inject_Z_plus, inject_Z_mult, inject_Z_plus, Ex, Ey.
      reflexivity. }
  erewrite foldM_collect with
    (sel := fun offX => flat_map (sel offX) (qrange (- n) n)).
  2:{ intros u offX HX. apply foldM_collect. intros u' offY HY.
      destruct (qrange_int_In _ _ _ En HX) as (zx & _ & Ex).
      destruct (qrange_int_In _ _ _ En HY) as (zy & _ & Ey).
      destruct (Hint _ _ _ _ Ex Ey) as (Hb & Hg). unfold sel.
      rewrite Hb, Hg. destruct (inBounds this (tX + zx) (tY + zy)) eqn:Hin;
        [|reflexivity].
      destruct (grid_at_wf _ _ _ wf Hin) as (b & ->). reflexivity. }
  eexists. split; [reflexivity|]. split.
  { apply fold_set_add_NoDup. constructor. }
  intros o. rewrite fold_set_add_In, in_flat_map. split.
  - intros [[]|(offX & HX & Ho)]. apply in_flat_map in Ho.
    destruct Ho as (offY & HY & Ho).
    destruct (qrange_int_In _ _ _ En HX) as (zx & Hzx & Ex).
    destruct (qrange_int_In _ _ _ En HY) as (zy & Hzy & Ey).
    destruct (Hint _ _ _ _ Ex Ey) as (Hb & Hg). unfold sel in Ho.
    rewrite Hb, Hg in Ho.
    destruct (inBounds this (tX + zx) (tY + zy)) eqn:Hin; [|contradiction].
    destruct (grid_at (grid this) (tileIndex this (tX + zx) (tY + zy)))
      as [b|] eqn:Eb; [|contradiction].
    exists (tX + zx)%Z, (tY + zy)%Z. repeat split; try lia; try assumption.
    eapply at_registered; eassumption.
  - intros (tx & ty & Hx & Hy & Hin & Hreg). right.
    destruct (qrange_int_hit n k (tx - tX) En) as (offX & HX & Ex); [lia|].
    destruct (qrange_int_hit n k (ty - tY) En) as (offY & HY & Ey); [lia|].
    exists offX. split; [assumption|]. apply in_flat_map.
    exists offY. split; [assumption|].
    destruct (Hint _ _ _ _ Ex Ey) as (Hb & Hg). unfold sel.
    rewrite Hb, Hg.
    replace (tX + (tx - tX))%Z with tx by lia.
    replace (tY + (ty - tY))%Z with ty by lia.
    rewrite Hin. destruct (registered_at _ _ _ Hreg Hin) as (b & -> & Ho).
    assumption.
Qed.

End Neighbors.

(** ** The circle and the rectangle query *)

Section CircleRect.

Variable heap : Ref -> SpatialGridObject.
Variable this : SpatialGrid.
Hypothesis wf : grid_wf this.

Lemma getObjectsIntersectingCircle_spec (x y radius : Q) :
  let k := Qceiling (radius / tileSize this) in
  exists r, getObjectsIntersectingCircle heap this x y radius = Returns r
    /\ NoDup r
    /\ forall o, In o r <->
         (exists tx ty,
            (worldToTile this x - k <= tx <= worldToTile this x + k)%Z
            /\ (worldToTile this y - k <= ty <= worldToTile this y + k)%Z
            /\ inBounds this tx ty = true
            /\ registered (grid this) (Z.to_nat (tileIndex this tx ty)) o)
         /\ circleTest heap x y radius o = true.
Proof.
  intros k. unfold getObjectsIntersectingCircle. fold k.
  destruct (getNeighbors_spec this wf x y (inject_Z k) k (Qeq_refl _))
    as (c & -> & Hnd & Hc).
  simpl. eexists. split; [reflexivity|]. split; [now apply NoDup_filter|].
  intros o. rewrite filter_In, Hc. reflexivity.
Qed.

Lemma getObjectsIntersectingRect_spec (x y w h : Q) :
  exists r, getObjectsIntersectingRect heap this x y w h = Returns r
    /\ forall o, In o r <->
         (exists tx ty,
            (worldToTile this x <= tx <= worldToTile this (x + w))%Z
            /\ (worldToTile this y <= ty <= worldToTile this (y + h))%Z
            /\ inBounds this tx ty = true
            /\ registered (grid this) (Z.to_nat (tileIndex this tx ty)) o)
         /\ rectTest heap x y w h o = true.
Proof.
  unfold getObjectsIntersectingRect, worldToTile.
  set (sel := fun tx ty : Z =>
    if inBounds this tx ty
    then match grid_at (grid this) (tileIndex this tx ty) with
         | Some b => filter (rectTest heap x y w h) b
         | None => []
         end
    else []).
  erewrite foldM_append with
    (sel := fun tx => flat_map (sel tx)
              (zrange (Qfloor (y / tileSize this))
                      (Qfloor ((y + h) / tileSize this)))).
  2:{ intros u tx _. apply foldM_append. intros u' ty _. unfold sel.
      destruct (inBounds this tx ty) eqn:Hin; [|now rewrite app_nil_r].
      destruct (grid_at_wf _ _ _ wf Hin) as (b & ->).
      now rewrite fold_push_filter. }
  eexists. split; [reflexivity|]. intros o. simpl. rewrite in_flat_map. split.
  - intros (tx & Hx & Ho). apply in_flat_map in Ho.
    destruct Ho as (ty & Hy & Ho). apply zrange_In in Hx, Hy.
    unfold sel in Ho. destruct (inBounds this tx ty) eqn:Hin; [|contradiction].
    destruct (grid_at (grid this) (tileIndex this tx ty)) as [b|] eqn:Eb;
      [|contradiction].
    apply filter_In in Ho. destruct Ho as (Ho & Ht). split; [|assumption].
    exists tx, ty. repeat split; try lia; try assumption.
    eapply at_registered; eassumption.
  - intros ((tx & ty & Hx & Hy & Hin & Hreg) & Ht).
    exists tx. rewrite zrange_In. split; [assumption|].
    apply in_flat_map. exists ty. rewrite zrange_In. split; [assumption|].
    unfold sel. rewrite Hin.
    destruct (registered_at _ _ _ _ Hreg Hin) as (b & -> & Ho).
    apply filter_In. auto.
Qed.

End CircleRect.

(** ** The line query *)

Lemma fold_left_append {A B} (body : list B -> A -> list B) (sel : A -> list B)
      (l : list A) :
  (forall u a, In a l -> body u a = u ++ sel a) ->
  forall u, fold_left body l u = u ++ flat_map sel l.
Proof.
  induction l as [|a l IH]; intros H u; simpl.
  - now rewrite app_nil_r.
  - rewrite H by now left. rewrite IH by (intros; apply H; now right).
    now rewrite app_assoc.
Qed.

Lemma expand_In (this : SpatialGrid) (e : Z) (tiles : list (Z * Z))
      (tx ty : Z) :
  In (tx, ty) (expand this e tiles) <->
  exists tile, In tile tiles
    /\ (fst tile - e <= tx <= fst tile + e)%Z
    /\ (snd tile - e <= ty <= snd tile + e)%Z
    /\ inBounds this tx ty = true.
Proof.
  unfold expand.
  set (cell := fun (tile : Z * Z) (ox oy : Z) =>
    if inBounds this (fst tile + ox) (snd tile + oy)
    then [((fst tile + ox)%Z, (snd tile + oy)%Z)] else []).
  rewrite fold_left_append with
    (sel := fun tile =>
       flat_map (fun ox => flat_map (cell tile ox) (zrange (- e) e))
                (zrange (- e) e)).
  2:{ intros u tile _. apply fold_left_append. intros u' ox _.
      apply fold_left_append. intros u'' oy _. unfold cell.
      destruct (inBounds this (fst tile + ox) (snd tile + oy));
        [reflexivity|now rewrite app_nil_r]. }
  simpl. rewrite in_flat_map. split.
  - intros (tile & Ht & H). apply in_flat_map in H.
    destruct H as (ox & Hox & H).
    apply in_flat_map in H. destruct H as (oy & Hoy & H).
    apply zrange_In in Hox, Hoy. unfold cell in H.
    destruct (inBounds this (fst tile + ox) (snd tile + oy)) eqn:Hin;
      [|contradiction].
    destruct H as [[= <- <-]|[]]. exists tile.
    repeat split; try lia; assumption.
  - intros (tile & Ht & Hx & Hy & Hin). exists tile. split; [assumption|].
    apply in_flat_map. exists (tx - fst tile)%Z. rewrite zrange_In.
    split; [lia|]. apply in_flat_map. exists (ty - snd tile)%Z.
    rewrite zrange_In. split; [lia|]. unfold cell.
    replace (fst tile + (tx - fst tile))%Z with tx by lia.
    replace (snd tile + (ty - snd tile))%Z with ty by lia.
    rewrite Hin. now left.
Qed.

(** The rasterization reads the store through its bounds test only. *)
Lemma bresenham_ext (s t : SpatialGrid) :
  (forall tx ty, inBounds s tx ty = inBounds t tx ty) ->
  forall fuel x1 y1 dx dy sx sy x0 y0 err acc,
    bresenham fuel s x1 y1 dx dy sx sy x0 y0 err acc
    = bresenham fuel t x1 y1 dx dy sx sy x0 y0 err acc.
Proof.
  intros H. induction fuel as [|fuel IH]; intros; cbn [bresenham];
    [reflexivity|].
  rewrite H. destruct ((x0 =? x1)%Z && (y0 =? y1)%Z); [reflexivity|].
  destruct (2 * err >? - dy)%Z, (2 * err <? dx)%Z; apply IH.
Qed.

Section Bresenham.

Variable this : SpatialGrid.
Variables xs ys x1 y1 : Z.

Variables dx dy sx sy : Z.
Hypothesis dx_def : dx = Z.abs (x1 - xs).
Hypothesis dy_def : dy = Z.abs (y1 - ys).
Hypothesis sx_def : sx = if (xs <? x1)%Z then 1%Z else (-1)%Z.
Hypothesis sy_def : sy = if (ys <? y1)%Z then 1%Z else (-1)%Z.

(** After [a] steps along x and [b] steps along y the error term is
    [dx - dy - a * dy + b * dx]; the walk never oversteps the target and
    every round steps at least once, so [dx + dy + 1] rounds suffice. *)
Lemma bresenham_returns (fuel : nat) :
  forall (a b x0 y0 err : Z) (acc : list (Z * Z)),
    (0 <= a <= dx)%Z -> (0 <= b <= dy)%Z ->
    x0 = (xs + sx * a)%Z -> y0 = (ys + sy * b)%Z ->
    err = (dx - dy - a * dy + b * dx)%Z ->
    ((dx - a) + (dy - b) < Z.of_nat fuel)%Z ->
    exists r, bresenham fuel this x1 y1 dx dy sx sy x0 y0 err acc = Returns r
      /\ incl acc r
      /\ (inBounds this x0 y0 = true -> In (x0, y0) r).
Proof.
  induction fuel as [|fuel IH]; intros a b x0 y0 err acc Ha Hb Hx Hy Herr Hf;
    [lia|].
  assert (Hx1 : x1 = (xs + sx * dx)%Z).
  { rewrite sx_def, dx_def. destruct (Z.ltb_spec xs x1); lia. }
  assert (Hy1 : y1 = (ys + sy * dy)%Z).
  { rewrite sy_def, dy_def. destruct (Z.ltb_spec ys y1); lia. }
  assert (Hsx : sx = 1%Z \/ sx = (-1)%Z).
  { rewrite sx_def. destruct (xs <? x1)%Z; auto. }
  assert (Hsy : sy = 1%Z \/ sy = (-1)%Z).
  { rewrite sy_def. destruct (ys <? y1)%Z; auto. }
  cbn [bresenham].
  set (acc' := if inBounds this x0 y0 then acc ++ [(x0, y0)] else acc).
  assert (Hacc : incl acc acc').
  { subst acc'. destruct (inBounds this x0 y0);
      [apply incl_appl|]; apply incl_refl. }
  assert (Hin : inBounds this x0 y0 = true -> In (x0, y0) acc').
  { subst acc'. intros ->. apply in_app_iff. right. now left. }
  destruct ((x0 =? x1)%Z && (y0 =? y1)%Z) eqn:Eend.
  - exists acc'. auto.
  - assert (Hnot : a <> dx \/ b <> dy).
    { apply andb_false_iff in Eend.
      destruct Eend as [E|E]; apply Z.eqb_neq in E; [left|right];
        intros ->; apply E; congruence. }
    assert (Pa : (0 <= dx * (dy - b))%Z) by (apply Z.mul_nonneg_nonneg; lia).
    assert (Pb : (0 <= dy * (dx - a))%Z) by (apply Z.mul_nonneg_nonneg; lia).
    destruct (Z.gtb_spec (2 * err) (- dy)) as [Gx|Gx];
      destruct (Z.ltb_spec (2 * err) dx) as [Gy|Gy].
    + assert (a < dx)%Z by nia. assert (b < dy)%Z by nia.
      destruct (IH (a + 1)%Z (b + 1)%Z (x0 + sx)%Z (y0 + sy)%Z
                   (err - dy + dx)%Z acc') as (r & Er & Hr & _);
        try lia.
      exists r. split; [assumption|]. split.
      * eapply incl_tran; eassumption.
      * intros H'. apply Hr, Hin, H'.
    + assert (a < dx)%Z by nia.
      destruct (IH (a + 1)%Z b (x0 + sx)%Z y0 (err - dy)%Z acc')
        as (r & Er & Hr & _); try lia.
      exists r. split; [assumption|]. split.
      * eapply incl_tran; eassumption.
      * intros H'. apply Hr, Hin, H'.
    + assert (b < dy)%Z by nia.
      destruct (IH a (b + 1)%Z x0 (y0 + sy)%Z (err + dx)%Z acc')
        as (r & Er & Hr & _); try lia.
      exists r. split; [assumption|]. split.
      * eapply incl_tran; eassumption.
      * intros H'. apply Hr, Hin, H'.
    + exfalso. nia.
Qed.

End Bresenham.

Lemma rasterize_returns (this : SpatialGrid) (fuel : nat)
      (fromX fromY toX toY : Q) :
  (lineFuel this fromX fromY toX toY <= fuel)%nat ->
  exists tiles, rasterize fuel this fromX fromY toX toY = Returns tiles
    /\ (inBounds this (worldToTile this fromX) (worldToTile this fromY)
        = true ->
        In (worldToTile this fromX, worldToTile this fromY) tiles).
Proof.
  unfold lineFuel, rasterize, worldToTile. intros Hf.
  set (x0 := Qfloor (fromX / tileSize this)) in *.
  set (y0 := Qfloor (fromY / tileSize this)) in *.
  set (x1 := Qfloor (toX / tileSize this)) in *.
  set (y1 := Qfloor (toY / tileSize this)) in *.
  destruct (bresenham_returns this x0 y0 x1 y1 _ _ _ _
              eq_refl eq_refl eq_refl eq_refl fuel 0%Z 0%Z x0 y0
              (Z.abs (x1 - x0) - Z.abs (y1 - y0))%Z [])
    as (r & E & _ & H); try lia.
  exists r. split; assumption.
Qed.

(** More fuel does not change what the rasterization returns. *)
Lemma bresenham_more_fuel (this : SpatialGrid) (fuel : nat) :
  forall x1 y1 dx dy sx sy x0 y0 err acc r,
    bresenham fuel this x1 y1 dx dy sx sy x0 y0 err acc = Returns r ->
    bresenham (S fuel) this x1 y1 dx dy sx sy x0 y0 err acc = Returns r.
Proof.
  induction fuel as [|fuel IH]; intros x1 y1 dx dy sx sy x0 y0 err acc r H;
    [discriminate|].
  cbn [bresenham] in H. cbn [bresenham].
  destruct ((x0 =? x1)%Z && (y0 =? y1)%Z); [assumption|].
  destruct (2 * err >? - dy)%Z, (2 * err <? dx)%Z; apply IH, H.
Qed.

Lemma rasterize_more_fuel (this : SpatialGrid) (fuel fuel' : nat)
      (fromX fromY toX toY : Q) (tiles : list (Z * Z)) :
  (fuel <= fuel')%nat ->
  rasterize fuel this fromX fromY toX toY = Returns tiles ->
  rasterize fuel' this fromX fromY toX toY = Returns tiles.
Proof.
  intros Hle H. induction Hle as [|m _ IH]; [assumption|].
  unfold rasterize in *. apply bresenham_more_fuel, IH.
Qed.

(** ** Invariants of the loops, for any store *)

Lemma foldM_inv {A S} (P : S -> Prop) (body : S -> A -> outcome S)
      (l : list A) :
  (forall s a s', In a l -> P s -> body s a = Returns s' -> P s') ->
  forall s s', P s -> foldM body l s = Returns s' -> P s'.
Proof.
  induction l as [|a l IH]; intros H s s' Hs E; simpl in E.
  - now injection E as <-.
  - apply bind_Returns in E. destruct E as (s1 & E1 & E2).
    eapply IH; [| |exact E2].
    + intros; eapply H; eauto. now right.
    + eapply H; eauto. now left.
Qed.

Lemma grid_at_In (g : list (list Ref)) (i : Z) (b : list Ref) (o : Ref) :
  grid_at g i = Some b -> In o b -> exists j, registered g j o.
Proof.
  unfold grid_at. destruct (i <? 0)%Z; [discriminate|].
  intros Hb Ho. exists (Z.to_nat i), b. auto.
Qed.

Lemma grid_atQ_In (g : list (list Ref)) (i : Q) (b : list Ref) (o : Ref) :
  grid_atQ g i = Some b -> In o b -> exists j, registered g j o.
Proof.
  unfold grid_atQ. destruct (Qeq_bool _ _); [|discriminate]. apply grid_at_In.
Qed.

Lemma candidates_ok_nil (g : list (list Ref)) : candidates_ok g [].
Proof. split; [constructor|]. intros o []. Qed.

Lemma candidates_ok_add (g : list (list Ref)) (b u : list Ref) :
  candidates_ok g u -> (forall o, In o b -> exists j, registered g j o) ->
  candidates_ok g (fold_left set_add b u).
Proof.
  intros (Hnd & Hu) Hb. split; [now apply fold_set_add_NoDup|].
  intros o Ho. apply fold_set_add_In in Ho. destruct Ho; auto.
Qed.

Lemma candidates_ok_filter (g : list (list Ref)) (f : Ref -> bool)
      (u : list Ref) :
  candidates_ok g u -> candidates_ok g (filter f u).
Proof.
  intros (Hnd & Hu). split; [now apply NoDup_filter|].
  intros o Ho. apply filter_In in Ho. apply Hu, Ho.
Qed.

Lemma getNeighbors_ok (this : SpatialGrid) (x y n : Q) (r : list Ref) :
  getNeighbors this x y n = Returns r -> candidates_ok (grid this) r.
Proof.
  unfold getNeighbors.
  apply foldM_inv with (P := candidates_ok (grid this));
    [|apply candidates_ok_nil].
  intros u offX u' _ Hu. apply foldM_inv with (P := candidates_ok (grid this));
    [|assumption].
  clear. intros u offY u' _ Hu.
  destruct (inBoundsQ _ _ _); [|now intros [= <-]].
  destruct (grid_atQ _ _) as [b|] eqn:Eb; [|discriminate].
  intros [= <-]. apply candidates_ok_add; [assumption|].
  intros o. eapply grid_atQ_In, Eb.
Qed.

Lemma circle_ok (heap : Ref -> SpatialGridObject) (this : SpatialGrid)
      (x y radius : Q) (r : list Ref) :
  getObjectsIntersectingCircle heap this x y radius = Returns r ->
  candidates_ok (grid this) r
  /\ forall o, In o r -> circleTest heap x y radius o = true.
Proof.
  unfold getObjectsIntersectingCircle. intros H.
  apply bind_Returns in H. destruct H as (c & Hc & [= <-]).
  apply getNeighbors_ok in Hc. split; [now apply candidates_ok_filter|].
  intros o Ho. apply filter_In in Ho. apply Ho.
Qed.

Lemma collect_ok (this : SpatialGrid) (tiles : list (Z * Z)) (c : list Ref) :
  collect this tiles = Returns c -> candidates_ok (grid this) c.
Proof.
  unfold collect.
  apply foldM_inv with (P := candidates_ok (grid this));
    [|apply candidates_ok_nil].
  intros u tile u' _ Hu. destruct (grid_at _ _) as [b|] eqn:Eb; [|discriminate].
  intros [= <-]. apply candidates_ok_add; [assumption|].
  intros o. eapply grid_at_In, Eb.
Qed.

Lemma line_ok (heap : Ref -> SpatialGridObject) (this : SpatialGrid)
      (fuel : nat) (fromX fromY toX toY w : Q) (r : list Ref) :
  getObjectsIntersectingLine heap fuel this fromX fromY toX toY w = Returns r ->
  candidates_ok (grid this) r
  /\ forall o, In o r -> lineTest heap fromX fromY toX toY w o = true.
Proof.
  unfold getObjectsIntersectingLine. intros H.
  apply bind_Returns in H. destruct H as (tiles & _ & H).
  apply bind_Returns in H. destruct H as (c & Hc & [= <-]).
  apply collect_ok in Hc. split; [now apply candidates_ok_filter|].
  intros o Ho. apply filter_In in Ho. apply Ho.
Qed.

Lemma rect_ok (heap : Ref -> SpatialGridObject) (this : SpatialGrid)
      (x y w h : Q) (r : list Ref) :
  getObjectsIntersectingRect heap this x y w h = Returns r ->
  forall o, In o r ->
    (exists j, registered (grid this) j o) /\ rectTest heap x y w h o = true.
Proof.
  unfold getObjectsIntersectingRect.
  set (P := fun u : list Ref => forall o, In o u ->
         (exists j, registered (grid this) j o)
         /\ rectTest heap x y w h o = true).
  intros H. change (P r). revert H.
  apply foldM_inv with (P := P); [|intros o []].
  intros u tx u' _ Hu. apply foldM_inv with (P := P); [|assumption].
  clear - P. intros u ty u' _ Hu.
  destruct (inBounds _ _ _); [|now intros [= <-]].
  destruct (grid_at _ _) as [b|] eqn:Eb; [|discriminate].
  intros [= <-] o. rewrite fold_push_filter, in_app_iff, filter_In.
  intros [Ho|(Ho & Ht)]; [auto|]. split; [|assumption].
  eapply grid_at_In; eassumption.
Qed.

(** Whatever a query returns was found in the bucket table. *)
Lemma answers_registered (heap : Ref -> SpatialGridObject) (this : SpatialGrid)
      (r : list Ref) (o : Ref) :
  answers heap this r -> In o r -> exists j, registered (grid this) j o.
Proof.
  intros [(x & y & n & H)|[(x & y & rad & H)|[(x & y & w & h & H)
         |(fuel & fx & fy & tx & ty & w & H)]]] Ho.
  - apply getNeighbors_ok in H. apply H, Ho.
  - apply circle_ok in H. apply H, Ho.
  - eapply rect_ok in H; [apply H|exact Ho].
  - apply line_ok in H. apply H, Ho.
Qed.

(** ** The line query on a table with one slot per tile *)

Section Line.

Variable heap : Ref -> SpatialGridObject.
Variable this : SpatialGrid.
Hypothesis wf : grid_wf this.

Lemma collect_spec (tiles : list (Z * Z)) :
  (forall tile, In tile tiles -> inBounds this (fst tile) (snd tile) = true) ->
  exists c, collect this tiles = Returns c /\ NoDup c
    /\ forall o, In o c <->
         exists tile, In tile tiles
           /\ registered (grid this)
                (Z.to_nat (tileIndex this (fst tile) (snd tile))) o.
Proof.
  intros Hin. unfold collect.
  set (sel := fun tile : Z * Z =>
    match grid_at (grid this) (tileIndex this (fst tile) (snd tile)) with
    | Some b => b
    | None => []
    end).
  rewrite foldM_collect with (sel := sel).
  2:{ intros u tile Ht. unfold sel.
      destruct (grid_at_wf _ _ _ wf (Hin _ Ht)) as (b & ->). reflexivity. }
  eexists. split; [reflexivity|]. split.
  { apply fold_set_add_NoDup. constructor. }
  intros o. rewrite fold_set_add_In, in_flat_map. split.
  - intros [[]|(tile & Ht & Ho)]. exists tile. split; [assumption|].
    unfold sel in Ho.
    destruct (grid_at (grid this) (tileIndex this (fst tile) (snd tile)))
      as [b|] eqn:Eb; [|contradiction].
    eapply at_registered; eassumption.
  - intros (tile & Ht & Hreg). right. exists tile. split; [assumption|].
    unfold sel.
    destruct (registered_at _ _ _ _ Hreg (Hin _ Ht)) as (b & -> & Ho).
    assumption.
Qed.

Lemma getObjectsIntersectingLine_spec (fuel : nat) (fromX fromY toX toY w : Q) :
  (lineFuel this fromX fromY toX toY <= fuel)%nat ->
  let e := Qceiling (w / (2 * tileSize this)) in
  exists tiles r,
    rasterize fuel this fromX fromY toX toY = Returns tiles
    /\ getObjectsIntersectingLine heap fuel this fromX fromY toX toY w
       = Returns r
    /\ NoDup r
    /\ forall o, In o r <->
         (exists tile tx ty, In tile tiles
            /\ (fst tile - e <= tx <= fst tile + e)%Z
            /\ (snd tile - e <= ty <= snd tile + e)%Z
            /\ inBounds this tx ty = true
            /\ registered (grid this) (Z.to_nat (tileIndex this tx ty)) o)
         /\ lineTest heap fromX fromY toX toY w o = true.
Proof.
  intros Hf e. unfold getObjectsIntersectingLine. fold e.
  destruct (rasterize_returns this fuel fromX fromY toX toY Hf)
    as (tiles & Er & _).
  rewrite Er. simpl.
  destruct (collect_spec (expand this e tiles)) as (c & Ec & Hnd & Hc).
  { intros [tx ty] Ht. apply expand_In in Ht.
    destruct Ht as (_ & _ & _ & _ & H). exact H. }
  rewrite Ec. simpl. exists tiles. eexists. split; [reflexivity|].
  split; [reflexivity|]. split; [now apply NoDup_filter|].
  intros o. rewrite filter_In, Hc. apply and_iff_compat_r. split.
  - intros ([tx ty] & Ht & Hreg). apply expand_In in Ht.
    destruct Ht as (tile & Ht & Hx & Hy & Hin).
    exists tile, tx, ty. auto.
  - intros (tile & tx & ty & Ht & Hx & Hy & Hin & Hreg).
    exists (tx, ty). split; [|assumption]. apply expand_In.
    exists tile. auto.
Qed.

End Line.

(** ** Queries read the dimensions and the bucket table only *)

Lemma same_answers_table (heap : Ref -> SpatialGridObject) (s t : SpatialGrid) :
  width s = width t -> height s = height t -> tileSize s = tileSize t ->
  grid s = grid t -> same_answers heap s t.
Proof.
  destruct s as [w h ts os g], t as [w' h' ts' os' g']. simpl.
  intros -> -> -> ->. repeat split; try reflexivity.
  intros fuel fx fy tx ty wd. unfold getObjectsIntersectingLine, rasterize.
  rewrite bresenham_ext with (t := mkGrid w' h' ts' os' g'); reflexivity.
Qed.

(** ** The store after update *)

Section Updated.

Variable heap : Ref -> SpatialGridObject.
Variable this : SpatialGrid.

Lemma update_returns :
  exists g, update heap this = Returns (with_grid this g)
    /\ grid_wf (with_grid this g)
    /\ forall tx ty o, inBounds this tx ty = true ->
         (registered g (Z.to_nat (tileIndex this tx ty)) o
          <-> In o (objects this) /\ spans heap this o tx ty).
Proof.
  destruct (update_spec heap this) as (g & E & L & R).
  exists g. split; [assumption|]. split; [exact L|].
  intros tx ty o Hin. rewrite R. apply and_iff_compat_l. split.
  - intros (tx' & ty' & Hsp & Hin' & Hj).
    pose proof (tileIndex_range _ _ _ Hin).
    pose proof (tileIndex_range _ _ _ Hin').
    destruct (tileIndex_inj this tx' ty' tx ty Hin' Hin) as (-> & ->);
      [lia|assumption].
  - intros Hsp. exists tx, ty. auto.
Qed.

Lemma update_live :
  forall s', update heap this = Returns s' ->
    forall j o, registered (grid s') j o ->
      In o (objects this)
      /\ exists tx ty, spans heap this o tx ty /\ inBounds this tx ty = true
                       /\ Z.to_nat (tileIndex this tx ty) = j.
Proof.
  intros s' E j o Hreg. destruct (update_spec heap this) as (g & E' & _ & R).
  rewrite E' in E. injection E as <-. apply R, Hreg.
Qed.

End Updated.

Lemma extent_tiles (heap : Ref -> SpatialGridObject) (this : SpatialGrid)
      (o : Ref) :
  startX heap this o = Qfloor (extentLeft (heap o) / tileSize this)
  /\ endX heap this o = Qfloor (extentRight (heap o) / tileSize this)
  /\ startY heap this o = Qfloor (extentTop (heap o) / tileSize this)
  /\ endY heap this o = Qfloor (extentBottom (heap o) / tileSize this).
Proof. repeat split; reflexivity. Qed.

Lemma or_zero_objRadius (o : SpatialGridObject) :
  or_zero (Obj.radius o) == objRadius o.
Proof.
  unfold or_zero, objRadius, nullish. destruct (Obj.radius o) as [v|];
    [|reflexivity].
  destruct (Qeq_bool v 0) eqn:E; [|reflexivity].
  apply Qeq_bool_iff in E. now symmetry.
Qed.

Lemma circleTest_iff (heap : Ref -> SpatialGridObject) (x y r : Q) (o : Ref) :
  circleTest heap x y r o = true <-> circlePred x y r (heap o).
Proof.
  unfold circleTest, circlePred. rewrite Qle_bool_iff.
  now rewrite (or_zero_objRadius (heap o)).
Qed.

(** ** Tile assignment *)

(** C4.  After [update], the bucket of an in-bounds tile holds exactly the
    live objects whose resolved extent (explicit edge, else centre minus or
    plus the radius, 0 when absent) spans that tile under floor division;
    the table has one bucket per in-bounds tile and nothing is registered
    elsewhere; an object whose extent misses the grid rectangle is in no
    bucket. *)
Theorem update_registers_clipped_extent
        (heap : Ref -> SpatialGridObject) (this : SpatialGrid) :
  0 < tileSize this ->
  exists s', update heap this = Returns s'
    /\ (forall o tx ty, spans heap this o tx ty <->
          (worldToTile this (extentLeft (heap o)) <= tx
           <= worldToTile this (extentRight (heap o)))%Z
          /\ (worldToTile this (extentTop (heap o)) <= ty
              <= worldToTile this (extentBottom (heap o)))%Z)
    /\ length (grid s') = Z.to_nat (xTiles this * yTiles this)
    /\ (forall tx ty, inBounds this tx ty = true ->
          exists b, grid_at (grid s') (tileIndex this tx ty) = Some b
            /\ forall o, In o b <->
                 In o (objects this) /\ spans heap this o tx ty)
    /\ (forall j o, registered (grid s') j o ->
          exists tx ty, inBounds this tx ty = true
                        /\ j = Z.to_nat (tileIndex this tx ty))
    /\ (forall o, outsideGrid this (heap o) ->
          forall j, ~ registered (grid s') j o).
Proof.
  intros Hts. destruct (update_returns heap this) as (g & E & wf & R).
  exists (with_grid this g). split; [assumption|].
  split; [intros o tx ty; split; intros H; exact H|]. split; [exact wf|].
  assert (Hlive := update_live heap this _ E). simpl in Hlive. simpl.
  split; [|split].
  - intros tx ty Hin.
    destruct (grid_at_wf (with_grid this g) tx ty wf Hin) as (b & Eb).
    exists b. split; [exact Eb|]. intros o. rewrite <- (R tx ty o Hin). split.
    + intros Ho. exact (at_registered (with_grid this g) tx ty b o Eb Ho).
    + intros Hreg.
      destruct (registered_at (with_grid this g) tx ty o Hreg Hin)
        as (b' & Eb' & Ho).
      change (grid (with_grid this g)) with g in Eb, Eb'.
      change (tileIndex (with_grid this g) tx ty) with (tileIndex this tx ty)
        in Eb, Eb'.
      congruence.
  - intros j o Hreg. destruct (Hlive j o Hreg) as (_ & tx & ty & _ & Hin & <-).
    eauto.
  - intros o Hout j Hreg.
    destruct (Hlive j o Hreg)
      as (_ & tx & ty & ((Hx1 & Hx2) & (Hy1 & Hy2)) & Hin & _).
    apply inBounds_iff in Hin.
    destruct (extent_tiles heap this o) as (Esx & Eex & Esy & Eey).
    rewrite Esx in Hx1. rewrite Eex in Hx2.
    rewrite Esy in Hy1. rewrite Eey in Hy2.
    destruct Hout as [H|[H|[H|H]]].
    + apply (tile_neg _ Hts) in H. lia.
    + apply (tile_mono _ Hts) in H. unfold xTiles in Hin. lia.
    + apply (tile_neg _ Hts) in H. lia.
    + apply (tile_mono _ Hts) in H. unfold yTiles in Hin. lia.
Qed.

Lemma update_registers_clipped_extent_witness :
  exists s', update heap1 (grid100 10 [1%nat; 5%nat]) = Returns s'
    /\ (exists b, grid_at (grid s') (tileIndex (grid100 10 [1%nat; 5%nat]) 1 0)
                  = Some b /\ In 1%nat b)
    /\ forall j, ~ registered (grid s') j 5%nat.
Proof.
  destruct (update_registers_clipped_extent heap1 (grid100 10 [1%nat; 5%nat]))
    as (s' & E & _ & _ & Hb & _ & Hout); [reflexivity|].
  exists s'. split; [exact E|]. split.
  - destruct (Hb 1%Z 0%Z) as (b & Eb & Hin); [reflexivity|].
    exists b. split; [exact Eb|]. apply Hin. split.
    + simpl. auto.
    + vm_compute. intuition discriminate.
  - apply Hout. left. reflexivity.
Defined.

(** C9.  [update] rebuilds the table from the object list alone: it always
    returns, and running it again on its own result gives that result, so
    every later query sees the same table. *)
Theorem update_idempotent
        (heap : Ref -> SpatialGridObject) (this : SpatialGrid) :
  0 < tileSize this ->
  exists s', update heap this = Returns s' /\ update heap s' = Returns s'
    /\ forall s'', update heap s' = Returns s'' ->
          grid s'' = grid s' /\ same_answers heap s'' s'.
Proof.
  intros _. destruct (update_returns heap this) as (g & E & _).
  assert (E' : update heap (with_grid this g) = Returns (with_grid this g)).
  { change (update heap (with_grid this g))
      with (bind (foldM (register heap this) (objects this) (emptyGrid this))
                 (fun g' => Returns (with_grid (with_grid this g) g'))).
    unfold update in E. destruct (foldM (register heap this) _ _) as [g'| |];
      simpl in *; try discriminate.
    injection E as ->. reflexivity. }
  exists (with_grid this g). split; [assumption|]. split; [assumption|].
  intros s'' H. rewrite E' in H. injection H as <-.
  split; [reflexivity|]. now apply same_answers_table.
Qed.

Lemma update_idempotent_witness :
  exists s', update heap1 (grid100 10 [0%nat; 1%nat]) = Returns s'
             /\ update heap1 s' = Returns s'.
Proof.
  destruct (update_idempotent heap1 (grid100 10 [0%nat; 1%nat]))
    as (s' & E1 & E2 & _); [reflexivity|].
  exists s'. split; assumption.
Defined.

(** ** getNeighbors *)

(** C10.  A negative [neighborTiles] makes both offset loops empty: the
    query returns no object, whatever the store holds. *)
Theorem getNeighbors_negative (this : SpatialGrid) (x y neighborTiles : Q) :
  neighborTiles < 0 -> getNeighbors this x y neighborTiles = Returns [].
Proof.
  intros H. unfold getNeighbors. rewrite qrange_empty by lra. reflexivity.
Qed.

Lemma getNeighbors_negative_witness :
  getNeighbors (grid100 10 [0%nat]) 25 25 (- (1 # 2)) = Returns [].
Proof. apply getNeighbors_negative. reflexivity. Defined.

(** ** Grids without tiles *)

Lemma no_tiles_inBounds (this : SpatialGrid) :
  (xTiles this <= 0)%Z \/ (yTiles this <= 0)%Z ->
  forall tx ty, inBounds this tx ty = false.
Proof.
  intros H tx ty. destruct (inBounds this tx ty) eqn:E; [|reflexivity].
  apply inBounds_iff in E. lia.
Qed.

Lemma no_tiles_inBoundsQ (this : SpatialGrid) :
  (xTiles this <= 0)%Z \/ (yTiles this <= 0)%Z ->
  forall nx ny, inBoundsQ this nx ny = false.
Proof.
  intros H nx ny. destruct (inBoundsQ this nx ny) eqn:E; [|reflexivity].
  unfold inBoundsQ in E. rewrite !andb_true_iff, !Qle_bool_iff, !Qltb_iff in E.
  destruct E as (((Hx1 & Hx2) & Hy1) & Hy2).
  destruct H as [H|H]; rewrite Zle_Qle in H; change (inject_Z 0) with 0 in H;
    lra.
Qed.

Lemma no_members_nil {A} (l : list A) : (forall a, ~ In a l) -> l = [].
Proof.
  destruct l as [|a l]; [reflexivity|]. intros H. destruct (H a). now left.
Qed.

Section NoTiles.

Variable heap : Ref -> SpatialGridObject.
Variable this : SpatialGrid.
Hypothesis none : (xTiles this <= 0)%Z \/ (yTiles this <= 0)%Z.

Lemma no_tiles_getNeighbors (x y n : Q) : getNeighbors this x y n = Returns [].
Proof.
  unfold getNeighbors. apply foldM_idle. intros u offX _.
  apply foldM_idle. intros u' offY _.
  now rewrite no_tiles_inBoundsQ.
Qed.

Lemma no_tiles_circle (x y r : Q) :
  getObjectsIntersectingCircle heap this x y r = Returns [].
Proof.
  unfold getObjectsIntersectingCircle. now rewrite no_tiles_getNeighbors.
Qed.

Lemma no_tiles_rect (x y w h : Q) :
  getObjectsIntersectingRect heap this x y w h = Returns [].
Proof.
  unfold getObjectsIntersectingRect. apply foldM_idle. intros u tx _.
  apply foldM_idle. intros u' ty _. now rewrite no_tiles_inBounds.
Qed.

Lemma no_tiles_line (fuel : nat) (fromX fromY toX toY w : Q) :
  (lineFuel this fromX fromY toX toY <= fuel)%nat ->
  getObjectsIntersectingLine heap fuel this fromX fromY toX toY w = Returns [].
Proof.
  intros Hf. unfold getObjectsIntersectingLine.
  destruct (rasterize_returns this fuel fromX fromY toX toY Hf)
    as (tiles & -> & _).
  simpl. rewrite (no_members_nil (expand this _ tiles)); [reflexivity|].
  intros [tx ty] H. apply expand_In in H.
  destruct H as (_ & _ & _ & _ & H). now rewrite no_tiles_inBounds in H.
Qed.

End NoTiles.

(** C7.  The tile counts are the floors of the quotients; a dimension
    smaller than the tile size has count 0, and then every query returns
    the empty sequence. *)
Theorem tile_counts (heap : Ref -> SpatialGridObject) (this : SpatialGrid) :
  0 < tileSize this -> 0 <= width this -> 0 <= height this ->
  xTiles this = Qfloor (width this / tileSize this)
  /\ yTiles this = Qfloor (height this / tileSize this)
  /\ (inject_Z (xTiles this) * tileSize this <= width this
      /\ width this < (inject_Z (xTiles this) + 1) * tileSize this)
  /\ (inject_Z (yTiles this) * tileSize this <= height this
      /\ height this < (inject_Z (yTiles this) + 1) * tileSize this)
  /\ (width this < tileSize this -> xTiles this = 0%Z)
  /\ (height this < tileSize this -> yTiles this = 0%Z)
  /\ (width this < tileSize this \/ height this < tileSize this ->
      (forall x y n, getNeighbors this x y n = Returns [])
      /\ (forall x y r,
            getObjectsIntersectingCircle heap this x y r = Returns [])
      /\ (forall x y w h,
            getObjectsIntersectingRect heap this x y w h = Returns [])
      /\ (forall fuel fromX fromY toX toY w,
            (lineFuel this fromX fromY toX toY <= fuel)%nat ->
            getObjectsIntersectingLine heap fuel this fromX fromY toX toY w
            = Returns [])).
Proof.
  intros Hts Hw Hh.
  assert (Fx : inject_Z (xTiles this) * tileSize this <= width this
               /\ width this < (inject_Z (xTiles this) + 1) * tileSize this).
  { split.
    - apply (tile_ge_iff _ Hts). unfold xTiles. lia.
    - change 1 with (inject_Z 1). rewrite <- inject_Z_plus.
      apply (tile_lt_iff _ Hts). unfold xTiles. lia. }
  assert (Fy : inject_Z (yTiles this) * tileSize this <= height this
               /\ height this < (inject_Z (yTiles this) + 1) * tileSize this).
  { split.
    - apply (tile_ge_iff _ Hts). unfold yTiles. lia.
    - change 1 with (inject_Z 1). rewrite <- inject_Z_plus.
      apply (tile_lt_iff _ Hts). unfold yTiles. lia. }
  assert (Zx : width this < tileSize this -> xTiles this = 0%Z).
  { intros H. pose proof (tile_nonneg _ Hts _ Hw).
    assert (Qfloor (width this / tileSize this) < 1)%Z
      by (apply (tile_lt_iff _ Hts); change (inject_Z 1) with 1; lra).
    unfold xTiles. lia. }
  assert (Zy : height this < tileSize this -> yTiles this = 0%Z).
  { intros H. pose proof (tile_nonneg _ Hts _ Hh).
    assert (Qfloor (height this / tileSize this) < 1)%Z
      by (apply (tile_lt_iff _ Hts); change (inject_Z 1) with 1; lra).
    unfold yTiles. lia. }
  repeat (split; [first [reflexivity|assumption]|]).
  intros H.
  assert (none : (xTiles this <= 0)%Z \/ (yTiles this <= 0)%Z).
  { destruct H as [H|H]; [left; rewrite Zx|right; rewrite Zy]; auto; lia. }
  split; [|split; [|split]]; intros.
  - now apply no_tiles_getNeighbors.
  - now apply no_tiles_circle.
  - now apply no_tiles_rect.
  - now apply no_tiles_line.
Qed.

Lemma tile_counts_witness :
  xTiles (add (constructor 5 100 10) [0%nat]) = 0%Z
  /\ yTiles (add (constructor 5 100 10) [0%nat]) = 10%Z
  /\ getObjectsIntersectingCircle heap1
       (add (constructor 5 100 10) [0%nat]) 3 25 50 = Returns [].
Proof.
  destruct (tile_counts heap1 (add (constructor 5 100 10) [0%nat]))
    as (_ & Ey & _ & _ & Zx & _ & Hq); [reflexivity|discriminate|discriminate|].
  split; [apply Zx; reflexivity|]. split; [rewrite Ey; reflexivity|].
  apply Hq. left. reflexivity.
Defined.

(** ** Round trip through the containing tile *)

(** C5, as amended.  A live object whose centre lies in an in-bounds tile
    and inside its own resolved extent is returned by
    [getNeighbors(objX, objY, 0)] after [update]. *)
Theorem getNeighbors_roundtrip
        (heap : Ref -> SpatialGridObject) (this : SpatialGrid) (o : Ref) :
  0 < tileSize this ->
  In o (objects this) ->
  inBounds this (worldToTile this (Obj.x (heap o)))
                (worldToTile this (Obj.y (heap o))) = true ->
  extentLeft (heap o) <= Obj.x (heap o) <= extentRight (heap o) ->
  extentTop (heap o) <= Obj.y (heap o) <= extentBottom (heap o) ->
  exists s' r, update heap this = Returns s'
    /\ getNeighbors s' (Obj.x (heap o)) (Obj.y (heap o)) 0 = Returns r
    /\ In o r.
Proof.
  intros Hts Hlive Hin (Hl & Hr) (Ht & Hb).
  destruct (update_returns heap this) as (g & E & wf & R).
  destruct (getNeighbors_spec (with_grid this g) wf
              (Obj.x (heap o)) (Obj.y (heap o)) 0 0 (Qeq_refl _))
    as (r & Er & _ & Hr').
  exists (with_grid this g), r. split; [assumption|]. split; [assumption|].
  apply Hr'.
  exists (worldToTile this (Obj.x (heap o))),
    (worldToTile this (Obj.y (heap o))).
  change (worldToTile (with_grid this g)) with (worldToTile this).
  split; [lia|]. split; [lia|]. split; [exact Hin|].
  apply (R _ _ o Hin). split; [assumption|].
  destruct (extent_tiles heap this o) as (Esx & Eex & Esy & Eey).
  unfold spans, worldToTile. rewrite Esx, Eex, Esy, Eey.
  repeat split; apply (tile_mono _ Hts); assumption.
Qed.

Lemma getNeighbors_roundtrip_witness :
  exists s' r, update heap1 (grid100 10 [0%nat]) = Returns s'
    /\ getNeighbors s' 25 25 0 = Returns r /\ In 0%nat r.
Proof.
  apply (getNeighbors_roundtrip heap1 (grid100 10 [0%nat]) 0%nat).
  - reflexivity.
  - simpl. auto.
  - reflexivity.
  - split; discriminate.
  - split; discriminate.
Defined.

(** C5 as first stated fails: the point object at (-5, -5) is live
    and updated, yet [getNeighbors] at its own centre does not return it. *)
Lemma roundtrip_fails_outside_tiles :
  In 5%nat (objects (grid100 10 [5%nat]))
  /\ ~ exists s' r,
        update heap1 (grid100 10 [5%nat]) = Returns s'
        /\ getNeighbors s' (Obj.x (heap1 5%nat)) (Obj.y (heap1 5%nat)) 0
           = Returns r
        /\ In 5%nat r.
Proof.
  split; [simpl; auto|]. intros (s' & r & E & Q & H).
  vm_compute in E. injection E as <-. vm_compute in Q. injection Q as <-.
  exact H.
Qed.

(** ** The circle query *)

(** Two discs that meet are no further apart, along each axis, than the
    sum of their radii. *)
Lemma circlePred_box (x y r : Q) (o : SpatialGridObject) :
  0 <= objRadius o -> 0 <= r -> circlePred x y r o ->
  Obj.x o - objRadius o <= x + r /\ x - r <= Obj.x o + objRadius o
  /\ Obj.y o - objRadius o <= y + r /\ y - r <= Obj.y o + objRadius o.
Proof.
  unfold circlePred. intros HR Hr H.
  set (a := Obj.x o - x) in *. set (b := Obj.y o - y) in *.
  set (s := objRadius o + r) in *.
  assert (Hs : 0 <= s) by (subst s; lra).
  assert (Ha : a <= s /\ - s <= a) by (split; nra).
  assert (Hb : b <= s /\ - s <= b) by (split; nra).
  subst a b s. repeat split; lra.
Qed.

Section Circle.

Variable heap : Ref -> SpatialGridObject.
Variable this : SpatialGrid.
Hypothesis ts_pos : 0 < tileSize this.

(** The circle query after [update] returns live objects only, each once
    and each passing the distance test; and it returns every live object
    that passes the test, has an extent covering its disc and lies in the
    tiled area. *)
Lemma circle_exact (x y r : Q) :
  exists s' res, update heap this = Returns s'
    /\ getObjectsIntersectingCircle heap s' x y r = Returns res
    /\ NoDup res
    /\ (forall o, In o res ->
          In o (objects this) /\ circlePred x y r (heap o))
    /\ (0 <= r -> forall o, In o (objects this) ->
          circlePred x y r (heap o) ->
          extentCoversDisc (heap o) -> insideTiles this (heap o) ->
          In o res).
Proof.
  destruct (update_returns heap this) as (g & E & wf & R).
  destruct (getObjectsIntersectingCircle_spec heap (with_grid this g) wf x y r)
    as (res & Eres & Hnd & Hres).
  exists (with_grid this g), res. split; [assumption|]. split; [assumption|].
  split; [assumption|].
  assert (Hres' : forall o, In o res <->
            (exists tx ty,
               (worldToTile this x - Qceiling (r / tileSize this) <= tx
                <= worldToTile this x + Qceiling (r / tileSize this))%Z
               /\ (worldToTile this y - Qceiling (r / tileSize this) <= ty
                   <= worldToTile this y + Qceiling (r / tileSize this))%Z
               /\ inBounds this tx ty = true
               /\ registered g (Z.to_nat (tileIndex this tx ty)) o)
            /\ circlePred x y r (heap o)).
  { intros o. rewrite Hres, circleTest_iff. reflexivity. }
  split.
  - intros o Ho. apply Hres' in Ho.
    destruct Ho as ((tx & ty & _ & _ & Hin & Hreg) & Hp). split; [|assumption].
    apply (R tx ty o Hin), Hreg.
  - intros Hr o Hlive Hp (HR & Hl & Hrt & Ht & Hb) (Il & Ir & It & Ib).
    apply Hres'. split; [|assumption].
    destruct (circlePred_box x y r (heap o) HR Hr Hp) as (B1 & B2 & B3 & B4).
    destruct (extent_tiles heap this o) as (Esx & Eex & Esy & Eey).
    pose proof (ceil_nonneg _ ts_pos r Hr) as Hk.
    set (k := Qceiling (r / tileSize this)) in *.
    assert (X1 : (startX heap this o <= endX heap this o)%Z)
      by (rewrite Esx, Eex; apply (tile_mono _ ts_pos); lra).
    assert (X2 : (startX heap this o <= worldToTile this x + k)%Z)
      by (rewrite Esx; apply (tile_reach_r _ ts_pos); lra).
    assert (X3 : (worldToTile this x - k <= endX heap this o)%Z)
      by (rewrite Eex; apply (tile_reach_l _ ts_pos); lra).
    assert (X4 : (0 <= startX heap this o)%Z)
      by (rewrite Esx; apply (tile_nonneg _ ts_pos); lra).
    assert (X5 : (endX heap this o < xTiles this)%Z)
      by (rewrite Eex; apply (tile_lt_iff _ ts_pos); lra).
    assert (Y1 : (startY heap this o <= endY heap this o)%Z)
      by (rewrite Esy, Eey; apply (tile_mono _ ts_pos); lra).
    assert (Y2 : (startY heap this o <= worldToTile this y + k)%Z)
      by (rewrite Esy; apply (tile_reach_r _ ts_pos); lra).
    assert (Y3 : (worldToTile this y - k <= endY heap this o)%Z)
      by (rewrite Eey; apply (tile_reach_l _ ts_pos); lra).
    assert (Y4 : (0 <= startY heap this o)%Z)
      by (rewrite Esy; apply (tile_nonneg _ ts_pos); lra).
    assert (Y5 : (endY heap this o < yTiles this)%Z)
      by (rewrite Eey; apply (tile_lt_iff _ ts_pos); lra).
    set (tx := Z.max (startX heap this o) (worldToTile this x - k)).
    set (ty := Z.max (startY heap this o) (worldToTile this y - k)).
    assert (Hin : inBounds this tx ty = true)
      by (apply inBounds_iff; subst tx ty; lia).
    exists tx, ty. split; [subst tx; lia|]. split; [subst ty; lia|].
    split; [exact Hin|]. apply (R tx ty o Hin). split; [assumption|].
    unfold spans. subst tx ty. lia.
Qed.

End Circle.

(** C3, as amended.  For every store and every pair of positive tile sizes,
    the circle query after [update] returns live objects only, each at most
    once and each satisfying the distance inequality.  For a non-negative
    query radius it returns every live object that satisfies the inequality,
    has an extent covering its disc and lies inside the tiled area; so an
    object that lies inside the tiled area of both tile sizes is in both
    results or in neither. *)
Theorem circle_exact_inside_tiles
        (heap : Ref -> SpatialGridObject) (this : SpatialGrid) (ts' x y r : Q) :
  0 < tileSize this -> 0 < ts' ->
  exists s1 r1 s2 r2,
    update heap this = Returns s1
    /\ getObjectsIntersectingCircle heap s1 x y r = Returns r1
    /\ update heap (with_tileSize this ts') = Returns s2
    /\ getObjectsIntersectingCircle heap s2 x y r = Returns r2
    /\ NoDup r1 /\ NoDup r2
    /\ (forall o, In o r1 -> In o (objects this) /\ circlePred x y r (heap o))
    /\ (forall o, In o r2 -> In o (objects this) /\ circlePred x y r (heap o))
    /\ (0 <= r -> forall o, In o (objects this) ->
          circlePred x y r (heap o) -> extentCoversDisc (heap o) ->
          (insideTiles this (heap o) -> In o r1)
          /\ (insideTiles (with_tileSize this ts') (heap o) -> In o r2))
    /\ (0 <= r -> forall o, In o (objects this) ->
          extentCoversDisc (heap o) -> insideTiles this (heap o) ->
          insideTiles (with_tileSize this ts') (heap o) ->
          (In o r1 <-> In o r2)).
Proof.
  intros Hts Hts'.
  destruct (circle_exact heap this Hts x y r)
    as (s1 & r1 & E1 & Q1 & N1 & S1 & C1).
  destruct (circle_exact heap (with_tileSize this ts') Hts' x y r)
    as (s2 & r2 & E2 & Q2 & N2 & S2 & C2).
  change (objects (with_tileSize this ts')) with (objects this) in S2, C2.
  exists s1, r1, s2, r2.
  split; [exact E1|]. split; [exact Q1|]. split; [exact E2|].
  split; [exact Q2|]. split; [exact N1|]. split; [exact N2|].
  split; [exact S1|]. split; [exact S2|]. split.
  - intros Hr o Ho Hp Hc. split; intros Hi.
    + apply (C1 Hr o Ho Hp Hc Hi).
    + apply (C2 Hr o Ho Hp Hc Hi).
  - intros Hr o Ho Hc Hi1 Hi2. split; intros H.
    + apply (C2 Hr o Ho (proj2 (S1 o H)) Hc Hi2).
    + apply (C1 Hr o Ho (proj2 (S2 o H)) Hc Hi1).
Qed.

Lemma circle_exact_inside_tiles_witness :
  exists s1 r1 s2 r2,
    update heap1 (grid100 10 [0%nat; 2%nat]) = Returns s1
    /\ getObjectsIntersectingCircle heap1 s1 30 30 5 = Returns r1
    /\ update heap1 (with_tileSize (grid100 10 [0%nat; 2%nat]) 30) = Returns s2
    /\ getObjectsIntersectingCircle heap1 s2 30 30 5 = Returns r2
    /\ NoDup r1 /\ NoDup r2
    /\ In 0%nat r1 /\ In 0%nat r2.
Proof.
  destruct (circle_exact_inside_tiles heap1 (grid100 10 [0%nat; 2%nat])
              30 30 30 5)
    as (s1 & r1 & s2 & r2 & E1 & Q1 & E2 & Q2 & N1 & N2 & _ & _ & C & _).
  - reflexivity.
  - reflexivity.
  - assert (Hr : 0 <= 5) by discriminate.
    assert (Ho : In 0%nat (objects (grid100 10 [0%nat; 2%nat])))
      by (left; reflexivity).
    assert (Hp : circlePred 30 30 5 (heap1 0%nat))
      by (vm_compute; discriminate).
    assert (Hc : extentCoversDisc (heap1 0%nat))
      by (vm_compute; intuition discriminate).
    destruct (C Hr 0%nat Ho Hp Hc) as (C1 & C2).
    exists s1, r1, s2, r2.
    split; [exact E1|]. split; [exact Q1|]. split; [exact E2|].
    split; [exact Q2|]. split; [exact N1|]. split; [exact N2|]. split.
    + apply C1. vm_compute. intuition discriminate.
    + apply C2. vm_compute. intuition discriminate.
Defined.

(** C3 as first stated fails: the object at (95, 95) of a 100 x 100
    grid passes the distance test of the circle (95, 95, 0); with tile size
    10 it is returned, with tile size 30 (three tiles a side, covering
    [0, 90)) it is not. *)
Lemma circle_depends_on_tileSize :
  In 4%nat (objects (grid100 10 [4%nat]))
  /\ circlePred 95 95 0 (heap1 4%nat)
  /\ (s <- update heap1 (grid100 10 [4%nat]) ;;
      getObjectsIntersectingCircle heap1 s 95 95 0) = Returns [4%nat]
  /\ (s <- update heap1 (grid100 30 [4%nat]) ;;
      getObjectsIntersectingCircle heap1 s 95 95 0) = Returns []
  /\ ~ In 4%nat [].
Proof.
  split; [simpl; auto|]. split; [vm_compute; discriminate|].
  split; [vm_compute; reflexivity|]. split; [vm_compute; reflexivity|].
  intros [].
Qed.

(** The proviso on the extent is needed as well: a disc around (50, 50)
    whose explicit edges are those of [0, 1] x [0, 1] is registered in tile
    (0, 0) alone, inside the tiled area, and the circle (50, 50, 0), which
    it meets, does not return it. *)
Lemma circle_misses_outside_extent :
  insideTiles (grid100 10 [1%nat]) (heap2 1%nat)
  /\ circlePred 50 50 0 (heap2 1%nat)
  /\ ~ extentCoversDisc (heap2 1%nat)
  /\ (s <- update heap2 (grid100 10 [1%nat]) ;;
      getObjectsIntersectingCircle heap2 s 50 50 0) = Returns [].
Proof.
  split; [vm_compute; intuition discriminate|].
  split; [vm_compute; discriminate|]. split; [|vm_compute; reflexivity].
  intros (_ & _ & H & _). vm_compute in H. now apply H.
Qed.

(** ** The line query: width *)

Lemma Qhalf (w : Q) : w / 2 == w * (1 # 2).
Proof. field. Qed.

Lemma projection_clamped (heap : Ref -> SpatialGridObject)
      (fromX fromY toX toY : Q) (o : Ref) :
  0 <= projection heap fromX fromY toX toY o <= 1.
Proof.
  unfold projection. split.
  - apply Q.le_max_l.
  - apply Q.max_lub; [discriminate|apply Q.le_min_l].
Qed.

Lemma lineTest_iff (heap : Ref -> SpatialGridObject)
      (fromX fromY toX toY w : Q) (o : Ref) :
  lineTest heap fromX fromY toX toY w o = true <->
  ~ (toX - fromX) * (toX - fromX) + (toY - fromY) * (toY - fromY) == 0
  /\ distanceSquaredTo (heap o)
       (segmentPoint fromX fromY toX toY
          (projection heap fromX fromY toX toY o))
     <= (objRadius (heap o) + w / 2) * (objRadius (heap o) + w / 2).
Proof.
  unfold lineTest, distanceSquaredTo, segmentPoint. cbn [fst snd].
  destruct (Qeq_bool _ 0) eqn:E.
  - apply Qeq_bool_iff in E. split; [discriminate|].
    intros (H & _). contradiction.
  - apply Qeq_bool_neq in E. rewrite Qle_bool_iff.
    rewrite (or_zero_objRadius (heap o)). tauto.
Qed.

Lemma lineTest_mono (heap : Ref -> SpatialGridObject)
      (fromX fromY toX toY w1 w2 : Q) (o : Ref) :
  0 <= objRadius (heap o) -> 0 <= w1 -> w1 <= w2 ->
  lineTest heap fromX fromY toX toY w1 o = true ->
  lineTest heap fromX fromY toX toY w2 o = true.
Proof.
  intros HR H1 H12. rewrite !lineTest_iff. intros (Hne & Hd).
  split; [assumption|]. eapply Qle_trans; [exact Hd|].
  assert (Ha : 0 <= objRadius (heap o) + w1 / 2) by (rewrite Qhalf; lra).
  assert (Hb : objRadius (heap o) + w1 / 2 <= objRadius (heap o) + w2 / 2)
    by (rewrite !Qhalf; lra).
  set (a := objRadius (heap o) + w1 / 2) in *.
  set (b := objRadius (heap o) + w2 / 2) in *. nra.
Qed.

(** C6.  After [update], with enough fuel for the rasterization: the line
    query of width 0 returns only objects whose centre is within their
    radius of the point of the segment given by the clamped projection; and
    for widths [0 <= w1 <= w2] and live objects of non-negative radius,
    widths and radii being lengths, what width [w1] returns is returned for
    [w2]. *)
Theorem line_width_monotone
        (heap : Ref -> SpatialGridObject) (this : SpatialGrid) (fuel : nat)
        (fromX fromY toX toY w1 w2 : Q) :
  0 < tileSize this -> 0 <= w1 -> w1 <= w2 ->
  (forall o, In o (objects this) -> 0 <= objRadius (heap o)) ->
  (lineFuel this fromX fromY toX toY <= fuel)%nat ->
  exists s' r0 r1 r2,
    update heap this = Returns s'
    /\ getObjectsIntersectingLine heap fuel s' fromX fromY toX toY 0
       = Returns r0
    /\ getObjectsIntersectingLine heap fuel s' fromX fromY toX toY w1
       = Returns r1
    /\ getObjectsIntersectingLine heap fuel s' fromX fromY toX toY w2
       = Returns r2
    /\ (forall o, In o r0 ->
          let t := projection heap fromX fromY toX toY o in
          0 <= t <= 1
          /\ distanceSquaredTo (heap o) (segmentPoint fromX fromY toX toY t)
             <= objRadius (heap o) * objRadius (heap o))
    /\ incl r1 r2.
Proof.
  intros Hts H1 H12 Hrad Hf.
  destruct (update_returns heap this) as (g & E & wf & R).
  assert (Hf' : (lineFuel (with_grid this g) fromX fromY toX toY <= fuel)%nat)
    by exact Hf.
  destruct (getObjectsIntersectingLine_spec heap _ wf fuel
              fromX fromY toX toY 0 Hf')
    as (t0 & r0 & _ & E0 & _ & H0).
  destruct (getObjectsIntersectingLine_spec heap _ wf fuel
              fromX fromY toX toY w1 Hf')
    as (t1 & r1 & T1 & E1 & _ & Hr1).
  destruct (getObjectsIntersectingLine_spec heap _ wf fuel
              fromX fromY toX toY w2 Hf')
    as (t2 & r2 & T2 & E2 & _ & Hr2).
  exists (with_grid this g), r0, r1, r2.
  split; [exact E|]. split; [exact E0|]. split; [exact E1|]. split; [exact E2|].
  split.
  - intros o Ho t. split; [apply projection_clamped|].
    apply H0 in Ho. destruct Ho as (_ & Ho). apply lineTest_iff in Ho.
    destruct Ho as (_ & Ho). eapply Qle_trans; [exact Ho|].
    rewrite Qhalf. set (Rd := objRadius (heap o)). lra.
  - intros o Ho. apply Hr1 in Ho. apply Hr2.
    destruct Ho as ((tile & tx & ty & Ht & Hx & Hy & Hin & Hreg) & Htest).
    rewrite T1 in T2. injection T2 as <-.
    change (tileSize (with_grid this g)) with (tileSize this) in *.
    assert (He : (Qceiling (w1 / (2 * tileSize this))
                  <= Qceiling (w2 / (2 * tileSize this)))%Z).
    { apply Qceiling_resp_le. apply Qmult_le_compat_r; [assumption|].
      apply Qinv_le_0_compat. lra. }
    split.
    + exists tile, tx, ty. repeat split; try assumption; lia.
    + apply lineTest_mono with (w1 := w1); try assumption.
      apply Hrad. apply (R tx ty o Hin), Hreg.
Qed.

Lemma line_width_monotone_witness :
  exists s' r0 r1 r2,
    update heap1 (grid100 10 [2%nat; 3%nat; 6%nat]) = Returns s'
    /\ getObjectsIntersectingLine heap1 19 s' 0 0 90 90 0 = Returns r0
    /\ getObjectsIntersectingLine heap1 19 s' 0 0 90 90 2 = Returns r1
    /\ getObjectsIntersectingLine heap1 19 s' 0 0 90 90 6 = Returns r2
    /\ incl r1 r2.
Proof.
  destruct (line_width_monotone heap1 (grid100 10 [2%nat; 3%nat; 6%nat]) 19
              0 0 90 90 2 6)
    as (s' & r0 & r1 & r2 & E & E0 & E1 & E2 & _ & H).
  - reflexivity.
  - discriminate.
  - discriminate.
  - intros o [<-|[<-|[<-|[]]]]; discriminate.
  - vm_compute. lia.
  - exists s', r0, r1, r2. auto.
Defined.

(** The bound [0 <= w1] marks the domain of widths: below it the filter
    compares with the square of a negative number.  On the segment
    (0,0)-(90,90), the point object at (45, 48) is returned for width -10
    and not for width 0. *)
Lemma line_width_not_monotone_below_zero :
  - (10) <= 0
  /\ (s <- update heap1 (grid100 10 [6%nat]) ;;
      getObjectsIntersectingLine heap1 19 s 0 0 90 90 (- (10)))
     = Returns [6%nat]
  /\ (s <- update heap1 (grid100 10 [6%nat]) ;;
      getObjectsIntersectingLine heap1 19 s 0 0 90 90 0) = Returns []
  /\ ~ incl [6%nat] [].
Proof.
  split; [discriminate|]. split; [vm_compute; reflexivity|].
  split; [vm_compute; reflexivity|].
  intros H. exact (H 6%nat (or_introl eq_refl)).
Qed.

(** Past [lineFuel] rounds the fuel no longer matters. *)
Lemma line_fuel_irrelevant
      (heap : Ref -> SpatialGridObject) (this : SpatialGrid)
      (fuel : nat) (fromX fromY toX toY w : Q) :
  (lineFuel this fromX fromY toX toY <= fuel)%nat ->
  getObjectsIntersectingLine heap fuel this fromX fromY toX toY w
  = getObjectsIntersectingLine heap (lineFuel this fromX fromY toX toY) this
      fromX fromY toX toY w.
Proof.
  intros Hf. unfold getObjectsIntersectingLine.
  destruct (rasterize_returns this _ fromX fromY toX toY (le_n _))
    as (tiles & E & _).
  rewrite (rasterize_more_fuel _ _ _ _ _ _ _ _ Hf E), E. reflexivity.
Qed.

(** ** Deduplication *)

(** The three queries that collect their candidates in a [Set] never
    return a reference twice, whatever the store holds. *)
Lemma set_queries_NoDup (heap : Ref -> SpatialGridObject) (this : SpatialGrid) :
  (forall x y n r, getNeighbors this x y n = Returns r -> NoDup r)
  /\ (forall x y radius r,
        getObjectsIntersectingCircle heap this x y radius = Returns r ->
        NoDup r)
  /\ (forall fuel fromX fromY toX toY w r,
        getObjectsIntersectingLine heap fuel this fromX fromY toX toY w
        = Returns r -> NoDup r).
Proof.
  split; [|split].
  - intros x y n r H. apply getNeighbors_ok in H. apply H.
  - intros x y radius r H. apply circle_ok in H. apply H.
  - intros fuel fromX fromY toX toY w r H. apply line_ok in H. apply H.
Qed.

(** C1, at the failing input.  The rectangle query pushes straight from
    every visited bucket: the box object of the specification's scenario,
    registered in four tiles, is returned four times by
    [getObjectsIntersectingRect(0, 0, 20, 20)]. *)
Theorem rect_query_repeats_object :
  exists r,
    (s <- update heap1 (grid100 10 [1%nat]) ;;
     getObjectsIntersectingRect heap1 s 0 0 20 20) = Returns r
    /\ r = [1%nat; 1%nat; 1%nat; 1%nat]
    /\ ~ NoDup r.
Proof.
  eexists. split; [vm_compute; reflexivity|]. split; [reflexivity|].
  intros H. inversion H as [|a l Hn _]. apply Hn. now left.
Qed.

(** ** Queries before the first update *)

(** On a store that was never updated, [getNeighbors] at a point of an
    in-bounds tile reads a slot that does not exist. *)
Lemma getNeighbors_fresh_throws (this : SpatialGrid) (x y : Q) :
  grid this = [] ->
  inBounds this (worldToTile this x) (worldToTile this y) = true ->
  getNeighbors this x y 0 = Throws.
Proof.
  intros Hg Hin. unfold getNeighbors.
  assert (E : qrange (- 0) 0 = [0]) by reflexivity.
  rewrite E. cbn [foldM].
  rewrite (inBoundsQ_Z this _ _ (worldToTile this x) (worldToTile this y))
    by (unfold worldToTile; ring).
  rewrite Hin, Hg. unfold grid_atQ, grid_at.
  destruct (Qeq_bool _ _); [|reflexivity].
  destruct (_ <? 0)%Z; [reflexivity|].
  destruct (Z.to_nat _); reflexivity.
Qed.

(** C2, at the failing input.  A fresh store has an empty bucket table
    while its bounds test already admits tiles: each query that visits an
    in-bounds tile iterates [undefined] and throws. *)
Theorem queries_before_update_throw :
  let fresh := add (constructor 100 100 10) [0%nat] in
  grid fresh = []
  /\ getNeighbors fresh 5 5 0 = Throws
  /\ getObjectsIntersectingCircle heap1 fresh 25 25 5 = Throws
  /\ getObjectsIntersectingRect heap1 fresh 0 0 20 20 = Throws
  /\ getObjectsIntersectingLine heap1 19 fresh 0 0 90 90 0 = Throws.
Proof. repeat split; vm_compute; reflexivity. Qed.

(** ** add and remove *)

Lemma visibleAt_registered
      (heap : Ref -> SpatialGridObject) (this : SpatialGrid)
      (o : Ref) (tx ty : Z) :
  grid_wf this -> 0 < tileSize this -> inBounds this tx ty = true ->
  registered (grid this) (Z.to_nat (tileIndex this tx ty)) o ->
  visibleAt heap this o tx ty.
Proof.
  intros wf Hts Hin Hreg. unfold visibleAt. split; [|split; [|split]].
  - intros x y Hx Hy.
    destruct (getNeighbors_spec this wf x y 0 0 (Qeq_refl _))
      as (r & E & _ & H).
    exists r. split; [assumption|]. apply H. exists tx, ty.
    repeat split; try assumption; lia.
  - intros x y radius Hx Hy Hr Ht.
    destruct (getObjectsIntersectingCircle_spec heap this wf x y radius)
      as (r & E & _ & H).
    exists r. split; [assumption|]. apply H. split; [|assumption].
    pose proof (ceil_nonneg _ Hts radius Hr).
    exists tx, ty. repeat split; try assumption; lia.
  - intros x y w h Hx Hy Hw Hh Ht.
    destruct (getObjectsIntersectingRect_spec heap this wf x y w h)
      as (r & E & H).
    exists r. split; [assumption|]. apply H. split; [|assumption].
    assert (worldToTile this x <= worldToTile this (x + w))%Z
      by (apply (tile_mono _ Hts); lra).
    assert (worldToTile this y <= worldToTile this (y + h))%Z
      by (apply (tile_mono _ Hts); lra).
    exists tx, ty. repeat split; try assumption; lia.
  - intros fuel fromX fromY toX toY w Hx Hy Hw Hf Ht.
    destruct (getObjectsIntersectingLine_spec heap this wf fuel
                fromX fromY toX toY w Hf) as (tiles & r & Er & E & _ & H).
    exists r. split; [assumption|]. apply H. split; [|assumption].
    destruct (rasterize_returns this fuel fromX fromY toX toY Hf)
      as (tiles' & Er' & Hstart).
    rewrite Er in Er'. injection Er' as <-.
    rewrite Hx, Hy in Hstart.
    assert (He : (0 <= Qceiling (w / (2 * tileSize this)))%Z)
      by (apply ceil_nonneg; lra).
    exists (tx, ty), tx, ty. cbn [fst snd].
    repeat split; try assumption; try lia. apply Hstart, Hin.
Qed.

(** On a store whose table holds [o] in exactly the in-bounds tiles of its
    tile rectangle, the queries reflect [o]. *)
Lemma reflects_registered
      (heap : Ref -> SpatialGridObject) (this : SpatialGrid) (o : Ref) :
  grid_wf this ->
  (forall tx ty, inBounds this tx ty = true ->
     (registered (grid this) (Z.to_nat (tileIndex this tx ty)) o
      <-> spans heap this o tx ty)) ->
  reflects heap this o.
Proof.
  intros wf R. unfold reflects. split; [|split; [|split]].
  - intros x y k.
    destruct (getNeighbors_spec this wf x y (inject_Z k) k (Qeq_refl _))
      as (r & E & _ & H).
    exists r. split; [exact E|]. rewrite H. split.
    + intros (tx & ty & H1 & H2 & Hin & Hreg). exists tx, ty.
      split; [exact H1|]. split; [exact H2|]. split; [exact Hin|].
      apply (R tx ty Hin), Hreg.
    + intros (tx & ty & H1 & H2 & Hin & Hsp). exists tx, ty.
      split; [exact H1|]. split; [exact H2|]. split; [exact Hin|].
      apply (R tx ty Hin), Hsp.
  - intros x y radius.
    destruct (getObjectsIntersectingCircle_spec heap this wf x y radius)
      as (r & E & _ & H).
    exists r. split; [exact E|]. rewrite H. split.
    + intros ((tx & ty & H1 & H2 & Hin & Hreg) & Ht). split; [|exact Ht].
      exists tx, ty.
      split; [exact H1|]. split; [exact H2|]. split; [exact Hin|].
      apply (R tx ty Hin), Hreg.
    + intros ((tx & ty & H1 & H2 & Hin & Hsp) & Ht). split; [|exact Ht].
      exists tx, ty.
      split; [exact H1|]. split; [exact H2|]. split; [exact Hin|].
      apply (R tx ty Hin), Hsp.
  - intros x y w h.
    destruct (getObjectsIntersectingRect_spec heap this wf x y w h)
      as (r & E & H).
    exists r. split; [exact E|]. rewrite H. split.
    + intros ((tx & ty & H1 & H2 & Hin & Hreg) & Ht). split; [|exact Ht].
      exists tx, ty.
      split; [exact H1|]. split; [exact H2|]. split; [exact Hin|].
      apply (R tx ty Hin), Hreg.
    + intros ((tx & ty & H1 & H2 & Hin & Hsp) & Ht). split; [|exact Ht].
      exists tx, ty.
      split; [exact H1|]. split; [exact H2|]. split; [exact Hin|].
      apply (R tx ty Hin), Hsp.
  - intros fuel fromX fromY toX toY w Hf.
    destruct (getObjectsIntersectingLine_spec heap this wf fuel
                fromX fromY toX toY w Hf) as (tiles & r & Er & E & _ & H).
    exists tiles, r. split; [exact Er|]. split; [exact E|]. rewrite H. split.
    + intros ((tile & tx & ty & Ht & H1 & H2 & Hin & Hreg) & Hl).
      split; [|exact Hl]. exists tile, tx, ty.
      split; [exact Ht|]. split; [exact H1|]. split; [exact H2|].
      split; [exact Hin|]. apply (R tx ty Hin), Hreg.
    + intros ((tile & tx & ty & Ht & H1 & H2 & Hin & Hsp) & Hl).
      split; [|exact Hl]. exists tile, tx, ty.
      split; [exact Ht|]. split; [exact H1|]. split; [exact H2|].
      split; [exact Hin|]. apply (R tx ty Hin), Hsp.
Qed.

(** C8, as amended.  [add] and [remove] leave the bucket table, and with it
    the outcome of every query, unchanged: an object that was in no bucket
    is returned by no query after [add] alone.  After the next [update] each
    query returns an added object exactly when it looks at an in-bounds tile
    of the object's tile rectangle and its exact test passes; so each of the
    four queries anchored in such a tile returns it as soon as its exact
    test passes.  After [remove] and [update] no query returns a removed
    object. *)
Theorem add_remove_frame
        (heap : Ref -> SpatialGridObject) (this : SpatialGrid)
        (objs : list Ref) :
  0 < tileSize this ->
  grid (add this objs) = grid this
  /\ grid (remove this objs) = grid this
  /\ same_answers heap (add this objs) this
  /\ same_answers heap (remove this objs) this
  /\ (forall o, (forall j, ~ registered (grid this) j o) ->
        forall r, answers heap (add this objs) r -> ~ In o r)
  /\ (exists s', update heap (add this objs) = Returns s'
        /\ (forall o, In o objs -> reflects heap s' o)
        /\ forall o tx ty, In o objs ->
             spans heap this o tx ty -> inBounds this tx ty = true ->
             visibleAt heap s' o tx ty)
  /\ (exists s', update heap (remove this objs) = Returns s'
        /\ forall o r, In o objs -> answers heap s' r -> ~ In o r).
Proof.
  intros Hts. split; [reflexivity|]. split; [reflexivity|].
  split; [now apply same_answers_table|].
  split; [now apply same_answers_table|]. split; [|split].
  - intros o Hno r Hr Ho.
    destruct (answers_registered heap _ r o Hr Ho) as (j & Hj).
    exact (Hno j Hj).
  - destruct (update_returns heap (add this objs)) as (g & E & wf & R).
    exists (with_grid (add this objs) g). split; [assumption|].
    assert (Hlive : forall o, In o objs -> In o (objects (add this objs)))
      by (intros o Ho; simpl; apply in_app_iff; now right).
    split.
    + intros o Ho. apply reflects_registered; [exact wf|].
      intros tx ty Hin. cbn [grid with_grid].
      change (tileIndex (with_grid (add this objs) g) tx ty)
        with (tileIndex (add this objs) tx ty).
      rewrite (R tx ty o Hin). split.
      * intros (_ & Hsp). exact Hsp.
      * intros Hsp. split; [apply Hlive, Ho|exact Hsp].
    + intros o tx ty Ho Hsp Hin. apply visibleAt_registered.
      * exact wf.
      * exact Hts.
      * exact Hin.
      * apply (R tx ty o Hin). split; [apply Hlive, Ho|exact Hsp].
  - destruct (update_returns heap (remove this objs)) as (g & E & _).
    exists (with_grid (remove this objs) g). split; [assumption|].
    intros o r Ho Hr Hin.
    destruct (answers_registered heap _ r o Hr Hin) as (j & Hj).
    destruct (update_live heap _ _ E j o Hj) as (Hlive & _).
    simpl in Hlive. apply filter_In in Hlive. destruct Hlive as (_ & Hneg).
    apply negb_true_iff in Hneg.
    assert (includes objs o = true) by (apply includes_In; assumption).
    congruence.
Qed.

Lemma add_remove_frame_witness :
  grid (add (grid100 10 [0%nat]) [1%nat]) = grid (grid100 10 [0%nat])
  /\ (exists s', update heap1 (add (grid100 10 [0%nat]) [1%nat]) = Returns s'
        /\ reflects heap1 s' 1%nat
        /\ visibleAt heap1 s' 1%nat 1 1)
  /\ (exists s', update heap1 (remove (grid100 10 [0%nat; 1%nat]) [1%nat])
                 = Returns s'
        /\ forall r, answers heap1 s' r -> ~ In 1%nat r).
Proof.
  split; [|split].
  - apply (add_remove_frame heap1 (grid100 10 [0%nat]) [1%nat]). reflexivity.
  - destruct (add_remove_frame heap1 (grid100 10 [0%nat]) [1%nat])
      as (_ & _ & _ & _ & _ & (s' & E & Hr & H) & _); [reflexivity|].
    exists s'. split; [exact E|]. split.
    + apply Hr. simpl. auto.
    + apply H.
      * simpl. auto.
      * vm_compute. intuition discriminate.
      * reflexivity.
  - destruct (add_remove_frame heap1 (grid100 10 [0%nat; 1%nat]) [1%nat])
      as (_ & _ & _ & _ & _ & _ & (s' & E & H)); [reflexivity|].
    exists s'. split; [exact E|]. intros r. apply H. simpl. auto.
Defined.

(** C8 as first stated fails after [update]: the point (-5, -5), added to a
    100 x 100 grid of tile size 10, is in no bucket, and no query returns
    it, not even the circle query centred on it; and the point (17, 11),
    which lies on the segment (5, 5)-(25, 15), sits in tile (1, 1), while
    the line query of width 0 looks at tiles (0, 0), (1, 0) and (2, 1)
    only. *)
Lemma added_object_not_reflected :
  (exists s', update heap1 (add (constructor 100 100 10) [5%nat]) = Returns s'
     /\ circleTest heap1 (-5) (-5) 0 5%nat = true
     /\ getObjectsIntersectingCircle heap1 s' (-5) (-5) 0 = Returns []
     /\ forall r, answers heap1 s' r -> ~ In 5%nat r)
  /\ (exists s', update heap2 (add (constructor 100 100 10) [0%nat])
                 = Returns s'
        /\ getNeighbors s' 17 11 0 = Returns [0%nat]
        /\ lineTest heap2 5 5 25 15 0 0%nat = true
        /\ rasterize 4 s' 5 5 25 15 = Returns [(0, 0); (1, 0); (2, 1)]%Z
        /\ getObjectsIntersectingLine heap2 4 s' 5 5 25 15 0 = Returns []).
Proof.
  split.
  - destruct (update_returns heap1 (add (constructor 100 100 10) [5%nat]))
      as (g & E & _).
    exists (with_grid (add (constructor 100 100 10) [5%nat]) g).
    split; [exact E|]. split; [reflexivity|]. split.
    + vm_compute in E. injection E as <-. vm_compute. reflexivity.
    + intros r Hr Hin.
      destruct (answers_registered heap1 _ r 5%nat Hr Hin) as (j & Hj).
      destruct (update_live heap1 _ _ E j 5%nat Hj)
        as (_ & tx & ty & ((_ & Hx) & _) & Hb & _).
      apply inBounds_iff in Hb.
      assert (Ee : endX heap1 (add (constructor 100 100 10) [5%nat]) 5%nat
                   = (-1)%Z) by (vm_compute; reflexivity).
      rewrite Ee in Hx. lia.
  - destruct (update_returns heap2 (add (constructor 100 100 10) [0%nat]))
      as (g & E & _).
    exists (with_grid (add (constructor 100 100 10) [0%nat]) g).
    split; [exact E|].
    vm_compute in E. injection E as <-.
    split; [vm_compute; reflexivity|]. split; [reflexivity|].
    split; vm_compute; reflexivity.
Qed.

(** * Further properties *)

(** ** The live list *)

Lemma remove_In (this : SpatialGrid) (objs : list Ref) (o : Ref) :
  In o (objects (remove this objs)) <-> In o (objects this) /\ ~ In o objs.
Proof.
  unfold remove. cbn [objects]. rewrite filter_In, negb_true_iff.
  rewrite <- (includes_In objs o). destruct (includes objs o).
  - split; [intros (_ & H); discriminate|intros (_ & H); now destruct H].
  - split; intros (H & _); (split; [exact H|]); [discriminate|reflexivity].
Qed.

Lemma filter_all {A} (f : A -> bool) (l : list A) :
  (forall a, In a l -> f a = true) -> filter f l = l.
Proof.
  induction l as [|a l IH]; intros H; simpl; [reflexivity|].
  rewrite H by now left. f_equal. apply IH. intros; apply H; now right.
Qed.

Lemma filter_none {A} (f : A -> bool) (l : list A) :
  (forall a, In a l -> f a = false) -> filter f l = [].
Proof.
  induction l as [|a l IH]; intros H; simpl; [reflexivity|].
  rewrite H by now left. apply IH. intros; apply H; now right.
Qed.

Lemma filter_count_occ (f : Ref -> bool) (l : list Ref) (o : Ref) :
  f o = true ->
  count_occ Nat.eq_dec (filter f l) o = count_occ Nat.eq_dec l o.
Proof.
  intros Ho. induction l as [|a l IH]; [reflexivity|].
  cbn [filter]. destruct (Nat.eq_dec a o) as [->|Hne].
  - rewrite Ho. cbn [count_occ].
    destruct (Nat.eq_dec o o) as [_|N]; [now rewrite IH|now destruct N].
  - destruct (f a); cbn [count_occ];
      (destruct (Nat.eq_dec a o) as [e|_]; [now destruct (Hne e)|exact IH]).
Qed.

(** X1. [remove] keeps exactly the live references that are not named, as
    often as they occur and in their order: it distributes over appending to
    the live list; it touches nothing but the live list.  So it undoes an
    [add] of objects that were not live before, and is a no-op when none of
    the named objects is live. *)
Theorem remove_after_add (this : SpatialGrid) (objs : list Ref) :
  (forall o, In o (objects (remove this objs)) <->
             In o (objects this) /\ ~ In o objs)
  /\ (forall o, ~ In o objs ->
        count_occ Nat.eq_dec (objects (remove this objs)) o
        = count_occ Nat.eq_dec (objects this) o)
  /\ (forall more,
        objects (remove (add this more) objs)
        = objects (remove this objs)
          ++ objects (remove (add (constructor (width this) (height this)
                                               (tileSize this)) more) objs))
  /\ (width (remove this objs) = width this
      /\ height (remove this objs) = height this
      /\ tileSize (remove this objs) = tileSize this
      /\ grid (remove this objs) = grid this)
  /\ ((forall o, In o objs -> ~ In o (objects this)) ->
      remove (add this objs) objs = this /\ remove this objs = this).
Proof.
  split; [intros o; apply remove_In|]. split; [|split; [|split]].
  - intros o Ho. unfold remove. cbn [objects]. apply filter_count_occ.
    apply negb_true_iff. destruct (includes objs o) eqn:Ei; [|reflexivity].
    apply includes_In in Ei. destruct (Ho Ei).
  - intros more. unfold remove, add, constructor. cbn [objects].
    apply filter_app.
  - repeat split.
  - intros Hnew.
    assert (E : filter (fun obj => negb (includes objs obj))
                       (objects this ++ objs)
                = objects this).
    { rewrite filter_app, filter_all, filter_none; [apply app_nil_r| |].
      - intros a Ha. apply negb_false_iff, includes_In, Ha.
      - intros a Ha. apply negb_true_iff.
        destruct (includes objs a) eqn:Ei; [|reflexivity].
        apply includes_In in Ei. destruct (Hnew a Ei Ha). }
    assert (E' : filter (fun obj => negb (includes objs obj)) (objects this)
                 = objects this).
    { apply filter_all. intros a Ha. apply negb_true_iff.
      destruct (includes objs a) eqn:Ei; [|reflexivity].
      apply includes_In in Ei. destruct (Hnew a Ei Ha). }
    split.
    + unfold remove, add. cbn [objects width height tileSize grid].
      rewrite E. now destruct this.
    + unfold remove. rewrite E'. now destruct this.
Qed.

(** ** The buckets as lists *)

Lemma spansb_iff (heap : Ref -> SpatialGridObject) (this : SpatialGrid)
      (o : Ref) (tx ty : Z) :
  spansb heap this o tx ty = true <-> spans heap this o tx ty.
Proof. unfold spansb, spans. rewrite !andb_true_iff. lia. Qed.

Lemma zrange_cons (lo hi : Z) :
  (lo <= hi)%Z -> zrange lo hi = lo :: zrange (lo + 1) hi.
Proof.
  intros H. unfold zrange.
  replace (Z.to_nat (hi - lo + 1)) with (S (Z.to_nat (hi - (lo + 1) + 1)))
    by lia.
  cbn [seq map]. f_equal; [lia|].
  rewrite <- seq_shift, map_map. apply map_ext. intros i. lia.
Qed.

Lemma zrange_nil (lo hi : Z) : (hi < lo)%Z -> zrange lo hi = [].
Proof.
  intros H. unfold zrange.
  replace (Z.to_nat (hi - lo + 1)) with 0%nat by lia. reflexivity.
Qed.

(** A loop over a range whose body acts at one value only. *)
Lemma flat_map_zrange_at {B} (t : Z) (v : list B) (lo hi : Z) :
  flat_map (fun z => if (z =? t)%Z then v else []) (zrange lo hi)
  = if ((lo <=? t) && (t <=? hi))%Z then v else [].
Proof.
  remember (Z.to_nat (hi - lo + 1)) as n eqn:En.
  revert lo En. induction n as [|n IH]; intros lo En.
  - rewrite zrange_nil by lia.
    destruct (Z.leb_spec lo t), (Z.leb_spec t hi); simpl; try reflexivity. lia.
  - rewrite zrange_cons by lia. cbn [flat_map]. rewrite IH by lia.
    destruct (Z.eqb_spec lo t) as [->|Hne].
    + rewrite Z.leb_refl.
      destruct (Z.leb_spec (t + 1) t); [lia|]. simpl.
      destruct (Z.leb_spec t hi); [now rewrite app_nil_r|lia].
    + simpl. destruct (Z.leb_spec (lo + 1) t), (Z.leb_spec lo t),
        (Z.leb_spec t hi); simpl; try reflexivity; lia.
Qed.

Lemma flat_map_nil {A B} (l : list A) : flat_map (fun _ => @nil B) l = [].
Proof. induction l; simpl; auto. Qed.

Lemma flat_map_filter {A} (f : A -> bool) (l : list A) :
  flat_map (fun a => if f a then [a] else []) l = filter f l.
Proof.
  induction l as [|a l IH]; simpl; [reflexivity|].
  rewrite IH. now destruct (f a).
Qed.

Lemma push_at_nth (g : list (list Ref)) (n : nat) (o : Ref) :
  (n < length g)%nat ->
  exists g', push_at g n o = Returns g' /\ length g' = length g
    /\ forall j b, nth_error g j = Some b ->
         nth_error g' j = Some (b ++ if (j =? n)%nat then [o] else []).
Proof.
  revert n. induction g as [|b0 g IH]; intros n Hn; simpl in Hn; [lia|].
  destruct n as [|n]; simpl.
  - eexists. split; [reflexivity|]. split; [reflexivity|].
    intros [|j] b; simpl.
    + now intros [= ->].
    + intros ->. now rewrite app_nil_r.
  - destruct (IH n) as (g' & E & Hl & Hn'); [lia|].
    rewrite E. simpl. eexists. split; [reflexivity|]. split; [simpl; lia|].
    intros [|j] b; simpl.
    + intros [= ->]. now rewrite app_nil_r.
    + apply Hn'.
Qed.

(** A loop over the bucket table whose rounds only push: every slot gains
    the concatenation of what the rounds push to it, in order. *)
Lemma foldM_appends {A}
      (body : list (list Ref) -> A -> outcome (list (list Ref)))
      (N : nat) (E : A -> nat -> list Ref) (l : list A) :
  (forall g a, In a l -> length g = N ->
     exists g', body g a = Returns g' /\ length g' = N
       /\ forall j b, nth_error g j = Some b ->
            nth_error g' j = Some (b ++ E a j)) ->
  forall g, length g = N ->
    exists g', foldM body l g = Returns g' /\ length g' = N
      /\ forall j b, nth_error g j = Some b ->
           nth_error g' j = Some (b ++ flat_map (fun a => E a j) l).
Proof.
  induction l as [|a l IH]; intros H g Hg; simpl.
  - exists g. split; [reflexivity|]. split; [assumption|].
    intros j b Hb. now rewrite app_nil_r.
  - destruct (H g a) as (g1 & E1 & L1 & R1); [now left|assumption|].
    rewrite E1. simpl.
    destruct (IH (fun g a Ha => H g a (or_intror Ha)) g1 L1)
      as (g2 & E2 & L2 & R2).
    exists g2. split; [assumption|]. split; [assumption|].
    intros j b Hb. rewrite (R2 j _ (R1 j b Hb)). now rewrite app_assoc.
Qed.

Section Buckets.

Variable heap : Ref -> SpatialGridObject.
Variable this : SpatialGrid.

(** What registering [obj] pushes to slot [j]. *)
Lemma register_nth (g : list (list Ref)) (obj : Ref) :
  length g = Z.to_nat (xTiles this * yTiles this) ->
  exists g', register heap this g obj = Returns g'
    /\ length g' = Z.to_nat (xTiles this * yTiles this)
    /\ forall j b, nth_error g j = Some b ->
         nth_error g' j = Some (b ++
           flat_map (fun x =>
             flat_map (fun y =>
               if inBounds this x y
                  && (Z.to_nat (tileIndex this x y) =? j)%nat
               then [obj] else [])
               (zrange (startY heap this obj) (endY heap this obj)))
             (zrange (startX heap this obj) (endX heap this obj))).
Proof.
  intros Hg. unfold register.
  apply foldM_appends with
    (E := fun x j =>
       flat_map (fun y =>
         if inBounds this x y && (Z.to_nat (tileIndex this x y) =? j)%nat
         then [obj] else [])
         (zrange (startY heap this obj) (endY heap this obj)));
    [|assumption].
  intros g0 x _ Hg0.
  apply foldM_appends with
    (E := fun y j =>
       if inBounds this x y && (Z.to_nat (tileIndex this x y) =? j)%nat
       then [obj] else []); [|assumption].
  intros g1 y _ Hg1. destruct (inBounds this x y) eqn:Hin.
  - pose proof (tileIndex_range _ _ _ Hin) as Hr. unfold grid_push.
    destruct (Z.ltb_spec (tileIndex this x y) 0); [lia|].
    destruct (push_at_nth g1 (Z.to_nat (tileIndex this x y)) obj)
      as (g2 & E2 & L2 & R2); [lia|].
    exists g2. split; [assumption|]. split; [congruence|].
    intros j b Hb. rewrite (R2 j b Hb). simpl.
    now rewrite Nat.eqb_sym.
  - exists g1. split; [reflexivity|]. split; [assumption|].
    intros j b Hb. simpl. now rewrite app_nil_r.
Qed.

Lemma register_pushes_once (obj : Ref) (tx ty : Z) :
  inBounds this tx ty = true ->
  flat_map (fun x =>
    flat_map (fun y =>
      if inBounds this x y
         && (Z.to_nat (tileIndex this x y)
             =? Z.to_nat (tileIndex this tx ty))%nat
      then [obj] else [])
      (zrange (startY heap this obj) (endY heap this obj)))
    (zrange (startX heap this obj) (endX heap this obj))
  = if spansb heap this obj tx ty then [obj] else [].
Proof.
  intros Hin.
  assert (Hc : forall x y,
    inBounds this x y
    && (Z.to_nat (tileIndex this x y) =? Z.to_nat (tileIndex this tx ty))%nat
    = ((x =? tx) && (y =? ty))%Z).
  { intros x y. destruct (inBounds this x y) eqn:Hxy; simpl.
    - pose proof (tileIndex_range _ _ _ Hin).
      pose proof (tileIndex_range _ _ _ Hxy).
      destruct (Nat.eqb_spec (Z.to_nat (tileIndex this x y))
                             (Z.to_nat (tileIndex this tx ty))) as [E|E].
      + destruct (tileIndex_inj this x y tx ty Hxy Hin) as (-> & ->); [lia|].
        now rewrite !Z.eqb_refl.
      + destruct (Z.eqb_spec x tx) as [->|]; [|reflexivity].
        destruct (Z.eqb_spec y ty) as [->|]; [|reflexivity]. now destruct E.
    - destruct (Z.eqb_spec x tx) as [->|]; [|reflexivity].
      destruct (Z.eqb_spec y ty) as [->|]; [|reflexivity]. congruence. }
  rewrite (flat_map_ext _
    (fun x => if (x =? tx)%Z
              then if ((startY heap this obj <=? ty)
                       && (ty <=? endY heap this obj))%Z
                   then [obj] else []
              else [])).
  - rewrite flat_map_zrange_at. unfold spansb.
    destruct ((startX heap this obj <=? tx)%Z && (tx <=? endX heap this obj)%Z);
      simpl; [|reflexivity].
    now destruct (startY heap this obj <=? ty)%Z.
  - intros x. destruct (Z.eqb_spec x tx) as [->|Hne].
    + rewrite <- flat_map_zrange_at. apply flat_map_ext. intros y.
      now rewrite Hc, Z.eqb_refl.
    + rewrite <- (flat_map_nil (zrange (startY heap this obj)
                                       (endY heap this obj))) at 1.
      apply flat_map_ext. intros y. rewrite Hc.
      destruct (Z.eqb_spec x tx); [contradiction|reflexivity].
Qed.

(** After [update], the bucket of an in-bounds tile is the live list
    filtered by "spans this tile": same order, same multiplicities. *)
Lemma update_bucket (tx ty : Z) :
  inBounds this tx ty = true ->
  exists s', update heap this = Returns s'
    /\ grid_at (grid s') (tileIndex this tx ty)
       = Some (filter (fun o => spansb heap this o tx ty) (objects this)).
Proof.
  intros Hin. unfold update.
  destruct (foldM_appends (register heap this)
              (Z.to_nat (xTiles this * yTiles this))
              (fun obj j =>
                 flat_map (fun x =>
                   flat_map (fun y =>
                     if inBounds this x y
                        && (Z.to_nat (tileIndex this x y) =? j)%nat
                     then [obj] else [])
                     (zrange (startY heap this obj) (endY heap this obj)))
                   (zrange (startX heap this obj) (endX heap this obj)))
              (objects this)) with (g := emptyGrid this)
    as (g & E & L & R).
  - intros g0 obj _ Hg0. apply register_nth, Hg0.
  - apply repeat_length.
  - rewrite E. simpl. eexists. split; [reflexivity|]. cbn [grid with_grid].
    pose proof (tileIndex_range _ _ _ Hin) as Hr. unfold grid_at.
    destruct (Z.ltb_spec (tileIndex this tx ty) 0); [lia|].
    rewrite (R _ []).
    + simpl. f_equal. rewrite <- flat_map_filter. apply flat_map_ext.
      intros obj. apply register_pushes_once, Hin.
    + unfold emptyGrid. apply nth_error_repeat. lia.
Qed.

End Buckets.

(** ** getNeighbors on the containing tile *)

Lemma fold_set_add_fresh (l s : list Ref) :
  NoDup (s ++ l) -> fold_left set_add l s = s ++ l.
Proof.
  revert s. induction l as [|a l IH]; intros s H; simpl.
  - now rewrite app_nil_r.
  - assert (Ha : includes s a = false).
    { destruct (includes s a) eqn:E; [|reflexivity].
      apply includes_In in E. apply NoDup_remove_2 in H.
      destruct H. apply in_app_iff. now left. }
    unfold set_add at 2. rewrite Ha.
    rewrite IH; rewrite <- app_assoc; [reflexivity|exact H].
Qed.

Lemma getNeighbors_zero (this : SpatialGrid) (x y : Q) :
  getNeighbors this x y 0
  = if inBounds this (worldToTile this x) (worldToTile this y)
    then match grid_at (grid this)
                 (tileIndex this (worldToTile this x) (worldToTile this y)) with
         | Some bucket => Returns (fold_left set_add bucket [])
         | None => Throws
         end
    else Returns [].
Proof.
  unfold getNeighbors.
  assert (E : qrange (- 0) 0 = [0]) by reflexivity.
  rewrite E. cbn [foldM].
  rewrite (inBoundsQ_Z this _ _ (worldToTile this x) (worldToTile this y))
    by (unfold worldToTile; ring).
  destruct (inBounds this _ _); [|reflexivity].
  rewrite (grid_atQ_Z _ _
             (tileIndex this (worldToTile this x) (worldToTile this y))).
  - now destruct (grid_at _ _).
  - unfold tileIndex, worldToTile.
    rewrite inject_Z_plus, inject_Z_mult. ring.
Qed.

(** X3. With no reference twice in the live list, [getNeighbors(x, y, 0)]
    after [update] is the live list filtered by "spans the tile of (x, y)", in
    insertion order; outside the grid it is empty. *)
Theorem getNeighbors_zero_is_bucket
        (heap : Ref -> SpatialGridObject) (this : SpatialGrid) (x y : Q) :
  0 < tileSize this -> NoDup (objects this) ->
  exists s', update heap this = Returns s'
    /\ getNeighbors s' x y 0
       = Returns
           (if inBounds this (worldToTile this x) (worldToTile this y)
            then filter (fun o => spansb heap this o (worldToTile this x)
                                         (worldToTile this y))
                        (objects this)
            else []).
Proof.
  intros _ Hnd. destruct (update_returns heap this) as (g & E & _).
  exists (with_grid this g). split; [exact E|].
  rewrite getNeighbors_zero.
  change (worldToTile (with_grid this g)) with (worldToTile this).
  change (inBounds (with_grid this g)) with (inBounds this).
  change (tileIndex (with_grid this g)) with (tileIndex this).
  destruct (inBounds this (worldToTile this x) (worldToTile this y)) eqn:Hin;
    [|reflexivity].
  destruct (update_bucket heap this _ _ Hin) as (s' & E' & Hb).
  rewrite E in E'. injection E' as <-. rewrite Hb.
  rewrite fold_set_add_fresh; [reflexivity|].
  simpl. now apply NoDup_filter.
Qed.

Lemma getNeighbors_zero_is_bucket_witness :
  exists s', update heap1 (grid100 10 [2%nat; 1%nat; 0%nat]) = Returns s'
    /\ getNeighbors s' 12 12 0 = Returns [1%nat]
    /\ getNeighbors s' 130 12 0 = Returns [].
Proof.
  destruct (getNeighbors_zero_is_bucket heap1
              (grid100 10 [2%nat; 1%nat; 0%nat]) 12 12)
    as (s' & E & H1).
  { reflexivity. }
  { repeat constructor; simpl; intuition discriminate. }
  exists s'. split; [exact E|]. split; [exact H1|].
  destruct (getNeighbors_zero_is_bucket heap1
              (grid100 10 [2%nat; 1%nat; 0%nat]) 130 12)
    as (s'' & E' & H2).
  { reflexivity. }
  { repeat constructor; simpl; intuition discriminate. }
  rewrite E in E'. injection E' as <-. exact H2.
Defined.

(** ** Queries on an updated store *)

(** X4. After [update] no query throws, and every reference a query returns is
    in the live list; so a store without objects answers every query with the
    empty sequence. *)
Theorem queries_after_update_return
        (heap : Ref -> SpatialGridObject) (this : SpatialGrid) :
  0 < tileSize this ->
  exists s', update heap this = Returns s'
    /\ (forall x y (k : Z),
          exists r, getNeighbors s' x y (inject_Z k) = Returns r
                    /\ incl r (objects this))
    /\ (forall x y radius,
          exists r, getObjectsIntersectingCircle heap s' x y radius = Returns r
                    /\ incl r (objects this))
    /\ (forall x y w h,
          exists r, getObjectsIntersectingRect heap s' x y w h = Returns r
                    /\ incl r (objects this))
    /\ (forall fuel fromX fromY toX toY w,
          (lineFuel this fromX fromY toX toY <= fuel)%nat ->
          exists r,
            getObjectsIntersectingLine heap fuel s' fromX fromY toX toY w
            = Returns r /\ incl r (objects this)).
Proof.
  intros _. destruct (update_returns heap this) as (g & E & wf & R).
  exists (with_grid this g). split; [exact E|].
  assert (Hlive : forall r o, answers heap (with_grid this g) r -> In o r ->
                              In o (objects this)).
  { intros r o Hr Ho.
    destruct (answers_registered heap _ r o Hr Ho) as (j & Hj).
    apply (update_live heap this _ E j o Hj). }
  split; [|split; [|split]].
  - intros x y k.
    destruct (getNeighbors_spec _ wf x y (inject_Z k) k (Qeq_refl _))
      as (r & Er & _). exists r. split; [exact Er|].
    intros o. apply Hlive. left. eauto.
  - intros x y radius.
    destruct (getObjectsIntersectingCircle_spec heap _ wf x y radius)
      as (r & Er & _). exists r. split; [exact Er|].
    intros o. apply Hlive. right. left. eauto.
  - intros x y w h.
    destruct (getObjectsIntersectingRect_spec heap _ wf x y w h)
      as (r & Er & _). exists r. split; [exact Er|].
    intros o. apply Hlive. right. right. left. eauto.
  - intros fuel fromX fromY toX toY w Hf.
    destruct (getObjectsIntersectingLine_spec heap _ wf fuel
                fromX fromY toX toY w Hf) as (t & r & _ & Er & _).
    exists r. split; [exact Er|].
    intros o. apply Hlive. right. right. right. eauto 10.
Qed.

Lemma queries_after_update_return_witness :
  exists s', update heap1 (grid100 10 [2%nat; 3%nat]) = Returns s'
    /\ exists r, getObjectsIntersectingLine heap1 19 s' 0 0 90 90 4 = Returns r
                 /\ incl r [2%nat; 3%nat].
Proof.
  destruct (queries_after_update_return heap1 (grid100 10 [2%nat; 3%nat]))
    as (s' & E & _ & _ & _ & H); [reflexivity|].
  exists s'. split; [exact E|]. apply H. vm_compute. lia.
Defined.

(** ** The rectangle query *)

Lemma rectTest_iff (heap : Ref -> SpatialGridObject) (x y w h : Q) (o : Ref) :
  rectTest heap x y w h o = true <-> rectPred x y w h (heap o).
Proof.
  unfold rectTest, rectPred, rectLeft, rectRight, rectTop, rectBottom.
  rewrite !andb_true_iff, !Qle_bool_iff. tauto.
Qed.

(** X5. For a rectangle of non-negative width and height, on a store whose
    live objects lie in the tiled area with a registered extent that contains
    the box the query tests, the rectangle query after [update] returns
    exactly the live objects whose box overlaps the rectangle, bounds
    included. *)
Theorem rect_exact_inside_tiles
        (heap : Ref -> SpatialGridObject) (this : SpatialGrid) (x y w h : Q) :
  0 < tileSize this -> 0 <= w -> 0 <= h ->
  (forall o, In o (objects this) ->
     extentCoversBox (heap o) /\ insideTiles this (heap o)) ->
  exists s' res, update heap this = Returns s'
    /\ getObjectsIntersectingRect heap s' x y w h = Returns res
    /\ forall o, In o res <-> In o (objects this) /\ rectPred x y w h (heap o).
Proof.
  intros Hts Hw Hh Hall.
  destruct (update_returns heap this) as (g & E & wf & R).
  destruct (getObjectsIntersectingRect_spec heap (with_grid this g) wf x y w h)
    as (res & Eres & Hres).
  exists (with_grid this g), res. split; [assumption|]. split; [assumption|].
  intros o. rewrite Hres, rectTest_iff.
  change (worldToTile (with_grid this g)) with (worldToTile this).
  split.
  - intros ((tx & ty & _ & _ & Hin & Hreg) & Hp). split; [|assumption].
    apply (R tx ty o Hin), Hreg.
  - intros (Hlive & Hp). split; [|assumption].
    destruct (Hall o Hlive)
      as ((C1 & C2 & C3 & C4 & C5 & C6) & (Il & Ir & It & Ib)).
    destruct Hp as (P1 & P2 & P3 & P4).
    destruct (extent_tiles heap this o) as (Esx & Eex & Esy & Eey).
    unfold worldToTile.
    assert (X1 : (startX heap this o <= endX heap this o)%Z)
      by (rewrite Esx, Eex; apply (tile_mono _ Hts); lra).
    assert (X2 : (startX heap this o <= Qfloor ((x + w) / tileSize this))%Z)
      by (rewrite Esx; apply (tile_mono _ Hts); lra).
    assert (X3 : (Qfloor (x / tileSize this) <= endX heap this o)%Z)
      by (rewrite Eex; apply (tile_mono _ Hts); lra).
    assert (X4 : (Qfloor (x / tileSize this)
                  <= Qfloor ((x + w) / tileSize this))%Z)
      by (apply (tile_mono _ Hts); lra).
    assert (X5 : (0 <= startX heap this o)%Z)
      by (rewrite Esx; apply (tile_nonneg _ Hts); lra).
    assert (X6 : (endX heap this o < xTiles this)%Z)
      by (rewrite Eex; apply (tile_lt_iff _ Hts); lra).
    assert (Y1 : (startY heap this o <= endY heap this o)%Z)
      by (rewrite Esy, Eey; apply (tile_mono _ Hts); lra).
    assert (Y2 : (startY heap this o <= Qfloor ((y + h) / tileSize this))%Z)
      by (rewrite Esy; apply (tile_mono _ Hts); lra).
    assert (Y3 : (Qfloor (y / tileSize this) <= endY heap this o)%Z)
      by (rewrite Eey; apply (tile_mono _ Hts); lra).
    assert (Y4 : (Qfloor (y / tileSize this)
                  <= Qfloor ((y + h) / tileSize this))%Z)
      by (apply (tile_mono _ Hts); lra).
    assert (Y5 : (0 <= startY heap this o)%Z)
      by (rewrite Esy; apply (tile_nonneg _ Hts); lra).
    assert (Y6 : (endY heap this o < yTiles this)%Z)
      by (rewrite Eey; apply (tile_lt_iff _ Hts); lra).
    set (tx := Z.max (startX heap this o) (Qfloor (x / tileSize this))).
    set (ty := Z.max (startY heap this o) (Qfloor (y / tileSize this))).
    assert (Hin : inBounds this tx ty = true)
      by (apply inBounds_iff; subst tx ty; lia).
    exists tx, ty. split; [subst tx; lia|]. split; [subst ty; lia|].
    split; [exact Hin|]. apply (R tx ty o Hin). split; [assumption|].
    unfold spans. subst tx ty. lia.
Qed.

Lemma rect_exact_inside_tiles_witness :
  exists s' res, update heap1 (grid100 10 [0%nat; 1%nat; 2%nat]) = Returns s'
    /\ getObjectsIntersectingRect heap1 s' 15 15 10 10 = Returns res
    /\ (In 1%nat res /\ In 0%nat res /\ ~ In 2%nat res).
Proof.
  destruct (rect_exact_inside_tiles heap1 (grid100 10 [0%nat; 1%nat; 2%nat])
              15 15 10 10) as (s' & res & E & Q & H).
  - reflexivity.
  - discriminate.
  - discriminate.
  - intros o [<-|[<-|[<-|[]]]]; vm_compute; intuition discriminate.
  - exists s', res. split; [exact E|]. split; [exact Q|].
    split; [|split].
    + apply H. split; [simpl; auto|]. vm_compute. intuition discriminate.
    + apply H. split; [simpl; auto|]. vm_compute. intuition discriminate.
    + intros Hin. apply H in Hin. destruct Hin as (_ & _ & Hp & _).
      vm_compute in Hp. now apply Hp.
Defined.

(** X6. A rectangle whose end tile lies before its start tile, as a negative
    width or height produces, visits no tile: the query returns the empty
    sequence on every store. *)
Theorem rect_inverted_empty
        (heap : Ref -> SpatialGridObject) (this : SpatialGrid) (x y w h : Q) :
  (worldToTile this (x + w) < worldToTile this x)%Z
  \/ (worldToTile this (y + h) < worldToTile this y)%Z ->
  getObjectsIntersectingRect heap this x y w h = Returns [].
Proof.
  unfold worldToTile, getObjectsIntersectingRect. intros [H|H].
  - now rewrite (zrange_nil _ _ H).
  - rewrite (zrange_nil _ _ H). apply foldM_idle. reflexivity.
Qed.

Lemma rect_inverted_empty_witness :
  getObjectsIntersectingRect heap1 (grid100 10 [1%nat]) 25 5 (- (20)) 10
  = Returns [].
Proof. apply rect_inverted_empty. left. reflexivity. Defined.

(** ** Queries off the grid *)

(** X7. When the whole square of tiles around the query point lies off the
    grid, [getNeighbors] reads no bucket: it returns the empty sequence on
    every store, updated or not. *)
Theorem getNeighbors_off_grid (this : SpatialGrid) (x y neighborTiles : Q) :
  inject_Z (worldToTile this x) + neighborTiles < 0
  \/ inject_Z (xTiles this) <= inject_Z (worldToTile this x) - neighborTiles
  \/ inject_Z (worldToTile this y) + neighborTiles < 0
  \/ inject_Z (yTiles this) <= inject_Z (worldToTile this y) - neighborTiles ->
  getNeighbors this x y neighborTiles = Returns [].
Proof.
  intros H. unfold getNeighbors. apply foldM_idle. intros u offX HX.
  apply foldM_idle. intros u' offY HY.
  apply qrange_In_le in HX, HY.
  destruct HX as (i & Hi & HiX), HY as (j & Hj & HjY).
  assert (LX : - neighborTiles <= offX).
  { rewrite Hi. assert (0 <= inject_Z (Z.of_nat i))
      by (change 0 with (inject_Z 0); rewrite <- Zle_Qle; lia). lra. }
  assert (LY : - neighborTiles <= offY).
  { rewrite Hj. assert (0 <= inject_Z (Z.of_nat j))
      by (change 0 with (inject_Z 0); rewrite <- Zle_Qle; lia). lra. }
  destruct (inBoundsQ this _ _) eqn:E; [exfalso|reflexivity].
  unfold inBoundsQ in E. rewrite !andb_true_iff, !Qle_bool_iff, !Qltb_iff in E.
  unfold worldToTile in H. destruct E as (((Hx1 & Hx2) & Hy1) & Hy2).
  destruct H as [H|[H|[H|H]]]; lra.
Qed.

Lemma getNeighbors_off_grid_witness :
  getNeighbors (grid100 10 [0%nat]) (- (35)) 50 2 = Returns [].
Proof. apply getNeighbors_off_grid. left. reflexivity. Defined.

(** ** Growing the neighbourhood *)

(** X8. After [update], a larger integer [neighborTiles] returns at least what
    a smaller one returns. *)
Theorem getNeighbors_monotone
        (heap : Ref -> SpatialGridObject) (this : SpatialGrid) (x y : Q)
        (k1 k2 : Z) :
  0 < tileSize this -> (k1 <= k2)%Z ->
  exists s' r1 r2, update heap this = Returns s'
    /\ getNeighbors s' x y (inject_Z k1) = Returns r1
    /\ getNeighbors s' x y (inject_Z k2) = Returns r2
    /\ incl r1 r2.
Proof.
  intros _ Hk. destruct (update_returns heap this) as (g & E & wf & _).
  destruct (getNeighbors_spec _ wf x y (inject_Z k1) k1 (Qeq_refl _))
    as (r1 & E1 & _ & H1).
  destruct (getNeighbors_spec _ wf x y (inject_Z k2) k2 (Qeq_refl _))
    as (r2 & E2 & _ & H2).
  exists (with_grid this g), r1, r2. repeat (split; [assumption|]).
  intros o Ho. apply H2. apply H1 in Ho.
  destruct Ho as (tx & ty & Hx & Hy & Hin & Hreg).
  exists tx, ty. repeat split; try assumption; lia.
Qed.

Lemma getNeighbors_monotone_witness :
  exists s' r1 r2, update heap1 (grid100 10 [0%nat; 2%nat]) = Returns s'
    /\ getNeighbors s' 25 25 0 = Returns r1
    /\ getNeighbors s' 25 25 2 = Returns r2
    /\ incl r1 r2.
Proof.
  apply (getNeighbors_monotone heap1 (grid100 10 [0%nat; 2%nat]) 25 25 0 2).
  - reflexivity.
  - lia.
Defined.

(** ** The rasterized line *)

Lemma chain_cons (a b : Z * Z) (p : list (Z * Z)) :
  hd_error p = Some b -> kingStep a b -> chain p -> chain (a :: p).
Proof.
  destruct p as [|c p]; [discriminate|]. intros [= E]. subst c. simpl. auto.
Qed.

Lemma last_default {A} (p : list A) (d d' : A) :
  p <> [] -> last p d = last p d'.
Proof.
  induction p as [|a p IH]; intros H; [now destruct H|].
  destruct p as [|c p]; [reflexivity|].
  change (last (a :: c :: p) d) with (last (c :: p) d).
  change (last (a :: c :: p) d') with (last (c :: p) d').
  apply IH. discriminate.
Qed.

Lemma last_cons_hd {A} (a d : A) (p : list A) (b : A) :
  hd_error p = Some b -> last (a :: p) d = last p b.
Proof.
  destruct p as [|c p]; [discriminate|]. intros _.
  change (last (a :: c :: p) d) with (last (c :: p) d).
  apply last_default. discriminate.
Qed.

Section Path.

Variable this : SpatialGrid.
Variables xs ys x1 y1 : Z.
Variables dx dy sx sy : Z.
Hypothesis dx_def : dx = Z.abs (x1 - xs).
Hypothesis dy_def : dy = Z.abs (y1 - ys).
Hypothesis sx_def : sx = if (xs <? x1)%Z then 1%Z else (-1)%Z.
Hypothesis sy_def : sy = if (ys <? y1)%Z then 1%Z else (-1)%Z.
Hypothesis box_in : forall a b, (0 <= a <= dx)%Z -> (0 <= b <= dy)%Z ->
  inBounds this (xs + sx * a) (ys + sy * b) = true.

(** The walk from the start tile takes one step along the longer axis in
    every round, and at most one along the other. *)
Lemma bresenham_path (fuel : nat) :
  forall (a b x0 y0 err : Z) (acc : list (Z * Z)),
    (0 <= a <= dx)%Z -> (0 <= b <= dy)%Z ->
    x0 = (xs + sx * a)%Z -> y0 = (ys + sy * b)%Z ->
    err = (dx - dy - a * dy + b * dx)%Z ->
    ((dy < dx /\ 2 * err > - dy) \/ (dx = dy /\ err = 0)
     \/ (dx < dy /\ 2 * err < dx))%Z ->
    ((dx - a) + (dy - b) < Z.of_nat fuel)%Z ->
    exists p,
      bresenham fuel this x1 y1 dx dy sx sy x0 y0 err acc = Returns (acc ++ p)
      /\ hd_error p = Some (x0, y0)
      /\ last p (x0, y0) = (x1, y1)
      /\ chain p
      /\ Z.of_nat (length p)
         = ((if (dy <=? dx)%Z then dx - a else dy - b) + 1)%Z
      /\ forall t, In t p ->
           exists a' b', (0 <= a' <= dx)%Z /\ (0 <= b' <= dy)%Z
                         /\ t = ((xs + sx * a')%Z, (ys + sy * b')%Z).
Proof.
  induction fuel as [|fuel IH];
    intros a b x0 y0 err acc Ha Hb Hx Hy Herr Hmaj Hf; [lia|].
  assert (Hx1 : x1 = (xs + sx * dx)%Z).
  { rewrite sx_def, dx_def. destruct (Z.ltb_spec xs x1); lia. }
  assert (Hy1 : y1 = (ys + sy * dy)%Z).
  { rewrite sy_def, dy_def. destruct (Z.ltb_spec ys y1); lia. }
  assert (Hsx : sx = 1%Z \/ sx = (-1)%Z).
  { rewrite sx_def. destruct (xs <? x1)%Z; auto. }
  assert (Hsy : sy = 1%Z \/ sy = (-1)%Z).
  { rewrite sy_def. destruct (ys <? y1)%Z; auto. }
  cbn [bresenham].
  assert (Hin : inBounds this x0 y0 = true) by (subst x0 y0; now apply box_in).
  rewrite Hin.
  assert (Here : exists a' b', (0 <= a' <= dx)%Z /\ (0 <= b' <= dy)%Z
                   /\ (x0, y0) = ((xs + sx * a')%Z, (ys + sy * b')%Z)).
  { exists a, b. subst x0 y0. auto. }
  destruct ((x0 =? x1)%Z && (y0 =? y1)%Z) eqn:Eend.
  - apply andb_true_iff in Eend. destruct Eend as (Ex & Ey).
    apply Z.eqb_eq in Ex, Ey.
    assert (a = dx) by (destruct Hsx as [Hs|Hs]; rewrite Hs in *; lia).
    assert (b = dy) by (destruct Hsy as [Hs|Hs]; rewrite Hs in *; lia).
    exists [(x0, y0)]. split; [reflexivity|]. split; [reflexivity|].
    split; [simpl; congruence|]. split; [exact I|]. split.
    + simpl. destruct (dy <=? dx)%Z; lia.
    + intros t [<-|[]]. exact Here.
  - assert (Hnot : a <> dx \/ b <> dy).
    { apply andb_false_iff in Eend.
      destruct Eend as [E|E]; apply Z.eqb_neq in E; [left|right];
        intros ->; apply E; congruence. }
    assert (Pa : (0 <= dx * (dy - b))%Z) by (apply Z.mul_nonneg_nonneg; lia).
    assert (Pb : (0 <= dy * (dx - a))%Z) by (apply Z.mul_nonneg_nonneg; lia).
    assert (Step : forall a' b' x0' y0' err' p,
      (a' = a \/ a' = a + 1)%Z -> (b' = b \/ b' = b + 1)%Z ->
      (a' <> a \/ b' <> b) ->
      (if (dy <=? dx)%Z then a' = a + 1 else b' = b + 1)%Z ->
      x0' = (xs + sx * a')%Z -> y0' = (ys + sy * b')%Z ->
      bresenham fuel this x1 y1 dx dy sx sy x0' y0' err' (acc ++ [(x0, y0)])
      = Returns ((acc ++ [(x0, y0)]) ++ p) ->
      hd_error p = Some (x0', y0') ->
      last p (x0', y0') = (x1, y1) ->
      chain p ->
      Z.of_nat (length p)
      = ((if (dy <=? dx)%Z then dx - a' else dy - b') + 1)%Z ->
      (forall t, In t p ->
         exists a' b', (0 <= a' <= dx)%Z /\ (0 <= b' <= dy)%Z
                       /\ t = ((xs + sx * a')%Z, (ys + sy * b')%Z)) ->
      exists p0,
        bresenham fuel this x1 y1 dx dy sx sy x0' y0' err' (acc ++ [(x0, y0)])
        = Returns (acc ++ p0)
        /\ hd_error p0 = Some (x0, y0)
        /\ last p0 (x0, y0) = (x1, y1)
        /\ chain p0
        /\ Z.of_nat (length p0)
           = ((if (dy <=? dx)%Z then dx - a else dy - b) + 1)%Z
        /\ forall t, In t p0 ->
             exists a' b', (0 <= a' <= dx)%Z /\ (0 <= b' <= dy)%Z
                           /\ t = ((xs + sx * a')%Z, (ys + sy * b')%Z)).
    { intros a' b' x0' y0' err' p Ha' Hb' Hmove Hmajor Hx' Hy'
             E Hhd Hlast Hch Hlen Hbox.
      exists ((x0, y0) :: p). split; [now rewrite E, <- app_assoc|].
      split; [reflexivity|]. split.
      - rewrite (last_cons_hd _ _ _ _ Hhd). exact Hlast.
      - split.
        + apply chain_cons with (b := (x0', y0')); [assumption| |assumption].
          unfold kingStep. cbn [fst snd]. subst x0 y0 x0' y0'.
          split; [|split].
          * destruct Hsx as [Hs|Hs]; rewrite Hs; lia.
          * destruct Hsy as [Hs|Hs]; rewrite Hs; lia.
          * intros [= E1 E2].
            destruct Hsx as [Hs|Hs]; rewrite Hs in E1;
              destruct Hsy as [Hs'|Hs']; rewrite Hs' in E2; lia.
        + split.
          * cbn [length]. rewrite Nat2Z.inj_succ, Hlen.
            destruct (dy <=? dx)%Z; lia.
          * intros t [<-|Ht]; [exact Here|now apply Hbox]. }
    destruct (Z.gtb_spec (2 * err) (- dy)) as [Gx|Gx];
      destruct (Z.ltb_spec (2 * err) dx) as [Gy|Gy].
    + assert (a < dx)%Z by nia. assert (b < dy)%Z by nia.
      destruct (IH (a + 1)%Z (b + 1)%Z (x0 + sx)%Z (y0 + sy)%Z
                   (err - dy + dx)%Z (acc ++ [(x0, y0)]))
        as (p & E & Hhd & Hlast & Hch & Hlen & Hbox); try lia.
      apply (Step (a + 1)%Z (b + 1)%Z _ _ _ p); auto; try lia.
      destruct (dy <=? dx)%Z; reflexivity.
    + assert (a < dx)%Z by nia.
      assert (Hxm : (dy < dx)%Z).
      { destruct Hmaj as [?|[(? & ?)|(? & ?)]]; [lia| |lia].
        subst err. assert (dx = 0)%Z by lia. lia. }
      destruct (IH (a + 1)%Z b (x0 + sx)%Z y0 (err - dy)%Z (acc ++ [(x0, y0)]))
        as (p & E & Hhd & Hlast & Hch & Hlen & Hbox); try lia.
      apply (Step (a + 1)%Z b _ _ _ p); auto; try lia.
      destruct (Z.leb_spec dy dx); lia.
    + assert (b < dy)%Z by nia.
      assert (Hym : (dx < dy)%Z).
      { destruct Hmaj as [(? & ?)|[(? & ?)|?]]; [lia| |lia].
        subst err. assert (dy = 0)%Z by lia. lia. }
      destruct (IH a (b + 1)%Z x0 (y0 + sy)%Z (err + dx)%Z (acc ++ [(x0, y0)]))
        as (p & E & Hhd & Hlast & Hch & Hlen & Hbox); try lia.
      apply (Step a (b + 1)%Z _ _ _ p); auto; try lia.
      destruct (Z.leb_spec dy dx); lia.
    + exfalso. nia.
Qed.

End Path.

(** X10. When the tiles of both end points are on the grid, the rasterization
    returns a path from the start tile to the end tile in which every tile
    touches the next by a side or a corner; it stays in the rectangle of tiles
    between the two and has as many tiles as the longer side of that
    rectangle. *)
Theorem rasterize_path (this : SpatialGrid) (fuel : nat)
        (fromX fromY toX toY : Q) :
  let p := (worldToTile this fromX, worldToTile this fromY) in
  let q := (worldToTile this toX, worldToTile this toY) in
  inBounds this (fst p) (snd p) = true ->
  inBounds this (fst q) (snd q) = true ->
  (lineFuel this fromX fromY toX toY <= fuel)%nat ->
  exists tiles,
    rasterize fuel this fromX fromY toX toY = Returns tiles
    /\ hd_error tiles = Some p
    /\ last tiles p = q
    /\ chain tiles
    /\ Z.of_nat (length tiles)
       = (Z.max (Z.abs (fst q - fst p)) (Z.abs (snd q - snd p)) + 1)%Z
    /\ forall t, In t tiles -> inBox p q t.
Proof.
  intros p q Hp Hq Hf. subst p q. cbn [fst snd] in *.
  unfold lineFuel, rasterize, worldToTile in *.
  set (x0 := Qfloor (fromX / tileSize this)) in *.
  set (y0 := Qfloor (fromY / tileSize this)) in *.
  set (x1 := Qfloor (toX / tileSize this)) in *.
  set (y1 := Qfloor (toY / tileSize this)) in *.
  apply inBounds_iff in Hp, Hq.
  destruct (bresenham_path this x0 y0 x1 y1 _ _ _ _
              eq_refl eq_refl eq_refl eq_refl) with
    (fuel := fuel) (a := 0%Z) (b := 0%Z) (x0 := x0) (y0 := y0)
    (err := (Z.abs (x1 - x0) - Z.abs (y1 - y0))%Z) (acc := @nil (Z * Z))
    as (tiles & E & Hhd & Hlast & Hch & Hlen & Hbox); try lia.
  - intros a b Ha Hb. apply inBounds_iff.
    destruct (Z.ltb_spec x0 x1), (Z.ltb_spec y0 y1); lia.
  - exists tiles. split; [exact E|]. split; [exact Hhd|].
    split; [exact Hlast|]. split; [exact Hch|]. split.
    + rewrite Hlen. destruct (Z.leb_spec (Z.abs (y1 - y0)) (Z.abs (x1 - x0)));
        lia.
    + intros t Ht. destruct (Hbox t Ht) as (a & b & Ha & Hb & ->).
      unfold inBox. cbn [fst snd].
      destruct (Z.ltb_spec x0 x1), (Z.ltb_spec y0 y1); lia.
Qed.

Lemma rasterize_path_witness :
  exists tiles,
    rasterize 19 (grid100 10 [2%nat]) 5 5 95 35 = Returns tiles
    /\ hd_error tiles = Some (0%Z, 0%Z)
    /\ last tiles (0%Z, 0%Z) = (9%Z, 3%Z)
    /\ chain tiles
    /\ length tiles = 10%nat.
Proof.
  destruct (rasterize_path (grid100 10 [2%nat]) 19 5 5 95 35)
    as (tiles & E & Hhd & Hlast & Hch & Hlen & _).
  - reflexivity.
  - reflexivity.
  - vm_compute. lia.
  - exists tiles. split; [exact E|]. split; [exact Hhd|].
    split; [exact Hlast|]. split; [exact Hch|].
    apply Nat2Z.inj. rewrite Hlen. reflexivity.
Defined.

(** ** Degenerate line queries *)

(** X11. A segment of length zero makes the projection 0/0: no candidate
    passes the distance test, and the query after [update] returns the empty
    sequence whatever the width. *)
Theorem line_zero_length_empty
        (heap : Ref -> SpatialGridObject) (this : SpatialGrid) (fuel : nat)
        (fromX fromY toX toY w : Q) :
  0 < tileSize this -> fromX == toX -> fromY == toY ->
  (lineFuel this fromX fromY toX toY <= fuel)%nat ->
  exists s', update heap this = Returns s'
    /\ getObjectsIntersectingLine heap fuel s' fromX fromY toX toY w
       = Returns [].
Proof.
  intros _ Ex Ey Hf. destruct (update_returns heap this) as (g & E & wf & _).
  exists (with_grid this g). split; [exact E|].
  destruct (getObjectsIntersectingLine_spec heap _ wf fuel
              fromX fromY toX toY w Hf) as (t & r & _ & Er & _ & Hr).
  rewrite Er. f_equal. apply no_members_nil. intros o Ho.
  apply Hr in Ho. destruct Ho as (_ & Ht). apply lineTest_iff in Ht.
  destruct Ht as (Hne & _). apply Hne. rewrite Ex, Ey. ring.
Qed.

Lemma line_zero_length_empty_witness :
  exists s', update heap1 (grid100 10 [2%nat]) = Returns s'
    /\ getObjectsIntersectingLine heap1 1 s' 45 45 45 45 30 = Returns [].
Proof.
  apply (line_zero_length_empty heap1 (grid100 10 [2%nat]) 1 45 45 45 45 30).
  - reflexivity.
  - reflexivity.
  - reflexivity.
  - vm_compute. lia.
Defined.

(** X12. A width of at most minus two tile sizes makes the expansion loops
    empty: the query reads no bucket and returns the empty sequence on every
    store. *)
Theorem line_very_negative_width_empty
        (heap : Ref -> SpatialGridObject) (this : SpatialGrid) (fuel : nat)
        (fromX fromY toX toY w : Q) :
  0 < tileSize this -> w <= - (2 * tileSize this) ->
  (lineFuel this fromX fromY toX toY <= fuel)%nat ->
  getObjectsIntersectingLine heap fuel this fromX fromY toX toY w = Returns [].
Proof.
  intros Hts Hw Hf. unfold getObjectsIntersectingLine.
  destruct (rasterize_returns this fuel fromX fromY toX toY Hf)
    as (tiles & -> & _).
  simpl. rewrite (no_members_nil (expand this _ tiles)); [reflexivity|].
  intros [tx ty] H. apply expand_In in H.
  destruct H as (tile & _ & Hx & _).
  assert (He : (Qceiling (w / (2 * tileSize this)) <= -1)%Z).
  { rewrite <- (Qceiling_Z (-1)). apply Qceiling_resp_le.
    apply Qle_shift_div_r; [lra|]. change (inject_Z (-1)) with (- (1)). lra. }
  lia.
Qed.

Lemma line_very_negative_width_empty_witness :
  getObjectsIntersectingLine heap1 19 (grid100 10 [2%nat]) 0 0 90 90 (- (20))
  = Returns [].
Proof.
  apply line_very_negative_width_empty.
  - reflexivity.
  - discriminate.
  - vm_compute. lia.
Defined.

(** ** The debug trace *)

Lemma bindT_snd {A B} (m : traced A) (k : A -> traced B)
      (o : outcome A) (k' : A -> outcome B) (tr : Trace) :
  snd (m tr) = o -> (forall a tr', snd (k a tr') = k' a) ->
  snd (bindT m k tr) = bind o k'.
Proof.
  intros Hm Hk. unfold bindT. destruct (m tr) as [tr' [a| |]]; simpl in Hm;
    subst o; simpl; auto.
Qed.

Lemma foldT_snd {A S} (bodyT : S -> A -> traced S) (body : S -> A -> outcome S)
      (l : list A) :
  (forall s a tr, snd (bodyT s a tr) = body s a) ->
  forall s tr, snd (foldT bodyT l s tr) = foldM body l s.
Proof.
  intros H. induction l as [|a l IH]; intros s tr; simpl; [reflexivity|].
  apply bindT_snd; [apply H|]. intros; apply IH.
Qed.

Lemma foldT_snd_pure {A S} (bodyT : S -> A -> traced S) (f : S -> A -> S)
      (l : list A) :
  (forall s a tr, snd (bodyT s a tr) = Returns (f s a)) ->
  forall s tr, snd (foldT bodyT l s tr) = Returns (fold_left f l s).
Proof.
  intros H. induction l as [|a l IH]; intros s tr; simpl; [reflexivity|].
  unfold bindT. specialize (H s a tr).
  destruct (bodyT s a tr) as [tr' o]. simpl in H. subst o. apply IH.
Qed.

Lemma bindT_fst_id {A B} (m : traced A) (k : A -> traced B) (tr : Trace) :
  fst (m tr) = tr -> (forall a, fst (k a tr) = tr) ->
  fst (bindT m k tr) = tr.
Proof.
  intros Hm Hk. unfold bindT. destruct (m tr) as [tr' [a| |]]; simpl in Hm;
    subst tr'; simpl; auto.
Qed.

Lemma foldT_fst_id {A S} (bodyT : S -> A -> traced S) (l : list A) :
  (forall s a tr, fst (bodyT s a tr) = tr) ->
  forall s tr, fst (foldT bodyT l s tr) = tr.
Proof.
  intros H. induction l as [|a l IH]; intros s tr; simpl; [reflexivity|].
  apply bindT_fst_id; [apply H|]. intros; apply IH.
Qed.

(** A loop whose every round, when it returns, has appended a list that
    depends on the round only: when the loop returns it has appended their
    concatenation. *)
Lemma foldT_trace {A S} (bodyT : S -> A -> traced S) (E : A -> Trace)
      (l : list A) :
  (forall s a tr tr' s', bodyT s a tr = (tr', Returns s') -> tr' = tr ++ E a) ->
  forall s tr tr' s', foldT bodyT l s tr = (tr', Returns s') ->
    tr' = tr ++ flat_map E l.
Proof.
  intros H. induction l as [|a l IH]; intros s tr tr' s' Hf; simpl in *.
  - unfold retT in Hf. injection Hf as <- _. now rewrite app_nil_r.
  - unfold bindT in Hf. destruct (bodyT s a tr) as [tr1 [s1| |]] eqn:E1;
      try discriminate.
    apply H in E1. apply IH in Hf. subst. now rewrite app_assoc.
Qed.

Section TraceFacts.

Variable heap : Ref -> SpatialGridObject.
Variable this : SpatialGrid.

(** *** The flag does not change the answers *)

Lemma getNeighborsT_snd (debug : bool) (x y n : Q) (tr : Trace) :
  snd (getNeighborsT debug this x y n tr) = getNeighbors this x y n.
Proof.
  unfold getNeighborsT, getNeighbors, bindT, resetT.
  apply foldT_snd. intros u offX tr1. apply foldT_snd. intros u' offY tr2.
  destruct (inBoundsQ _ _ _); reflexivity.
Qed.

Lemma circleT_snd (debug : bool) (x y r : Q) (tr : Trace) :
  snd (getObjectsIntersectingCircleT heap debug this x y r tr)
  = getObjectsIntersectingCircle heap this x y r.
Proof.
  unfold getObjectsIntersectingCircleT, getObjectsIntersectingCircle.
  unfold bindT at 1. unfold resetT.
  apply bindT_snd; [apply getNeighborsT_snd|reflexivity].
Qed.

Lemma rectT_snd (debug : bool) (x y w h : Q) (tr : Trace) :
  snd (getObjectsIntersectingRectT heap debug this x y w h tr)
  = getObjectsIntersectingRect heap this x y w h.
Proof.
  unfold getObjectsIntersectingRectT, getObjectsIntersectingRect, bindT, resetT.
  apply foldT_snd. intros u tx tr1. apply foldT_snd. intros u' ty tr2.
  destruct (inBounds _ _ _); reflexivity.
Qed.

Lemma bresenhamT_snd (debug : bool) (fuel : nat) :
  forall x1 y1 dx dy sx sy x0 y0 err acc tr,
    snd (bresenhamT debug fuel this x1 y1 dx dy sx sy x0 y0 err acc tr)
    = bresenham fuel this x1 y1 dx dy sx sy x0 y0 err acc.
Proof.
  induction fuel as [|fuel IH]; intros; cbn [bresenhamT bresenham];
    [reflexivity|].
  unfold bindT at 1.
  destruct (inBounds this x0 y0); cbn [pushT retT bindT];
    (destruct ((x0 =? x1)%Z && (y0 =? y1)%Z); [reflexivity|]);
    destruct (2 * err >? - dy)%Z, (2 * err <? dx)%Z; apply IH.
Qed.

Lemma expandT_snd (debug : bool) (e : Z) (tiles : list (Z * Z)) (tr : Trace) :
  snd (expandT debug this e tiles tr) = Returns (expand this e tiles).
Proof.
  unfold expandT, expand. apply foldT_snd_pure. intros u tile tr1.
  apply foldT_snd_pure. intros u1 ox tr2. apply foldT_snd_pure.
  intros u2 oy tr3. destruct (inBounds _ _ _); reflexivity.
Qed.

Lemma lineT_snd (debug : bool) (fuel : nat) (fromX fromY toX toY w : Q)
      (tr : Trace) :
  snd (getObjectsIntersectingLineT heap debug fuel this
         fromX fromY toX toY w tr)
  = getObjectsIntersectingLine heap fuel this fromX fromY toX toY w.
Proof.
  unfold getObjectsIntersectingLineT, getObjectsIntersectingLine.
  unfold bindT at 1. unfold resetT.
  apply bindT_snd; [apply bresenhamT_snd|]. intros tiles tr1.
  unfold bindT at 1.
  pose proof (expandT_snd debug (Qceiling (w / (2 * tileSize this))) tiles tr1)
    as He.
  destruct (expandT debug this _ tiles tr1) as [tr2 o]. simpl in He. subst o.
  unfold bindT, liftT, retT.
  destruct (collect this _); reflexivity.
Qed.

End TraceFacts.

(** X13. Turning [debug] on changes neither what a query returns nor whether
    it throws or runs out of fuel, whatever the trace held before. *)
Theorem debug_does_not_change_answers
        (heap : Ref -> SpatialGridObject) (this : SpatialGrid)
        (debug : bool) (tr : Trace) :
  (forall x y n,
     snd (getNeighborsT debug this x y n tr) = getNeighbors this x y n)
  /\ (forall x y r,
        snd (getObjectsIntersectingCircleT heap debug this x y r tr)
        = getObjectsIntersectingCircle heap this x y r)
  /\ (forall x y w h,
        snd (getObjectsIntersectingRectT heap debug this x y w h tr)
        = getObjectsIntersectingRect heap this x y w h)
  /\ (forall fuel fromX fromY toX toY w,
        snd (getObjectsIntersectingLineT heap debug fuel this
               fromX fromY toX toY w tr)
        = getObjectsIntersectingLine heap fuel this fromX fromY toX toY w).
Proof.
  split; [|split; [|split]]; intros.
  - apply getNeighborsT_snd.
  - apply circleT_snd.
  - apply rectT_snd.
  - apply lineT_snd.
Qed.

Section TraceOff.

Variable heap : Ref -> SpatialGridObject.
Variable this : SpatialGrid.

Lemma getNeighborsT_off (x y n : Q) (tr : Trace) :
  fst (getNeighborsT false this x y n tr) = tr.
Proof.
  unfold getNeighborsT, bindT at 1, resetT.
  apply foldT_fst_id. intros u offX tr1. apply foldT_fst_id.
  intros u' offY tr2.
  destruct (inBoundsQ _ _ _); [destruct (grid_atQ _ _)|]; reflexivity.
Qed.

Lemma bresenhamT_off (fuel : nat) :
  forall x1 y1 dx dy sx sy x0 y0 err acc tr,
    fst (bresenhamT false fuel this x1 y1 dx dy sx sy x0 y0 err acc tr) = tr.
Proof.
  induction fuel as [|fuel IH]; intros; cbn [bresenhamT]; [reflexivity|].
  unfold bindT at 1.
  destruct (inBounds this x0 y0); cbn [pushT retT bindT];
    (destruct ((x0 =? x1)%Z && (y0 =? y1)%Z); [reflexivity|]);
    destruct (2 * err >? - dy)%Z, (2 * err <? dx)%Z; apply IH.
Qed.

Lemma expandT_off (e : Z) (tiles : list (Z * Z)) (tr : Trace) :
  fst (expandT false this e tiles tr) = tr.
Proof.
  unfold expandT. apply foldT_fst_id. intros u tile tr1.
  apply foldT_fst_id. intros u1 ox tr2. apply foldT_fst_id.
  intros u2 oy tr3. now destruct (inBounds _ _ _).
Qed.

End TraceOff.

(** X14. With [debug] off no query touches [lastCheckedTiles], whether it
    returns or throws. *)
Theorem debug_off_keeps_trace
        (heap : Ref -> SpatialGridObject) (this : SpatialGrid) (tr : Trace) :
  (forall x y n, fst (getNeighborsT false this x y n tr) = tr)
  /\ (forall x y r,
        fst (getObjectsIntersectingCircleT heap false this x y r tr) = tr)
  /\ (forall x y w h,
        fst (getObjectsIntersectingRectT heap false this x y w h tr) = tr)
  /\ (forall fuel fromX fromY toX toY w,
        fst (getObjectsIntersectingLineT heap false fuel this
               fromX fromY toX toY w tr) = tr).
Proof.
  split; [|split; [|split]]; intros.
  - apply getNeighborsT_off.
  - unfold getObjectsIntersectingCircleT, bindT at 1, resetT.
    apply bindT_fst_id; [apply getNeighborsT_off|reflexivity].
  - unfold getObjectsIntersectingRectT, bindT at 1, resetT.
    apply foldT_fst_id. intros u tx tr1. apply foldT_fst_id.
    intros u' ty tr2.
    destruct (inBounds _ _ _); [destruct (grid_at _ _)|]; reflexivity.
  - unfold getObjectsIntersectingLineT, bindT at 1, resetT.
    apply bindT_fst_id; [apply bresenhamT_off|]. intros tiles.
    apply bindT_fst_id; [apply expandT_off|]. intros ex.
    unfold bindT, liftT, retT. now destruct (collect this ex).
Qed.

Lemma pair_eta {A B} (p : A * B) (a : A) (b : B) :
  fst p = a -> snd p = b -> p = (a, b).
Proof. destruct p. simpl. now intros -> ->. Qed.

Lemma tileQ_In (t : Z * Z) (l : list (Z * Z)) :
  In (tileQ t) (map tileQ l) <-> In t l.
Proof.
  split; [|apply in_map]. intros H. apply in_map_iff in H.
  destruct H as ([a b] & E & H). destruct t as [c d].
  unfold tileQ in E. cbn [fst snd] in E. injection E as -> ->. exact H.
Qed.

Lemma flat_map_map_out {A B C} (f : B -> C) (g : A -> list B) (l : list A) :
  flat_map (fun a => map f (g a)) l = map f (flat_map g l).
Proof.
  induction l as [|a l IH]; simpl; [reflexivity|]. now rewrite map_app, IH.
Qed.

Section TraceOn.

Variable heap : Ref -> SpatialGridObject.
Variable this : SpatialGrid.

Lemma getNeighborsT_trace (x y n : Q) (tr tr' : Trace) (r : list Ref) :
  getNeighborsT true this x y n tr = (tr', Returns r) ->
  tr' = flat_map (fun offX =>
          flat_map (fun offY =>
            if inBoundsQ this (inject_Z (Qfloor (x / tileSize this)) + offX)
                              (inject_Z (Qfloor (y / tileSize this)) + offY)
            then [(inject_Z (Qfloor (x / tileSize this)) + offX,
                   inject_Z (Qfloor (y / tileSize this)) + offY)]
            else [])
            (qrange (- n) n))
          (qrange (- n) n).
Proof.
  unfold getNeighborsT, bindT at 1, resetT. intros H.
  apply foldT_trace with
    (E := fun offX =>
       flat_map (fun offY =>
         if inBoundsQ this (inject_Z (Qfloor (x / tileSize this)) + offX)
                           (inject_Z (Qfloor (y / tileSize this)) + offY)
         then [(inject_Z (Qfloor (x / tileSize this)) + offX,
                inject_Z (Qfloor (y / tileSize this)) + offY)]
         else [])
         (qrange (- n) n)) in H; [exact H|].
  intros u offX tr1 tr2 u' H1.
  apply foldT_trace with
    (E := fun offY =>
       if inBoundsQ this (inject_Z (Qfloor (x / tileSize this)) + offX)
                         (inject_Z (Qfloor (y / tileSize this)) + offY)
       then [(inject_Z (Qfloor (x / tileSize this)) + offX,
              inject_Z (Qfloor (y / tileSize this)) + offY)]
       else []) in H1; [exact H1|].
  intros u1 offY tr3 tr4 u2. destruct (inBoundsQ _ _ _).
  - unfold bindT, pushT, liftT. destruct (grid_atQ _ _); [|discriminate].
    now intros [= <- _].
  - unfold retT. intros [= <- _]. now rewrite app_nil_r.
Qed.

Lemma getNeighborsT_resets (x y n : Q) (tr : Trace) :
  getNeighborsT true this x y n tr = getNeighborsT true this x y n [].
Proof. reflexivity. Qed.

Lemma rectT_trace (x y w h : Q) (tr tr' : Trace) (r : list Ref) :
  getObjectsIntersectingRectT heap true this x y w h tr = (tr', Returns r) ->
  tr' = map tileQ
          (flat_map (fun tx =>
             flat_map (fun ty => if inBounds this tx ty then [(tx, ty)] else [])
               (zrange (worldToTile this y) (worldToTile this (y + h))))
             (zrange (worldToTile this x) (worldToTile this (x + w)))).
Proof.
  unfold getObjectsIntersectingRectT, bindT at 1, resetT, worldToTile.
  intros H.
  apply foldT_trace with
    (E := fun tx =>
       map tileQ (flat_map (fun ty =>
                    if inBounds this tx ty then [(tx, ty)] else [])
         (zrange (Qfloor (y / tileSize this))
                 (Qfloor ((y + h) / tileSize this))))) in H.
  - rewrite H. simpl. apply flat_map_map_out.
  - intros u tx tr1 tr2 u' H1.
    apply foldT_trace with
      (E := fun ty =>
         map tileQ (if inBounds this tx ty then [(tx, ty)] else []))
      in H1.
    + rewrite H1. f_equal. apply flat_map_map_out.
    + intros u1 ty tr3 tr4 u2. destruct (inBounds _ _ _).
      * unfold bindT, pushT, liftT. destruct (grid_at _ _); [|discriminate].
        now intros [= <- _].
      * unfold retT. intros [= <- _]. now rewrite app_nil_r.
Qed.

Lemma bresenhamT_trace (fuel : nat) :
  forall x1 y1 dx dy sx sy x0 y0 err acc tr tr' tiles,
    bresenhamT true fuel this x1 y1 dx dy sx sy x0 y0 err acc tr
    = (tr', Returns tiles) ->
    exists p, tiles = acc ++ p /\ tr' = tr ++ map tileQ p.
Proof.
  induction fuel as [|fuel IH];
    intros x1 y1 dx dy sx sy x0 y0 err acc tr tr' tiles H;
    cbn [bresenhamT] in H; [discriminate|].
  unfold bindT at 1 in H.
  destruct (inBounds this x0 y0); cbn [pushT retT bindT] in H.
  - destruct ((x0 =? x1)%Z && (y0 =? y1)%Z).
    + injection H as <- <-. exists [(x0, y0)]. auto.
    + assert (Hrec : exists p, tiles = (acc ++ [(x0, y0)]) ++ p
                       /\ tr' = (tr ++ [tileQ (x0, y0)]) ++ map tileQ p).
      { destruct (2 * err >? - dy)%Z, (2 * err <? dx)%Z;
          eapply IH; exact H. }
      destruct Hrec as (p & -> & ->). exists ((x0, y0) :: p).
      rewrite <- !app_assoc. auto.
  - destruct ((x0 =? x1)%Z && (y0 =? y1)%Z).
    + injection H as <- <-. exists []. now rewrite !app_nil_r.
    + destruct (2 * err >? - dy)%Z, (2 * err <? dx)%Z; eapply IH; exact H.
Qed.

Lemma expand_flat (e : Z) (tiles : list (Z * Z)) :
  expand this e tiles
  = flat_map (fun tile =>
      flat_map (fun ox =>
        flat_map (fun oy =>
          if inBounds this (fst tile + ox) (snd tile + oy)
          then [((fst tile + ox)%Z, (snd tile + oy)%Z)] else [])
          (zrange (- e) e))
        (zrange (- e) e))
      tiles.
Proof.
  unfold expand.
  rewrite fold_left_append with
    (sel := fun tile =>
       flat_map (fun ox =>
         flat_map (fun oy =>
           if inBounds this (fst tile + ox) (snd tile + oy)
           then [((fst tile + ox)%Z, (snd tile + oy)%Z)] else [])
           (zrange (- e) e))
         (zrange (- e) e)); [reflexivity|].
  intros u tile _. apply fold_left_append. intros u' ox _.
  apply fold_left_append. intros u'' oy _.
  destruct (inBounds this (fst tile + ox) (snd tile + oy));
    [reflexivity|now rewrite app_nil_r].
Qed.

(** A loop that pushes to the trace what it appends to its result. *)
Lemma foldT_both {A} (bodyT : list (Z * Z) -> A -> traced (list (Z * Z)))
      (sel : A -> list (Z * Z)) (l : list A) :
  (forall u a tr,
     bodyT u a tr = (tr ++ map tileQ (sel a), Returns (u ++ sel a))) ->
  forall u tr,
    foldT bodyT l u tr
    = (tr ++ map tileQ (flat_map sel l), Returns (u ++ flat_map sel l)).
Proof.
  intros H. induction l as [|a l IH]; intros u tr; simpl.
  - unfold retT. now rewrite !app_nil_r.
  - unfold bindT. rewrite H, IH. now rewrite map_app, <- !app_assoc.
Qed.

Lemma expandT_trace (e : Z) (tiles : list (Z * Z)) (tr : Trace) :
  expandT true this e tiles tr
  = (tr ++ map tileQ (expand this e tiles), Returns (expand this e tiles)).
Proof.
  rewrite expand_flat. unfold expandT.
  rewrite foldT_both with
    (sel := fun tile =>
       flat_map (fun ox =>
         flat_map (fun oy =>
           if inBounds this (fst tile + ox) (snd tile + oy)
           then [((fst tile + ox)%Z, (snd tile + oy)%Z)] else [])
           (zrange (- e) e))
         (zrange (- e) e)); [reflexivity|].
  intros u tile tr1. apply foldT_both. intros u1 ox tr2.
  apply foldT_both. intros u2 oy tr3.
  destruct (inBounds this (fst tile + ox) (snd tile + oy)).
  - reflexivity.
  - unfold retT. simpl. now rewrite !app_nil_r.
Qed.

End TraceOn.

(** X15. With [debug] on, after [update]: [getNeighbors] with an integer
    [neighborTiles] forgets the previous trace and records exactly the
    in-bounds tiles of the square around the tile of the point, and the circle
    query records what its [getNeighbors] call records. *)
Theorem getNeighbors_trace
        (heap : Ref -> SpatialGridObject) (this : SpatialGrid)
        (x y : Q) (k : Z) (tr : Trace) :
  0 < tileSize this ->
  exists s' tr' r,
    update heap this = Returns s'
    /\ getNeighborsT true s' x y (inject_Z k) tr = (tr', Returns r)
    /\ (forall tx ty, traceHas tr' tx ty <->
          (worldToTile this x - k <= tx <= worldToTile this x + k)%Z
          /\ (worldToTile this y - k <= ty <= worldToTile this y + k)%Z
          /\ inBounds this tx ty = true)
    /\ (forall radius,
          fst (getObjectsIntersectingCircleT heap true s' x y radius tr)
          = fst (getNeighborsT true s' x y
                   (inject_Z (Qceiling (radius / tileSize this))) tr)).
Proof.
  intros _. destruct (update_returns heap this) as (g & E & wf & _).
  destruct (getNeighbors_spec _ wf x y (inject_Z k) k (Qeq_refl _))
    as (r & Er & _).
  pose proof (getNeighborsT_snd (with_grid this g) true x y (inject_Z k) tr)
    as Hs.
  destruct (getNeighborsT true (with_grid this g) x y (inject_Z k) tr)
    as [tr' o] eqn:ET.
  simpl in Hs. rewrite Er in Hs. subst o.
  exists (with_grid this g), tr', r. split; [exact E|]. split; [exact ET|].
  split.
  - apply getNeighborsT_trace in ET.
    change (tileSize (with_grid this g)) with (tileSize this) in ET.
    unfold worldToTile.
    set (tX := Qfloor (x / tileSize this)) in *.
    set (tY := Qfloor (y / tileSize this)) in *.
    assert (En : inject_Z k == inject_Z k) by reflexivity.
    intros tx ty. unfold traceHas. rewrite ET. split.
    + intros ([qx qy] & Hq & Ex & Ey). cbn [fst snd] in Ex, Ey.
      apply in_flat_map in Hq. destruct Hq as (offX & HX & Hq).
      apply in_flat_map in Hq. destruct Hq as (offY & HY & Hq).
      destruct (qrange_int_In _ _ _ En HX) as (zx & Hzx & Eox).
      destruct (qrange_int_In _ _ _ En HY) as (zy & Hzy & Eoy).
      destruct (inBoundsQ (with_grid this g) _ _) eqn:Hb; [|contradiction].
      destruct Hq as [[= <- <-]|[]].
      assert (Etx : tx = (tX + zx)%Z).
      { apply inject_Z_injective. rewrite inject_Z_plus, <- Ex, Eox.
        reflexivity. }
      assert (Ety : ty = (tY + zy)%Z).
      { apply inject_Z_injective. rewrite inject_Z_plus, <- Ey, Eoy.
        reflexivity. }
      rewrite (inBoundsQ_Z _ _ _ tx ty) in Hb by assumption.
      split; [lia|]. split; [lia|exact Hb].
    + intros (Hx & Hy & Hin).
      destruct (qrange_int_hit (inject_Z k) k (tx - tX) En)
        as (offX & HX & Eox);
        [lia|].
      destruct (qrange_int_hit (inject_Z k) k (ty - tY) En)
        as (offY & HY & Eoy);
        [lia|].
      exists (inject_Z tX + offX, inject_Z tY + offY). cbn [fst snd].
      assert (Ex : inject_Z tX + offX == inject_Z tx).
      { rewrite Eox, <- inject_Z_plus. f_equiv. lia. }
      assert (Ey : inject_Z tY + offY == inject_Z ty).
      { rewrite Eoy, <- inject_Z_plus. f_equiv. lia. }
      split; [|split; assumption].
      apply in_flat_map. exists offX. split; [assumption|].
      apply in_flat_map. exists offY. split; [assumption|].
      rewrite (inBoundsQ_Z (with_grid this g) _ _ tx ty Ex Ey).
      change (inBounds (with_grid this g) tx ty) with (inBounds this tx ty).
      rewrite Hin. now left.
  - intros radius. unfold getObjectsIntersectingCircleT.
    unfold bindT at 1. unfold resetT.
    rewrite (getNeighborsT_resets (with_grid this g) x y _ tr).
    unfold bindT.
    now destruct (getNeighborsT true (with_grid this g) x y _ [])
      as [t [a| |]].
Qed.

(** X16. With [debug] on, after [update], the rectangle query forgets the
    previous trace and records exactly the in-bounds tiles between the tile of
    (x, y) and the tile of (x + w, y + h). *)
Theorem rect_trace
        (heap : Ref -> SpatialGridObject) (this : SpatialGrid)
        (x y w h : Q) (tr : Trace) :
  0 < tileSize this ->
  exists s' tr' r,
    update heap this = Returns s'
    /\ getObjectsIntersectingRectT heap true s' x y w h tr = (tr', Returns r)
    /\ (forall q, In q tr' -> exists tx ty, q = tileQ (tx, ty))
    /\ forall tx ty, In (tileQ (tx, ty)) tr' <->
         (worldToTile this x <= tx <= worldToTile this (x + w))%Z
         /\ (worldToTile this y <= ty <= worldToTile this (y + h))%Z
         /\ inBounds this tx ty = true.
Proof.
  intros _. destruct (update_returns heap this) as (g & E & wf & _).
  destruct (getObjectsIntersectingRect_spec heap _ wf x y w h) as (r & Er & _).
  pose proof (rectT_snd heap (with_grid this g) true x y w h tr) as Hs.
  destruct (getObjectsIntersectingRectT heap true (with_grid this g) x y w h tr)
    as [tr' o] eqn:ET.
  simpl in Hs. rewrite Er in Hs. subst o.
  exists (with_grid this g), tr', r. split; [exact E|]. split; [exact ET|].
  apply rectT_trace in ET.
  change (worldToTile (with_grid this g)) with (worldToTile this) in ET.
  change (inBounds (with_grid this g)) with (inBounds this) in ET.
  rewrite ET. split.
  - intros q Hq. apply in_map_iff in Hq. destruct Hq as ([tx ty] & <- & _).
    eauto.
  - intros tx ty. rewrite tileQ_In, in_flat_map. split.
    + intros (tx' & Hx & Hq). apply in_flat_map in Hq.
      destruct Hq as (ty' & Hy & Hq). apply zrange_In in Hx, Hy.
      destruct (inBounds this tx' ty') eqn:Hin; [|contradiction].
      destruct Hq as [[= <- <-]|[]]. auto.
    + intros (Hx & Hy & Hin). exists tx. rewrite zrange_In.
      split; [assumption|]. apply in_flat_map. exists ty.
      rewrite zrange_In. split; [assumption|]. rewrite Hin. now left.
Qed.

(** The rasterization keeps in-bounds tiles only. *)
Lemma bresenham_inBounds (this : SpatialGrid) (x1 y1 dx dy sx sy : Z)
      (fuel : nat) :
  forall (x0 y0 err : Z) (acc r : list (Z * Z)),
    bresenham fuel this x1 y1 dx dy sx sy x0 y0 err acc = Returns r ->
    (forall t, In t acc -> inBounds this (fst t) (snd t) = true) ->
    forall t, In t r -> inBounds this (fst t) (snd t) = true.
Proof.
  induction fuel as [|fuel IH]; intros x0 y0 err acc r Hr Hacc;
    [discriminate|].
  cbn [bresenham] in Hr.
  set (acc' := if inBounds this x0 y0 then acc ++ [(x0, y0)] else acc) in *.
  assert (Hacc' : forall t, In t acc' -> inBounds this (fst t) (snd t) = true).
  { subst acc'. destruct (inBounds this x0 y0) eqn:Hin; [|exact Hacc].
    intros t Ht. apply in_app_iff in Ht. destruct Ht as [Ht|[<-|[]]].
    - apply Hacc, Ht.
    - exact Hin. }
  destruct ((x0 =? x1)%Z && (y0 =? y1)%Z).
  - injection Hr as <-. exact Hacc'.
  - destruct (2 * err >? - dy)%Z; destruct (2 * err <? dx)%Z;
      exact (IH _ _ _ _ _ Hr Hacc').
Qed.

Lemma rasterize_inBounds (this : SpatialGrid) (fuel : nat)
      (fromX fromY toX toY : Q) (tiles : list (Z * Z)) :
  rasterize fuel this fromX fromY toX toY = Returns tiles ->
  forall t, In t tiles -> inBounds this (fst t) (snd t) = true.
Proof.
  unfold rasterize. intros Hr.
  apply (bresenham_inBounds _ _ _ _ _ _ _ _ _ _ _ _ _ Hr).
  intros t [].
Qed.

(** X17. With [debug] on, after [update] and with enough fuel, the line query
    forgets the previous trace and records the rasterized tiles followed by
    the expanded tiles; for a width that is not negative every rasterized
    tile is among the expanded ones, so it is recorded again. *)
Theorem line_trace
        (heap : Ref -> SpatialGridObject) (this : SpatialGrid) (fuel : nat)
        (fromX fromY toX toY w : Q) (tr : Trace) :
  0 < tileSize this ->
  (lineFuel this fromX fromY toX toY <= fuel)%nat ->
  exists s' tiles tr' r,
    update heap this = Returns s'
    /\ rasterize fuel s' fromX fromY toX toY = Returns tiles
    /\ getObjectsIntersectingLineT heap true fuel s' fromX fromY toX toY w tr
       = (tr', Returns r)
    /\ tr' = map tileQ
               (tiles
                ++ expand s' (Qceiling (w / (2 * tileSize this))) tiles)
    /\ (0 <= w ->
        incl tiles (expand s' (Qceiling (w / (2 * tileSize this))) tiles)).
Proof.
  intros Hts Hf. destruct (update_returns heap this) as (g & E & wf & _).
  set (s' := with_grid this g) in *.
  assert (Hf' : (lineFuel s' fromX fromY toX toY <= fuel)%nat) by exact Hf.
  destruct (getObjectsIntersectingLine_spec heap s' wf fuel
              fromX fromY toX toY w Hf') as (tiles & r & Et & Er & _).
  exists s', tiles.
  pose proof (lineT_snd heap s' true fuel fromX fromY toX toY w tr) as Hs.
  destruct (getObjectsIntersectingLineT heap true fuel s'
              fromX fromY toX toY w tr) as [tr' o] eqn:ET.
  simpl in Hs. rewrite Er in Hs. subst o.
  exists tr', r. split; [exact E|]. split; [exact Et|]. split; [reflexivity|].
  split; [|intros Hw [tx ty] Ht; apply expand_In; exists (tx, ty);
           pose proof (rasterize_inBounds _ _ _ _ _ _ _ Et _ Ht) as Hin;
           assert (He : (0 <= Qceiling (w / (2 * tileSize this)))%Z)
             by (apply ceil_nonneg; lra);
           cbn [fst snd] in *; repeat split; try assumption; lia].
  unfold getObjectsIntersectingLineT in ET.
  unfold bindT at 1 in ET. unfold resetT in ET.
  unfold bindT at 1 in ET.
  pose proof (bresenhamT_snd s' true fuel) as Hb.
  unfold rasterizeT in ET. unfold rasterize in Et.
  match type of ET with
  | context [bresenhamT true fuel s' ?a ?b ?c ?d ?e ?f ?g ?h ?i ?j ?k] =>
      specialize (Hb a b c d e f g h i j k);
      destruct (bresenhamT true fuel s' a b c d e f g h i j k)
        as [tr1 o1] eqn:EB
  end.
  cbn [snd] in Hb.
  assert (Ho : o1 = Returns tiles) by (etransitivity; [exact Hb|exact Et]).
  clear Hb. subst o1.
  apply bresenhamT_trace in EB. destruct EB as (p & Ep & Etr).
  simpl in Ep, Etr. subst p tr1.
  unfold bindT at 1 in ET. rewrite expandT_trace in ET.
  unfold bindT, liftT, retT in ET.
  change (tileSize s') with (tileSize this) in ET.
  destruct (collect s' _); try discriminate.
  injection ET as <- _. now rewrite map_app.
Qed.

Lemma line_trace_witness :
  exists s' tiles tr' r,
    update heap1 (grid100 10 [2%nat; 0%nat]) = Returns s'
    /\ rasterize 19 s' 0 0 30 30 = Returns tiles
    /\ getObjectsIntersectingLineT heap1 true 19 s' 0 0 30 30 0 [(7, 7)]
       = (tr', Returns r)
    /\ length tr' = 8%nat
    /\ incl tiles (expand s' (Qceiling (0 / (2 * 10))) tiles).
Proof.
  destruct (line_trace heap1 (grid100 10 [2%nat; 0%nat]) 19 0 0 30 30 0
              [(7, 7)]) as (s' & tiles & tr' & r & E & Et & ET & Htr & Hin).
  - reflexivity.
  - vm_compute. lia.
  - exists s', tiles, tr', r. split; [exact E|]. split; [exact Et|].
    split; [exact ET|]. split.
    + rewrite Htr. vm_compute in E. injection E as <-.
      vm_compute in Et. injection Et as <-. reflexivity.
    + apply Hin. discriminate.
Defined.

(** ** The buckets, exactly *)

(** X2. After [update], the bucket of an in-bounds tile is the live list
    filtered by "the object's tile rectangle contains this tile": same order,
    and an object added twice is registered twice. *)
Theorem update_bucket_in_order
        (heap : Ref -> SpatialGridObject) (this : SpatialGrid) (tx ty : Z) :
  inBounds this tx ty = true ->
  exists s', update heap this = Returns s'
    /\ grid_at (grid s') (tileIndex this tx ty)
       = Some (filter (fun o => spansb heap this o tx ty) (objects this))
    /\ forall o, spansb heap this o tx ty = true <-> spans heap this o tx ty.
Proof.
  intros Hin. destruct (update_bucket heap this tx ty Hin) as (s' & E & Hb).
  exists s'. split; [exact E|]. split; [exact Hb|].
  intros o. apply spansb_iff.
Qed.

Lemma update_bucket_in_order_witness :
  exists s', update heap1 (grid100 10 [1%nat; 0%nat; 2%nat; 1%nat]) = Returns s'
    /\ grid_at (grid s')
         (tileIndex (grid100 10 [1%nat; 0%nat; 2%nat; 1%nat]) 1 1)
       = Some [1%nat; 1%nat].
Proof.
  destruct (update_bucket_in_order heap1
              (grid100 10 [1%nat; 0%nat; 2%nat; 1%nat]) 1 1)
    as (s' & E & Hb & _); [reflexivity|].
  exists s'. split; [exact E|]. exact Hb.
Defined.

(** ** Growing the circle *)

(** X9. After [update], with live objects of non-negative radius, a circle of
    larger radius returns at least what a smaller one around the same point
    returns. *)
Theorem circle_radius_monotone
        (heap : Ref -> SpatialGridObject) (this : SpatialGrid)
        (x y r1 r2 : Q) :
  0 < tileSize this -> 0 <= r1 -> r1 <= r2 ->
  (forall o, In o (objects this) -> 0 <= objRadius (heap o)) ->
  exists s' res1 res2, update heap this = Returns s'
    /\ getObjectsIntersectingCircle heap s' x y r1 = Returns res1
    /\ getObjectsIntersectingCircle heap s' x y r2 = Returns res2
    /\ incl res1 res2.
Proof.
  intros Hts H1 H12 Hrad.
  destruct (update_returns heap this) as (g & E & wf & R).
  destruct (getObjectsIntersectingCircle_spec heap _ wf x y r1)
    as (res1 & E1 & _ & Hr1).
  destruct (getObjectsIntersectingCircle_spec heap _ wf x y r2)
    as (res2 & E2 & _ & Hr2).
  exists (with_grid this g), res1, res2. repeat (split; [assumption|]).
  intros o Ho. apply Hr1 in Ho. apply Hr2.
  destruct Ho as ((tx & ty & Hx & Hy & Hin & Hreg) & Ht).
  change (tileSize (with_grid this g)) with (tileSize this) in *.
  assert (Hk : (Qceiling (r1 / tileSize this)
                <= Qceiling (r2 / tileSize this))%Z).
  { apply Qceiling_resp_le. apply Qmult_le_compat_r; [assumption|].
    apply Qinv_le_0_compat. lra. }
  split.
  - exists tx, ty. repeat split; try assumption; lia.
  - apply circleTest_iff. apply circleTest_iff in Ht.
    unfold circlePred in *. eapply Qle_trans; [exact Ht|].
    assert (HR : 0 <= objRadius (heap o))
      by (apply Hrad; apply (R tx ty o Hin), Hreg).
    set (Rd := objRadius (heap o)) in *. nra.
Qed.

Lemma circle_radius_monotone_witness :
  exists s' res1 res2, update heap1 (grid100 10 [0%nat; 2%nat]) = Returns s'
    /\ getObjectsIntersectingCircle heap1 s' 30 30 5 = Returns res1
    /\ getObjectsIntersectingCircle heap1 s' 30 30 25 = Returns res2
    /\ incl res1 res2.
Proof.
  apply (circle_radius_monotone heap1 (grid100 10 [0%nat; 2%nat]) 30 30 5 25).
  - reflexivity.
  - discriminate.
  - discriminate.
  - intros o [<-|[<-|[]]]; discriminate.
Defined.

Lemma remove_after_add_witness :
  remove (add (grid100 10 [0%nat; 1%nat]) [2%nat; 2%nat; 3%nat])
         [2%nat; 2%nat; 3%nat]
  = grid100 10 [0%nat; 1%nat]
  /\ objects (remove (add (grid100 10 [0%nat; 1%nat]) [1%nat; 2%nat])
                     [1%nat])
     = objects (remove (grid100 10 [0%nat; 1%nat]) [1%nat]) ++ [2%nat].
Proof.
  destruct (remove_after_add (grid100 10 [0%nat; 1%nat])
              [2%nat; 2%nat; 3%nat]) as (_ & _ & _ & _ & H).
  destruct (remove_after_add (grid100 10 [0%nat; 1%nat]) [1%nat])
    as (_ & _ & Happ & _).
  split.
  - apply H. intros o [<-|[<-|[<-|[]]]] [H'|[H'|[]]]; discriminate.
  - exact (Happ [1%nat; 2%nat]).
Defined.

Lemma getNeighbors_trace_witness :
  exists s' tr' r,
    update heap1 (grid100 10 [0%nat]) = Returns s'
    /\ getNeighborsT true s' 5 25 1 [(7, 7)] = (tr', Returns r)
    /\ traceHas tr' 1 3 /\ ~ traceHas tr' (-1) 3 /\ ~ traceHas tr' 7 7.
Proof.
  destruct (getNeighbors_trace heap1 (grid100 10 [0%nat]) 5 25 1 [(7, 7)])
    as (s' & tr' & r & E & ET & H & _); [reflexivity|].
  exists s', tr', r. split; [exact E|]. split; [exact ET|].
  split; [|split].
  - apply H. vm_compute. intuition discriminate.
  - intros Hc. apply H in Hc. destruct Hc as (_ & _ & Hc). discriminate.
  - intros Hc. apply H in Hc. destruct Hc as ((_ & Hc) & _).
    vm_compute in Hc. now apply Hc.
Defined.

Lemma rect_trace_witness :
  exists s' tr' r,
    update heap1 (grid100 10 [0%nat]) = Returns s'
    /\ getObjectsIntersectingRectT heap1 true s' 85 15 30 10 [(7, 7)]
       = (tr', Returns r)
    /\ In (tileQ (9%Z, 2%Z)) tr' /\ ~ In (tileQ (10%Z, 2%Z)) tr'.
Proof.
  destruct (rect_trace heap1 (grid100 10 [0%nat]) 85 15 30 10 [(7, 7)])
    as (s' & tr' & r & E & ET & _ & H); [reflexivity|].
  exists s', tr', r. split; [exact E|]. split; [exact ET|]. split.
  - apply H. vm_compute. intuition discriminate.
  - intros Hc. apply H in Hc. destruct Hc as (_ & _ & Hc). discriminate.
Defined.
